(** * Tempo-aware MIDI / DAWproject timeline decoding

    A shallow embedding of [midi_to_json_custom.py] and of the tempo map,
    the time mapping, the note events and the track assembly of
    [dawproject_to_json.py], with the properties of the decoder, the
    tempo integration and the assembly proved on it.

    Conventions of the embedding:
    - [bytes] objects are [list byte]; an index read [data[i]] is
      [byte_at], which raises [IndexError] past the end, a slice
      [data[a:b]] is [slice], which never raises and is cut at the end;
    - Python integers are [Z] (unbounded), byte offsets are [nat];
    - exceptions are the [Raise] results of a small error monad; text
      written by [print] is collected as a list of [message];
    - Python floats are an interface [PyFloat] with two instances: the
      IEEE-754 binary64 numbers of the kernel ([float], bit-exact and
      executable) and the real numbers ([R], the idealised arithmetic
      used for the algebraic laws and for [math.log]). *)

From Stdlib Require Import Ascii String.
From Stdlib Require Import ZArith List Bool Lia Arith.
From Stdlib Require Import Strings.Byte.
From Stdlib Require Import Reals Lra.
From Stdlib Require Import PrimFloat SpecFloat FloatOps.
From Stdlib Require Import Sorting.Sorted Sorting.Permutation.
Import ListNotations.

Set Implicit Arguments.

(** ** Python results *)

Inductive exn : Type :=
| IndexError | StructError | ZeroDivisionError | OverflowError | ValueError | TypeError.

(** [OutOfFuel] is not a Python outcome: it marks a [while] loop whose
    iteration bound ran out; [parse_events_fuel] shows that the bound
    used by the decoder is never exhausted, and [parse_midi_total] that
    [parse_midi] never ends that way. *)
Inductive result (A : Type) : Type :=
| Ok (a : A)
| Raise (e : exn)
| OutOfFuel.

Arguments Ok {A} a.
Arguments Raise {A} e.
Arguments OutOfFuel {A}.

Definition bind {A B : Type} (r : result A) (k : A -> result B) : result B :=
  match r with
  | Ok a => k a
  | Raise e => Raise e
  | OutOfFuel => OutOfFuel
  end.

Definition map_result {A B : Type} (f : A -> B) (r : result A) : result B :=
  match r with
  | Ok a => Ok (f a)
  | Raise e => Raise e
  | OutOfFuel => OutOfFuel
  end.

Notation "x <- e ;; k" := (bind e (fun x => k))
  (at level 61, e at next level, right associativity).
Notation "' p <- e ;; k" := (bind e (fun x => match x with p => k end))
  (at level 61, p pattern, e at next level, right associativity).

(** ** Bytes *)

Definition byte_val (b : byte) : Z := Z.of_N (Byte.to_N b).

(** The byte whose value is [z mod 256]. *)
Definition byte_of_Z (z : Z) : byte :=
  match Byte.of_N (Z.to_N (z mod 256)) with
  | Some b => b
  | None => x00
  end.

(** [data[i]] *)
Definition byte_at (data : list byte) (i : nat) : result Z :=
  match nth_error data i with
  | Some b => Ok (byte_val b)
  | None => Raise IndexError
  end.

(** [data[a:b]] for [0 <= a]: cut at the end of [data], empty when [b <= a]. *)
Definition slice (data : list byte) (a b : nat) : list byte :=
  firstn (b - a) (skipn a data).

Definition bytes_eqb (x y : list byte) : bool :=
  if list_eq_dec Byte.byte_eq_dec x y then true else false.

(** Big-endian unsigned value of a byte string. *)
Definition be_uint (l : list byte) : Z :=
  fold_left (fun acc b => (acc * 256 + byte_val b)%Z) l 0%Z.

(** [struct.unpack('>I', s)[0]]: [struct.error] unless [s] has 4 bytes. *)
Definition unpack_I (s : list byte) : result Z :=
  if Nat.eqb (length s) 4 then Ok (be_uint s) else Raise StructError.

(** [struct.unpack('>HHH', s)]: [struct.error] unless [s] has 6 bytes. *)
Definition unpack_HHH (s : list byte) : result (Z * Z * Z) :=
  if Nat.eqb (length s) 6
  then Ok (be_uint (firstn 2 s), be_uint (firstn 2 (skipn 2 s)), be_uint (skipn 4 s))
  else Raise StructError.

(** ** Python floats *)

Class PyFloat (F : Type) : Type := {
  of_Z : Z -> F;              (* nearest float of an integer *)
  is_finite : F -> bool;
  fadd : F -> F -> F;
  fmul : F -> F -> F;
  fdiv : F -> F -> F;
  fltb : F -> F -> bool;      (* x < y *)
  feqb : F -> F -> bool;      (* x == y *)
}.

#[export] Instance float_PyFloat : PyFloat float := {
  of_Z z := SF2Prim (binary_normalize prec emax z 0 false);
  is_finite := PrimFloat.is_finite;
  fadd := PrimFloat.add;
  fmul := PrimFloat.mul;
  fdiv := PrimFloat.div;
  fltb := PrimFloat.ltb;
  feqb := PrimFloat.eqb;
}.

Definition Rltb (x y : R) : bool := if Rlt_dec x y then true else false.
Definition Reqb (x y : R) : bool := if Req_dec_T x y then true else false.

#[export] Instance R_PyFloat : PyFloat R := {
  of_Z := IZR;
  is_finite _ := true;
  fadd := Rplus;
  fmul := Rmult;
  fdiv := Rdiv;
  fltb := Rltb;
  feqb := Reqb;
}.

Section PyFloatOps.
Context {F : Type} `{PyFloat F}.

(** [float(n)] for a Python integer: [OverflowError] when [n] is too large. *)
Definition py_float (n : Z) : result F :=
  let x := of_Z n in
  if is_finite x then Ok x else Raise OverflowError.

(** [x / y] on floats: [ZeroDivisionError] when [y == 0.0]. *)
Definition py_div (x y : F) : result F :=
  if feqb y (of_Z 0) then Raise ZeroDivisionError else Ok (fdiv x y).

End PyFloatOps.

(** ** Stable sort by a key, as [list.sort(key=...)] *)

Section StableSort.
Variable A : Type.
Variable leb : A -> A -> bool.   (* key x <= key y *)

(** [x] is put in front of the first element whose key is not smaller, so
    an element never passes one that was before it with an equal key. *)
Fixpoint insert_sorted (x : A) (l : list A) : list A :=
  match l with
  | [] => [x]
  | y :: l' => if leb x y then x :: y :: l' else y :: insert_sorted x l'
  end.

Definition stable_sort (l : list A) : list A :=
  fold_right insert_sorted [] l.

End StableSort.

(** * midi_to_json_custom.py *)

Module Midi.

Local Open Scope Z_scope.

(** ** Decoded events

    An event is a Python dictionary; its keys beside ["absoluteTicks"] and
    ["channel"] depend on ["type"], which makes it a tagged union.  The
    ["text"] of a track name is the decoding of the payload bytes kept
    here ([meta_data.decode('utf-8')], or [str(meta_data)] when that
    fails): a function of these bytes that never raises. *)

Inductive meta_sub : Type :=
| SetTempo (tempo : Z)
| TrackName (text : list byte)
| EndOfTrack
| Unknown.

Inductive event_body : Type :=
| Meta (metaType : Z) (subType : meta_sub)
| Sysex
| NoteOff (note velocity : Z)
| NoteOn (note velocity : Z)
| PolyphonicKeyPressure (note pressure : Z)
| ControlChange (controller value : Z)
| ProgramChange (program : Z)
| ChannelPressure (pressure : Z)
| PitchBend (value : Z)
| NoType.   (* status 0xF1..0xF6, 0xF8..0xFE: no ["type"] key is set *)

Record event : Type := mk_event {
  absoluteTicks : Z;
  channel : Z;
  body : event_body;
}.

(** Lines written to standard output. *)
Inductive message (F : Type) : Type :=
| MissingMThd
| SmpteNotSupported
| ExpectedMTrk (offset : nat)
| RunningStatusError
| ParsedTracks (n : nat)
| LastNoteOffRaw (t : F)
| TotalDurationRaw (t : F)
| ScalingTime (scale_factor target : F)
| CannotScale
| SavedTo.

Arguments MissingMThd {F}.
Arguments SmpteNotSupported {F}.
Arguments ExpectedMTrk {F} offset.
Arguments RunningStatusError {F}.
Arguments ParsedTracks {F} n.
Arguments CannotScale {F}.
Arguments SavedTo {F}.

(** ** read_variable_length *)

(** The [while True] loop, on the bytes from [offset] on: [rest] is
    [data[offset:]], so that [data[offset]] is its head and an empty
    [rest] is the [IndexError] of reading past the end. *)
Fixpoint read_vlq_from (rest : list byte) (value : Z) (offset : nat)
  : result (Z * nat) :=
  match rest with
  | [] => Raise IndexError
  | b :: rest' =>
      let byte := byte_val b in
      let offset := S offset in
      let value := Z.lor (Z.shiftl value 7) (Z.land byte 0x7F) in
      if Z.land byte 0x80 =? 0 then Ok (value, offset)
      else read_vlq_from rest' value offset
  end.

Definition read_variable_length (data : list byte) (offset : nat)
  : result (Z * nat) :=
  read_vlq_from (skipn offset data) 0 offset.

(** ** The event loop of one track *)

(** The variables of the [while offset < track_end] loop. *)
Record track_state : Type := mk_state {
  ts_offset : nat;
  ts_absolute_ticks : Z;
  ts_last_status : Z;
  ts_track_events : list event;
  ts_all_events : list event;
  ts_broke : bool;       (* the loop was left by [break] *)
}.

(** Resolution of the status byte: [Some (offset, last_status, status)]
    after the [if status >= 0x80] statement, [None] for the [break]. *)
Definition resolve_status (status : Z) (offset : nat) (last_status : Z)
  : option (nat * Z * Z) :=
  if 0x80 <=? status then
    Some (S offset, (if status <? 0xF0 then status else last_status), status)
  else if last_status =? 0 then None
  else Some (offset, last_status, last_status).

(** The body of a channel voice message, by [event_type = status >> 4]. *)
Definition channel_voice (data : list byte) (offset : nat) (event_type : Z)
  : result (event_body * nat) :=
  if event_type =? 0x8 then
    note <- byte_at data offset ;;
    velocity <- byte_at data (offset + 1) ;;
    Ok (NoteOff note velocity, (offset + 2)%nat)
  else if event_type =? 0x9 then
    note <- byte_at data offset ;;
    velocity <- byte_at data (offset + 1) ;;
    if velocity =? 0 then Ok (NoteOff note 0, (offset + 2)%nat)
    else Ok (NoteOn note velocity, (offset + 2)%nat)
  else if event_type =? 0xA then
    note <- byte_at data offset ;;
    pressure <- byte_at data (offset + 1) ;;
    Ok (PolyphonicKeyPressure note pressure, (offset + 2)%nat)
  else if event_type =? 0xB then
    controller <- byte_at data offset ;;
    value <- byte_at data (offset + 1) ;;
    Ok (ControlChange controller value, (offset + 2)%nat)
  else if event_type =? 0xC then
    program <- byte_at data offset ;;
    Ok (ProgramChange program, (offset + 1)%nat)
  else if event_type =? 0xD then
    pressure <- byte_at data offset ;;
    Ok (ChannelPressure pressure, (offset + 1)%nat)
  else if event_type =? 0xE then
    lsb <- byte_at data offset ;;
    msb <- byte_at data (offset + 1) ;;
    Ok (PitchBend (Z.lor (Z.shiftl msb 7) lsb), (offset + 2)%nat)
  else Ok (NoType, offset).

(** The keys of a meta event, from its type, declared length and payload
    (lines 82-99).  The three tempo bytes are index reads in the payload,
    which may be shorter than the declared length. *)
Definition meta_payload (meta_type length : Z) (meta_data : list byte)
  : result event_body :=
  if (meta_type =? 0x51) && (length =? 3) then
    b0 <- byte_at meta_data 0 ;;
    b1 <- byte_at meta_data 1 ;;
    b2 <- byte_at meta_data 2 ;;
    let microseconds := Z.lor (Z.lor (Z.shiftl b0 16) (Z.shiftl b1 8)) b2 in
    Ok (Meta meta_type (SetTempo microseconds))
  else if meta_type =? 0x03 then Ok (Meta meta_type (TrackName meta_data))
  else if meta_type =? 0x2F then Ok (Meta meta_type EndOfTrack)
  else Ok (Meta meta_type Unknown).

(** The meta event after its [0xFF] status byte (lines 76-80).  The
    payload is a slice, cut silently at the end of [data]. *)
Definition meta_event (data : list byte) (offset : nat)
  : result (event_body * nat) :=
  meta_type <- byte_at data offset ;;
  let offset := S offset in
  '(length, offset) <- read_variable_length data offset ;;
  let meta_data := slice data offset (offset + Z.to_nat length) in
  let offset := (offset + Z.to_nat length)%nat in
  body <- meta_payload meta_type length meta_data ;;
  Ok (body, offset).

Definition sysex_event (data : list byte) (offset : nat)
  : result (event_body * nat) :=
  '(length, offset) <- read_variable_length data offset ;;
  Ok (Sysex, (offset + Z.to_nat length)%nat).

Definition is_set_tempo (e : event) : bool :=
  match body e with
  | Meta _ (SetTempo _) => true
  | _ => false
  end.

(** One iteration of the loop body (lines 52-158). *)
Definition parse_event (data : list byte) (s : track_state) : result track_state :=
  '(delta_time, offset) <- read_variable_length data (ts_offset s) ;;
  let absolute_ticks := ts_absolute_ticks s + delta_time in
  status <- byte_at data offset ;;
  match resolve_status status offset (ts_last_status s) with
  | None =>
      Ok (mk_state offset absolute_ticks (ts_last_status s)
            (ts_track_events s) (ts_all_events s) true)
  | Some (offset, last_status, status) =>
      let event_type := Z.shiftr status 4 in
      let channel := Z.land status 0x0F in
      '(body, offset) <-
         (if status =? 0xFF then meta_event data offset
          else if (status =? 0xF0) || (status =? 0xF7) then sysex_event data offset
          else channel_voice data offset event_type) ;;
      let event := mk_event absolute_ticks channel body in
      Ok (mk_state offset absolute_ticks last_status
            (ts_track_events s ++ [event])
            (if is_set_tempo event then ts_all_events s ++ [event]
             else ts_all_events s)
            false)
  end.

(** [while offset < track_end]: every iteration reads at least one byte,
    so [track_end - offset] iterations are enough ([fuel]). *)
Fixpoint parse_events (fuel : nat) (data : list byte) (track_end : nat)
  (s : track_state) : result track_state :=
  if (track_end <=? ts_offset s)%nat then Ok s
  else
    match fuel with
    | O => OutOfFuel
    | S fuel' =>
        s' <- parse_event data s ;;
        if ts_broke s' then Ok s'
        else parse_events fuel' data track_end s'
    end.

Definition MThd : list byte := [x4d; x54; x68; x64].
Definition MTrk : list byte := [x4d; x54; x72; x6b].

Section Decoder.
Context {F : Type} `{PyFloat F}.

(** [for track_idx in range(num_tracks)] (lines 37-160); a running-status
    [break] only leaves the inner loop, the track is appended and the next
    chunk header is looked for at the offset reached. *)
Fixpoint parse_tracks (num_tracks : nat) (data : list byte) (offset : nat)
  (tracks : list (list event)) (all_events : list event)
  (out : list (message F))
  : result (list (list event) * list event * list (message F)) :=
  match num_tracks with
  | O => Ok (tracks, all_events, out)
  | S n =>
      if negb (bytes_eqb (slice data offset (offset + 4)) MTrk) then
        Ok (tracks, all_events, out ++ [ExpectedMTrk offset])
      else
        let offset := (offset + 4)%nat in
        track_len <- unpack_I (slice data offset (offset + 4)) ;;
        let offset := (offset + 4)%nat in
        let track_end := (offset + Z.to_nat track_len)%nat in
        s <- parse_events (track_end - offset) data track_end
               (mk_state offset 0 0 [] all_events false) ;;
        parse_tracks n data (ts_offset s) (tracks ++ [ts_track_events s])
          (ts_all_events s)
          (if ts_broke s then out ++ [RunningStatusError] else out)
  end.

(** ** Tempo map (lines 162-169) *)

Record tempo_event : Type := mk_tempo {
  te_absoluteTicks : Z;
  te_tempo : Z;
}.

Definition tempo_events_of (all_events : list event) : list tempo_event :=
  flat_map (fun e =>
    match body e with
    | Meta _ (SetTempo t) => [mk_tempo (absoluteTicks e) t]
    | _ => []
    end) all_events.

Definition build_tempo_map (all_events : list event) : list tempo_event :=
  let tempo_events :=
    stable_sort (fun x y => te_absoluteTicks x <=? te_absoluteTicks y)
      (tempo_events_of all_events) in
  match tempo_events with
  | [] => [mk_tempo 0 500000]
  | te :: _ =>
      if 0 <? te_absoluteTicks te then mk_tempo 0 500000 :: tempo_events
      else tempo_events
  end.

(** ** ticks_to_seconds (lines 171-188) *)

(** [(delta * current_tempo) / (ticks_per_quarter * 1000000.0)]: the
    product of integers is exact, the divisor is a float, and the
    division converts the product to a float. *)
Definition span_seconds (delta current_tempo ticks_per_quarter : Z) : result F :=
  tpq <- py_float ticks_per_quarter ;;
  let divisor := fmul tpq (of_Z 1000000) in
  num <- py_float (delta * current_tempo) ;;
  py_div num divisor.

(** The [for te in tempo_events] loop; the result is the triple
    [(current_time, current_tick, current_tempo)] it leaves. *)
Fixpoint tempo_loop (tempo_events : list tempo_event) (ticks ticks_per_quarter : Z)
  (current_time : F) (current_tick current_tempo : Z) : result (F * Z * Z) :=
  match tempo_events with
  | [] => Ok (current_time, current_tick, current_tempo)
  | te :: rest =>
      if ticks <? te_absoluteTicks te then
        Ok (current_time, current_tick, current_tempo)
      else
        let delta := te_absoluteTicks te - current_tick in
        d <- span_seconds delta current_tempo ticks_per_quarter ;;
        tempo_loop rest ticks ticks_per_quarter (fadd current_time d)
          (te_absoluteTicks te) (te_tempo te)
  end.

Definition ticks_to_seconds (tempo_events : list tempo_event)
  (ticks_per_quarter ticks : Z) : result F :=
  '(current_time, current_tick, current_tempo) <-
     tempo_loop tempo_events ticks ticks_per_quarter (of_Z 0) 0 500000 ;;
  let delta := ticks - current_tick in
  d <- span_seconds delta current_tempo ticks_per_quarter ;;
  Ok (fadd current_time d).

(** ** Conversion of all events (lines 190-206) *)

(** An event with its ["time"] key set. *)
Record timed_event : Type := mk_timed {
  ev : event;
  time : F;
}.

Definition is_note_off (e : event) : bool :=
  match body e with
  | NoteOff _ _ => true
  | _ => false
  end.

(** The inner [for event in track] loop. *)
Fixpoint process_track (tempo_events : list tempo_event) (ticks_per_quarter : Z)
  (track : list event) (processed_track : list timed_event)
  (max_time last_note_off : F) : result (list timed_event * F * F) :=
  match track with
  | [] => Ok (processed_track, max_time, last_note_off)
  | event :: rest =>
      t <- ticks_to_seconds tempo_events ticks_per_quarter (absoluteTicks event) ;;
      let max_time := if fltb max_time t then t else max_time in
      let last_note_off :=
        if is_note_off event && fltb last_note_off t then t else last_note_off in
      process_track tempo_events ticks_per_quarter rest
        (processed_track ++ [mk_timed event t]) max_time last_note_off
  end.

(** The outer [for track in tracks] loop. *)
Fixpoint process_tracks (tempo_events : list tempo_event) (ticks_per_quarter : Z)
  (tracks : list (list event)) (processed_tracks : list (list timed_event))
  (max_time last_note_off : F)
  : result (list (list timed_event) * F * F) :=
  match tracks with
  | [] => Ok (processed_tracks, max_time, last_note_off)
  | track :: rest =>
      '(processed_track, max_time, last_note_off) <-
         process_track tempo_events ticks_per_quarter track [] max_time last_note_off ;;
      process_tracks tempo_events ticks_per_quarter rest
        (processed_tracks ++ [processed_track]) max_time last_note_off
  end.

(** ** parse_midi

    [data] is the content of the file.  The value is what the function
    returns ([None], or the pair of the processed tracks and the last
    note-off time) with the lines it printed. *)
Definition parse_midi (data : list byte)
  : result (option (list (list timed_event) * F) * list (message F)) :=
  if negb (bytes_eqb (slice data 0 4) MThd) then Ok (None, [MissingMThd])
  else
    header_len <- unpack_I (slice data 4 8) ;;
    '(format_type, num_tracks, time_division) <-
       unpack_HHH (slice data 8 (8 + Z.to_nat header_len)) ;;
    let offset := (8 + Z.to_nat header_len)%nat in
    let ticks_per_quarter := time_division in
    if negb (Z.land time_division 0x8000 =? 0) then Ok (None, [SmpteNotSupported])
    else
      '(tracks, all_events, out) <-
         parse_tracks (Z.to_nat num_tracks) data offset [] [] [] ;;
      let tempo_events := build_tempo_map all_events in
      '(processed_tracks, max_time, last_note_off) <-
         process_tracks tempo_events ticks_per_quarter tracks [] (of_Z 0) (of_Z 0) ;;
      Ok (Some (processed_tracks, last_note_off),
          out ++ [ParsedTracks (length tracks);
                  LastNoteOffRaw last_note_off;
                  TotalDurationRaw max_time]).

(** ** The script body (lines 214-244) *)

(** [event["time"] *= scale_factor] for every event of every track. *)
Definition scale_times (scale_factor : F) (json_data : list (list timed_event))
  : list (list timed_event) :=
  map (map (fun e => mk_timed (ev e) (fmul (time e) scale_factor))) json_data.

(** Truth value of [args.target_duration]: false for [None] and for [0.0]. *)
Definition truthy (target_duration : option F) : bool :=
  match target_duration with
  | None => false
  | Some d => negb (feqb d (of_Z 0))
  end.

(** Lines 225-236: the times after the optional scaling, and the lines
    printed. *)
Definition rescale (json_data : list (list timed_event)) (last_note_off : F)
  (target_duration : option F) : list (list timed_event) * list (message F) :=
  match target_duration with
  | Some d =>
      if truthy target_duration then
        if fltb (of_Z 0) last_note_off then
          let scale_factor := fdiv d last_note_off in
          (scale_times scale_factor json_data, [ScalingTime scale_factor d])
        else (json_data, [CannotScale])
      else (json_data, [])
  | None => (json_data, [])
  end.

(** The value is the timeline written to the output file, if one is
    written, with all the lines printed.  Unpacking the [None] that
    [parse_midi] returns for a bad header is a [TypeError]; an empty list
    of tracks is false, and nothing is scaled or written then. *)
Definition main (data : list byte) (target_duration : option F)
  : result (option (list (list timed_event)) * list (message F)) :=
  '(r, out) <- parse_midi data ;;
  match r with
  | None => Raise TypeError
  | Some (json_data, last_note_off) =>
      match json_data with
      | [] => Ok (None, out)
      | _ :: _ =>
          let '(json_data, printed) := rescale json_data last_note_off target_duration in
          Ok (Some json_data, out ++ printed ++ [SavedTo])
      end
  end.

End Decoder.

End Midi.

(** * dawproject_to_json.py *)

Module Daw.

(** ** beats_to_seconds

    Floats are real numbers here, [math.log] is [ln] on the positive
    reals and a [ValueError] elsewhere.  The rounding, the overflow and
    the underflow of binary64 are not part of this model: where a
    quotient of two positive floats underflows to 0.0 the program's
    [math.log] raises [ValueError], while [ln] of the exact quotient is
    defined; what is proved here is proved of the exact arithmetic.  Lines 58-146 of the function
    build a list [segments] and walk it with a body that ends in [pass]:
    they raise nothing and their values are never read, so the embedding
    starts at line 164. *)

Local Open Scope R_scope.

Definition Rleb (x y : R) : bool := if Rle_dec x y then true else false.

(** [math.log(x)] *)
Definition py_log (x : R) : result R :=
  if Rltb 0 x then Ok (ln x) else Raise ValueError.

(** Lines 164-167. *)
Definition sorted_points_of (initial_bpm : R) (tempo_points : list (R * R))
  : list (R * R) :=
  match tempo_points with
  | [] => (0, initial_bpm) :: tempo_points
  | (t, _) :: _ =>
      if Rltb 0 t then (0, initial_bpm) :: tempo_points else tempo_points
  end.

(** How the [for i in range(len(sorted_points) - 1)] loop is left: by the
    [return total_time] of a partial segment, or at its end (or [break]). *)
Inductive loop_exit : Type :=
| Returned (total_time : R)
| Finished (total_time : R).

(** Lines 180-188: the time added by a segment that [beats] has passed. *)
Definition full_segment (t1 v1 t2 v2 : R) : result R :=
  let dur := t2 - t1 in
  if Rltb 0 dur then
    if Rltb (Rabs (v2 - v1)) 0.0001 then py_div (dur * 60) v1
    else
      slope <- py_div (v2 - v1) dur ;;
      q <- py_div 60 slope ;;
      ratio <- py_div v2 v1 ;;
      l <- py_log ratio ;;
      Ok (q * l)
  else Ok 0.

(** Lines 191-200: the time added by the segment that contains [beats]. *)
Definition partial_segment (beats t1 v1 t2 v2 : R) : result R :=
  let dur := beats - t1 in
  if Rltb 0 dur then
    slope <- py_div (v2 - v1) (t2 - t1) ;;
    let v_end := v1 + slope * dur in
    if Rltb (Rabs slope) 0.0001 then py_div (dur * 60) v1
    else
      q <- py_div 60 slope ;;
      ratio <- py_div v_end v1 ;;
      l <- py_log ratio ;;
      Ok (q * l)
  else Ok 0.

(** Lines 171-201, on the points from index [i] on. *)
Fixpoint segment_loop (beats : R) (sorted_points : list (R * R)) (total_time : R)
  : result loop_exit :=
  match sorted_points with
  | (t1, v1) :: rest =>
      match rest with
      | (t2, v2) :: _ =>
          if Rltb beats t1 then Ok (Finished total_time)
          else if Rleb t2 beats then
            d <- full_segment t1 v1 t2 v2 ;;
            segment_loop beats rest (total_time + d)
          else
            d <- partial_segment beats t1 v1 t2 v2 ;;
            Ok (Returned (total_time + d))
      | [] => Ok (Finished total_time)
      end
  | [] => Ok (Finished total_time)
  end.

Definition beats_to_seconds (beats initial_bpm : R) (tempo_points : list (R * R))
  : result R :=
  let sorted_points := sorted_points_of initial_bpm tempo_points in
  r <- segment_loop beats sorted_points 0 ;;
  match r with
  | Returned total_time => Ok total_time
  | Finished total_time =>
      let '(last_t, last_v) := last sorted_points (0, initial_bpm) in
      if Rltb last_t beats then
        d <- py_div ((beats - last_t) * 60) last_v ;;
        Ok (total_time + d)
      else Ok total_time
  end.

Local Close Scope R_scope.
Local Open Scope Z_scope.

(** ** Assembly of the tracks (lines 318-356) *)

Section Assembly.
Context {F : Type} `{PyFloat F}.

(** The event dictionaries that [main] builds: a track-name meta event,
    a note on or off with its velocity both as an integer and as the
    float it came from, and the end-of-track marker. *)
Inductive daw_body : Type :=
| TrackName (text : string)
| NoteOn (note velocity : Z) (vel : F)
| NoteOff (note velocity : Z) (rel : F)
| EndOfTrack.

Record daw_event : Type := mk_daw_event {
  absoluteTicks : Z;
  channel : Z;
  body : daw_body;
  time : F;
}.

(** [x['type'] == 'noteOff'] *)
Definition type_is_note_off (x : daw_event) : bool :=
  match body x with
  | NoteOff _ _ _ => true
  | _ => false
  end.

(** [x['type'] == 'noteOn'] *)
Definition type_is_note_on (x : daw_event) : bool :=
  match body x with
  | NoteOn _ _ _ => true
  | _ => false
  end.

(** Order of the keys [(x['absoluteTicks'], x['type'] == 'noteOff')]:
    tuples compare lexicographically and [False < True]. *)
Definition key_leb (x y : daw_event) : bool :=
  (absoluteTicks x <? absoluteTicks y) ||
  ((absoluteTicks x =? absoluteTicks y) && implb (type_is_note_off x) (type_is_note_off y)).

(** [evts.sort(key=...)] (line 333) *)
Definition sort_events (evts : list daw_event) : list daw_event :=
  stable_sort key_leb evts.

(** [max(evts, key=lambda x: x['time'])]: the first event of greatest time. *)
Fixpoint max_by_time (best : daw_event) (evts : list daw_event) : daw_event :=
  match evts with
  | [] => best
  | e :: rest => max_by_time (if fltb (time best) (time e) then e else best) rest
  end.

(** The body of the loop over the track names, for one list of events. *)
Definition assemble_track (evts : list daw_event) : list daw_event :=
  let evts := sort_events evts in
  let '(max_time, max_ticks) :=
    match evts with
    | [] => (of_Z 0, 0)
    | e :: rest =>
        let last_evt := max_by_time e rest in
        (time last_evt, absoluteTicks last_evt)
    end in
  evts ++ [mk_daw_event max_ticks 15 EndOfTrack max_time].

(** [track_events] is a dictionary from track names to lists of events,
    kept in insertion order. *)
Definition track_dict : Type := list (string * list daw_event).

Definition lookup (t_name : string) (track_events : track_dict) : option (list daw_event) :=
  match find (fun kv => String.eqb (fst kv) t_name) track_events with
  | Some kv => Some (snd kv)
  | None => None
  end.

Definition ordered_tracks (track_events : track_dict) : list string :=
  fold_left
    (fun ordered kv =>
       if existsb (String.eqb (fst kv)) ordered then ordered
       else ordered ++ [fst kv])
    track_events
    ["Violin I"; "Violin II"; "Viola"; "Violoncello"; "Contrabass"]%string.

Definition final_output (track_events : track_dict) : list (list daw_event) :=
  flat_map
    (fun t_name =>
       match lookup t_name track_events with
       | Some evts => [assemble_track evts]
       | None => []
       end)
    (ordered_tracks track_events).

End Assembly.

End Daw.

(** * Track byte streams

    The vocabulary in which the properties of the decoder are stated:
    variable-length quantities as byte strings, and a track as a list of
    events in wire form, written either with every status byte or with
    the status bytes that running status allows to leave out. *)

Module Stream.
Import Midi.

Local Open Scope Z_scope.

(** The value of a byte string read as a variable-length quantity. *)
Definition vlq_step (value : Z) (b : byte) : Z :=
  Z.lor (Z.shiftl value 7) (Z.land (byte_val b) 0x7F).

Definition vlq_value (d : list byte) : Z := fold_left vlq_step d 0.

(** A continuation byte: its top bit is set. *)
Definition continuation (c : byte) : Prop := 0x80 <= byte_val c.

(** A complete quantity: every byte but the last has its top bit set. *)
Fixpoint is_vlq (d : list byte) : bool :=
  match d with
  | [] => false
  | b :: d' =>
      match d' with
      | [] => byte_val b <? 0x80
      | _ :: _ => (0x80 <=? byte_val b) && is_vlq d'
      end
  end.

(** Modelled from the spec: the repository has no encoder (there is no
    write path); this is the canonical encoding of the glossary's
    "big-endian, continuation-bit-terminated integer encoding": the 7-bit
    groups of [v], most significant first, no leading zero group, the top
    bit set on every byte but the last.  [vlq_groups] puts the groups of
    [n] above the bytes of [acc]; [fuel] bounds the number of groups. *)
Fixpoint vlq_groups (fuel : nat) (n : Z) (acc : list byte) : list byte :=
  match fuel with
  | O => acc
  | S fuel' =>
      if n =? 0 then acc
      else vlq_groups fuel' (Z.shiftr n 7)
             (byte_of_Z (Z.lor 0x80 (Z.land n 0x7F)) :: acc)
  end.

(** Modelled from the spec: the canonical encoding of [v], the last group
    below the groups of [v >> 7]. *)
Definition encode_vlq (v : Z) : list byte :=
  vlq_groups (Z.to_nat (Z.log2 v)) (Z.shiftr v 7) [byte_of_Z (Z.land v 0x7F)].

(** One event of a track in wire form.  [omit] says that the status byte
    of a channel voice message is left out of the running-status form of
    the stream. *)
Inductive item : Type :=
| Voice (delta : list byte) (status : byte) (omit : bool) (args : list byte)
| MetaItem (delta : list byte) (meta_type : byte) (len payload : list byte)
| SysexItem (delta : list byte) (status : byte) (len payload : list byte)
| SystemItem (delta : list byte) (status : byte).

Definition item_delta (it : item) : list byte :=
  match it with
  | Voice d _ _ _ | MetaItem d _ _ _ | SysexItem d _ _ _ | SystemItem d _ => d
  end.

(** The bytes of an event: with [running], an omitted status byte is
    left out; without, every status byte is written. *)
Definition item_bytes (running : bool) (it : item) : list byte :=
  match it with
  | Voice d s omit args => d ++ (if running && omit then [] else [s]) ++ args
  | MetaItem d t len payload => d ++ [xff; t] ++ len ++ payload
  | SysexItem d s len payload => d ++ [s] ++ len ++ payload
  | SystemItem d s => d ++ [s]
  end.

Definition stream_bytes (running : bool) (items : list item) : list byte :=
  flat_map (item_bytes running) items.

(** Number of data bytes of a channel voice message. *)
Definition arity (status : Z) : nat :=
  let event_type := Z.shiftr status 4 in
  if (event_type =? 0xC) || (event_type =? 0xD) then 1%nat else 2%nat.

(** The last channel voice status after an event. *)
Definition next_status (last : Z) (it : item) : Z :=
  match it with
  | Voice _ s _ _ => byte_val s
  | _ => last
  end.

Definition last_voice_status (last : Z) (items : list item) : Z :=
  fold_left next_status items last.

(** Well-formed events: complete delta times and lengths, payloads of the
    declared length, channel statuses in 0x80..0xEF with their data
    bytes, and a status byte left out only where it repeats the last
    channel status and the first data byte has its top bit clear. *)
Definition wf_item (last : Z) (it : item) : bool :=
  match it with
  | Voice d s omit args =>
      is_vlq d && (0x80 <=? byte_val s) && (byte_val s <? 0xF0) &&
      Nat.eqb (length args) (arity (byte_val s)) &&
      (if omit then
         (byte_val s =? last) &&
         match args with
         | a :: _ => byte_val a <? 0x80
         | [] => false
         end
       else true)
  | MetaItem d t len payload =>
      is_vlq d && is_vlq len && (vlq_value len =? Z.of_nat (length payload))
  | SysexItem d s len payload =>
      is_vlq d && ((byte_val s =? 0xF0) || (byte_val s =? 0xF7)) &&
      is_vlq len && (vlq_value len =? Z.of_nat (length payload))
  | SystemItem d s =>
      is_vlq d && (0xF0 <=? byte_val s) &&
      negb ((byte_val s =? 0xF0) || (byte_val s =? 0xF7) || (byte_val s =? 0xFF))
  end.

Fixpoint wf_items (last : Z) (items : list item) : bool :=
  match items with
  | [] => true
  | it :: rest => wf_item last it && wf_items (next_status last it) rest
  end.

(** An event that is not a channel voice message. *)
Definition is_system (it : item) : bool :=
  match it with
  | Voice _ _ _ _ => false
  | _ => true
  end.

(** The decoded form of an event, from its own bytes alone. *)
Definition voice_body (status : Z) (args : list byte) : event_body :=
  match channel_voice args 0 (Z.shiftr status 4) with
  | Ok (b, _) => b
  | _ => NoType
  end.

Definition meta_body (meta_type : byte) (len payload : list byte) : event_body :=
  match meta_payload (byte_val meta_type) (vlq_value len) payload with
  | Ok b => b
  | _ => NoType
  end.

Definition item_event (ticks : Z) (it : item) : event :=
  let absolute_ticks := ticks + vlq_value (item_delta it) in
  match it with
  | Voice _ s _ args =>
      mk_event absolute_ticks (Z.land (byte_val s) 0x0F) (voice_body (byte_val s) args)
  | MetaItem _ t len payload =>
      mk_event absolute_ticks (Z.land 0xFF 0x0F) (meta_body t len payload)
  | SysexItem _ s _ _ => mk_event absolute_ticks (Z.land (byte_val s) 0x0F) Sysex
  | SystemItem _ s => mk_event absolute_ticks (Z.land (byte_val s) 0x0F) NoType
  end.

Fixpoint events_of (ticks : Z) (items : list item) : list event :=
  match items with
  | [] => []
  | it :: rest =>
      let e := item_event ticks it in
      e :: events_of (absoluteTicks e) rest
  end.

Definition ticks_after (ticks : Z) (items : list item) : Z :=
  fold_left (fun t it => t + vlq_value (item_delta it)) items ticks.

(** The events whose length field moves the offset without reading. *)
Definition is_meta_or_sysex (e : event) : bool :=
  match body e with
  | Meta _ _ | Sysex => true
  | _ => false
  end.

Definition not_skipping (b : event_body) : Prop :=
  match b with
  | Meta _ _ | Sysex => False
  | _ => True
  end.

(** The last event appended is a meta or system exclusive event. *)
Definition ends_with_skip (s : track_state) : Prop :=
  exists evs e, ts_track_events s = evs ++ [e] /\ is_meta_or_sysex e = true.

(** The same reading [k] bytes further into the data. *)
Definition shift_offset {A : Type} (k : nat) (r : result (A * nat))
  : result (A * nat) :=
  map_result (fun p => (fst p, (k + snd p)%nat)) r.

Definition shift_state (k : nat) (s : track_state) : track_state :=
  mk_state (k + ts_offset s) (ts_absolute_ticks s) (ts_last_status s)
    (ts_track_events s) (ts_all_events s) (ts_broke s).

End Stream.

(** * Sample files *)

Module Samples.
Import Midi.

Local Open Scope Z_scope.

(** The header chunk of a format 1 file with [num_tracks] tracks and 480
    ticks per quarter note. *)
Definition midi_header (num_tracks : byte) : list byte :=
  MThd ++ [x00; x00; x00; x06; x00; x01; x00; num_tracks; x01; xe0].

(** The four bytes of a chunk length. *)
Definition be32 (n : Z) : list byte :=
  [byte_of_Z (n / 2 ^ 24); byte_of_Z (n / 2 ^ 16); byte_of_Z (n / 2 ^ 8);
   byte_of_Z n].

(** The file of one track whose chunk holds the bytes [track]. *)
Definition track_file (track : list byte) : list byte :=
  (midi_header x01 ++ MTrk ++ be32 (Z.of_nat (length track))) ++ track.

(** A file of one track: note on of key 60 at tick 0, and its note off
    (a note on of velocity 0 under running status) at tick 480. *)
Definition one_note_file : list byte :=
  midi_header x01 ++ MTrk ++ [x00; x00; x00; x08]
  ++ [x00; x90; x3c; x40; x83; x60; x3c; x00].

End Samples.

(** * Shape of the decoded events

    What the event loop of [parse_midi] guarantees of every event it
    appends, whatever the bytes it reads. *)

Module Shape.
Import Midi.

Local Open Scope Z_scope.

(** The value of one byte. *)
Definition in_byte (z : Z) : Prop := 0 <= z < 256.

Definition body_ok (b : event_body) : Prop :=
  match b with
  | Meta t (SetTempo tempo) => t = 0x51 /\ 0 <= tempo < 2 ^ 24
  | Meta t (TrackName _) => t = 0x03
  | Meta t EndOfTrack => t = 0x2F
  | Meta t Unknown => in_byte t /\ t <> 0x03 /\ t <> 0x2F
  | Sysex | NoType => True
  | NoteOff note velocity => in_byte note /\ in_byte velocity
  | NoteOn note velocity => in_byte note /\ 1 <= velocity < 256
  | PolyphonicKeyPressure note pressure => in_byte note /\ in_byte pressure
  | ControlChange controller value => in_byte controller /\ in_byte value
  | ProgramChange program => in_byte program
  | ChannelPressure pressure => in_byte pressure
  | PitchBend value => 0 <= value < 2 ^ 15
  end.

Definition event_ok (e : event) : Prop :=
  0 <= channel e <= 15 /\ body_ok (body e).

(** The ticks of the events of a track, none below [start], none below
    an earlier one. *)
Definition ticks_ascend (start : Z) (events : list event) : Prop :=
  StronglySorted Z.le (start :: map absoluteTicks events).

End Shape.

(** * The name of the output file (midi_to_json_custom.py, lines 238-240) *)

Module OutputName.

Local Open Scope string_scope.

(** [s.startswith(p)] *)
Fixpoint starts_with (p s : string) : bool :=
  match p with
  | EmptyString => true
  | String a p' =>
      match s with
      | EmptyString => false
      | String b s' => Ascii.eqb a b && starts_with p' s'
      end
  end.

(** [old in s] *)
Fixpoint contains (old s : string) : bool :=
  starts_with old s ||
  match s with
  | EmptyString => false
  | String _ s' => contains old s'
  end.

(** [s.replace(old, new)] for a non-empty [old]: the occurrences of [old]
    are taken from left to right and do not overlap.  [skip] counts the
    characters of the occurrence just replaced that are still to pass. *)
Fixpoint replace_from (old new : string) (skip : nat) (s : string) : string :=
  match s with
  | EmptyString => EmptyString
  | String c s' =>
      match skip with
      | S k => replace_from old new k s'
      | O =>
          if starts_with old s
          then new ++ replace_from old new (String.length old - 1) s'
          else String c (replace_from old new 0 s')
      end
  end.

Definition replace (old new s : string) : string := replace_from old new 0 s.

(** Lines 238-240. *)
Definition output_file (midi_file : string) : string :=
  let output_file := replace ".midi" ".json" (replace ".mid" ".json" midi_file) in
  if String.eqb output_file midi_file then output_file ++ ".json"
  else output_file.

End OutputName.

(** * Order of two elements of a list *)

Module Order.

(** [x] stands before [y] in the list. *)
Inductive before (A : Type) (x y : A) : list A -> Prop :=
| before_here (l : list A) : In y l -> before x y (x :: l)
| before_later (z : A) (l : list A) : before x y l -> before x y (z :: l).

End Order.

(** * get_tempo_map (dawproject_to_json.py, lines 15-51)

    The project is the element tree that [ET.fromstring] returns.  As in
    [beats_to_seconds], floats are real numbers.  The reading of a
    number, [float(s)] for a string [s], is left open: [float_of_string]
    gives the number, or [None] where [float] raises [ValueError]. *)

Module DawXml.

Local Open Scope string_scope.

(** An element: its tag, its attributes, its children in document
    order. *)
#[warnings="-register-all"]
Inductive element : Type :=
| Element (tag : string) (attrib : list (string * string))
    (children : list element).

Definition tag (e : element) : string :=
  match e with Element t _ _ => t end.

Definition attrib (e : element) : list (string * string) :=
  match e with Element _ a _ => a end.

Definition children (e : element) : list element :=
  match e with Element _ _ c => c end.

(** [e.attrib.get(key)] *)
Definition attrib_get (e : element) (key : string) : option string :=
  match List.find (fun kv => String.eqb (fst kv) key) (attrib e) with
  | Some kv => Some (snd kv)
  | None => None
  end.

(** [e.find(t)] for a tag name [t]: the first child with this tag. *)
Definition find (e : element) (t : string) : option element :=
  List.find (fun c => String.eqb (tag c) t) (children e).

(** [e.iter()]: the element and all the elements below it, in document
    order. *)
Fixpoint iter (e : element) : list element :=
  match e with
  | Element _ _ c => e :: flat_map iter c
  end.

(** [a == b] for two values that are a string or [None]. *)
Definition option_string_eqb (a b : option string) : bool :=
  match a, b with
  | Some x, Some y => String.eqb x y
  | None, None => true
  | _, _ => false
  end.

Section GetTempoMap.
Variable float_of_string : string -> option R.

(** [float(a)] for the value of [attrib.get]: [None] is a [TypeError]. *)
Definition float_attr (a : option string) : result R :=
  match a with
  | None => Raise TypeError
  | Some s =>
      match float_of_string s with
      | Some x => Ok x
      | None => Raise ValueError
      end
  end.

(** The pair [(time, value)] read from a point (lines 37-38, 45-46). *)
Definition point_of (e : element) : result (R * R) :=
  time <- float_attr (attrib_get e "time") ;;
  value <- float_attr (attrib_get e "value") ;;
  Ok (time, value).

(** Lines 16-23: the initial tempo and the identifier of the tempo
    parameter. *)
Definition transport_tempo (root : element) : result (R * option string) :=
  match find root "Transport" with
  | Some transport =>
      match find transport "Tempo" with
      | Some tempo_elem =>
          initial_bpm <-
            match attrib_get tempo_elem "value" with
            | Some s => float_attr (Some s)
            | None => Ok 120%R
            end ;;
          Ok (initial_bpm, attrib_get tempo_elem "id")
      | None => Ok (120%R, None)
      end
  | None => Ok (120%R, None)
  end.

(** The test of line 30. *)
Definition is_tempo_automation (tempo_id : option string) (elem : element)
  : bool :=
  match find elem "Target" with
  | Some target => option_string_eqb (attrib_get target "parameter") tempo_id
  | None => false
  end.

(** Lines 35-39: the [RealPoint] children of the automation. *)
Fixpoint real_points (elems : list element) (points : list (R * R))
  : result (list (R * R)) :=
  match elems with
  | [] => Ok points
  | child :: rest =>
      if String.eqb (tag child) "RealPoint" then
        p <- point_of child ;;
        real_points rest (points ++ [p])
      else real_points rest points
  end.

(** Lines 44-47: all the children of a [Points] container. *)
Fixpoint container_points (elems : list element) (points : list (R * R))
  : result (list (R * R)) :=
  match elems with
  | [] => Ok points
  | pt :: rest =>
      p <- point_of pt ;;
      container_points rest (points ++ [p])
  end.

(** Lines 35-47, for the element found. *)
Definition automation_points (elem : element) : result (list (R * R)) :=
  points <- real_points (children elem) [] ;;
  match find elem "Points" with
  | Some pts_container => container_points (children pts_container) points
  | None => Ok points
  end.

(** The loop of line 28 ends at the first element that passes the test
    ([break]). *)
Definition get_tempo_map (root : element) : result (R * list (R * R)) :=
  '(initial_bpm, tempo_id) <- transport_tempo root ;;
  points <-
    match List.find (is_tempo_automation tempo_id) (iter root) with
    | Some elem => automation_points elem
    | None => Ok []
    end ;;
  Ok (initial_bpm, stable_sort (fun x y => Daw.Rleb (fst x) (fst y)) points).

End GetTempoMap.

End DawXml.

(** * The events of a note (dawproject_to_json.py, lines 284-317)

    Floats are real numbers, as in [beats_to_seconds]. *)

Module DawNotes.

Local Open Scope R_scope.

(** [int(x)] for a float: rounded toward zero. *)
Definition py_int (x : R) : Z :=
  if Rle_dec 0 x then Int_part x else (- Int_part (- x))%Z.

(** Lines 284-317: the note on and the note off that are appended for a
    note, from the numbers read from the attributes of the clip and of
    the note ([note_key] is [int(note.attrib.get('key', 60))],
    [transpose] the entry of the track in [transposition_map], or 0). *)
Definition note_events (initial_bpm : R) (tempo_points : list (R * R))
  (transpose : Z) (clip_start clip_play_start note_start note_dur : R)
  (note_key : Z) (vel rel : R) : result (list (Daw.daw_event (F := R))) :=
  let key := (note_key + transpose)%Z in
  let abs_beat_start := clip_start + (note_start - clip_play_start) in
  let abs_beat_end := abs_beat_start + note_dur in
  time_start <- Daw.beats_to_seconds abs_beat_start initial_bpm tempo_points ;;
  time_end <- Daw.beats_to_seconds abs_beat_end initial_bpm tempo_points ;;
  let ticks_start := py_int (abs_beat_start * 960) in
  let ticks_end := py_int (abs_beat_end * 960) in
  Ok [Daw.mk_daw_event ticks_start 13
        (Daw.NoteOn key (py_int (vel * 127)) vel) time_start;
      Daw.mk_daw_event ticks_end 13
        (Daw.NoteOff key (py_int (rel * 127)) rel) time_end].

End DawNotes.

(** * A sample project *)

Module DawSamples.

Local Open Scope string_scope.

(** A reader of the numerals of the sample. *)
Definition float_of_string (s : string) : option R :=
  if String.eqb s "0" then Some 0%R
  else if String.eqb s "4" then Some 4%R
  else if String.eqb s "60" then Some 60%R
  else if String.eqb s "120" then Some 120%R
  else None.

(** A project at 120 BPM whose tempo automation has two points, written
    out of order: 60 BPM at beat 4 and 120 BPM at beat 0. *)
Definition project : DawXml.element :=
  DawXml.Element "Project" []
    [DawXml.Element "Transport" []
       [DawXml.Element "Tempo" [("value", "120"); ("id", "id3")] []];
     DawXml.Element "Arrangement" []
       [DawXml.Element "TempoAutomation" []
          [DawXml.Element "Target" [("parameter", "id3")] [];
           DawXml.Element "RealPoint" [("time", "4"); ("value", "60")] [];
           DawXml.Element "RealPoint" [("time", "0"); ("value", "120")] []]]].

End DawSamples.

(** * Properties *)

Unset Implicit Arguments.

Import Midi Stream Samples.

(** ** Bytes and bit arithmetic *)

Section ByteFacts.
Local Open Scope Z_scope.

Lemma byte_val_range (b : byte) : 0 <= byte_val b < 256.
Proof.
  unfold byte_val. pose proof (Byte.to_N_bounded b). lia.
Qed.

Lemma byte_val_of_Z (z : Z) : 0 <= z < 256 -> byte_val (byte_of_Z z) = z.
Proof.
  intros Hz. unfold byte_of_Z, byte_val.
  rewrite Z.mod_small by lia.
  destruct (Byte.of_N (Z.to_N z)) as [b|] eqn:E.
  - apply Byte.to_of_N in E. rewrite E. lia.
  - apply Byte.of_N_None_iff in E. lia.
Qed.

(** The test [byte & 0x80] of the decoder reads the top bit. *)
Lemma top_bit_clear (b : byte) :
  (Z.land (byte_val b) 0x80 =? 0) = (byte_val b <? 0x80).
Proof. destruct b; reflexivity. Qed.

Lemma lor_shiftl_low (a m k : Z) :
  0 <= k -> 0 <= m < 2 ^ k -> Z.lor (Z.shiftl a k) m = a * 2 ^ k + m.
Proof.
  intros Hk Hm.
  rewrite Z.shiftl_mul_pow2 by lia.
  rewrite <- Z.lxor_lor, <- Z.add_nocarry_lxor; trivial;
    apply Z.bits_inj'; intros i Hi; rewrite Z.land_spec, Z.bits_0;
    destruct (Z.lt_ge_cases i k) as [Hlt|Hge].
  - rewrite Z.mul_pow2_bits_low by lia. reflexivity.
  - replace (Z.testbit m i) with false; [apply andb_false_r|].
    symmetry. destruct (Z.eq_dec m 0) as [->|Hne]; [apply Z.bits_0|].
    apply Z.bits_above_log2; [lia|].
    apply Z.log2_lt_pow2; [lia|].
    apply Z.lt_le_trans with (2 ^ k); [lia|].
    apply Z.pow_le_mono_r; lia.
  - rewrite Z.mul_pow2_bits_low by lia. reflexivity.
  - replace (Z.testbit m i) with false; [apply andb_false_r|].
    symmetry. destruct (Z.eq_dec m 0) as [->|Hne]; [apply Z.bits_0|].
    apply Z.bits_above_log2; [lia|].
    apply Z.log2_lt_pow2; [lia|].
    apply Z.lt_le_trans with (2 ^ k); [lia|].
    apply Z.pow_le_mono_r; lia.
Qed.

Lemma land_7F (z : Z) : Z.land z 0x7F = z mod 128.
Proof. exact (Z.land_ones z 7 ltac:(lia)). Qed.

(** The accumulation step of the decoder, arithmetically. *)
Lemma vlq_step_arith (value : Z) (b : byte) :
  vlq_step value b = value * 128 + byte_val b mod 128.
Proof.
  unfold vlq_step. rewrite land_7F.
  rewrite (lor_shiftl_low value _ 7); [reflexivity|lia|].
  change (2 ^ 7) with 128. apply Z.mod_pos_bound. lia.
Qed.

End ByteFacts.

(** ** read_variable_length *)

Section VarLen.
Local Open Scope Z_scope.

Lemma read_vlq_from_continue (cs l : list byte) (value : Z) (offset : nat) :
  Forall continuation cs ->
  read_vlq_from (cs ++ l) value offset
  = read_vlq_from l (fold_left vlq_step cs value) (offset + length cs).
Proof.
  intros Hcs. revert value offset.
  induction Hcs as [|c cs Hc _ IH]; intros value offset;
    cbn [app read_vlq_from fold_left length].
  - f_equal. lia.
  - rewrite top_bit_clear.
    destruct (Z.ltb_spec (byte_val c) 0x80) as [Hlt|_];
      [unfold continuation in Hc; lia|].
    rewrite IH. f_equal. lia.
Qed.

Lemma read_vlq_from_stop (b : byte) (l : list byte) (value : Z) (offset : nat) :
  byte_val b < 0x80 ->
  read_vlq_from (b :: l) value offset = Ok (vlq_step value b, S offset).
Proof.
  intros Hb. cbn [read_vlq_from]. rewrite top_bit_clear.
  destruct (Z.ltb_spec (byte_val b) 0x80); [reflexivity|lia].
Qed.

(** A complete quantity is a run of continuation bytes and a last byte. *)
Lemma is_vlq_split (d : list byte) :
  is_vlq d = true ->
  exists cs b, d = cs ++ [b] /\ Forall continuation cs /\ byte_val b < 0x80.
Proof.
  induction d as [|c d IH]; [discriminate|].
  destruct d as [|c' d'].
  - simpl. intros Hb. exists [], c. repeat split; [constructor|].
    apply Z.ltb_lt. exact Hb.
  - intros Hd. change (is_vlq (c :: c' :: d'))
      with ((0x80 <=? byte_val c) && is_vlq (c' :: d')) in Hd.
    apply andb_true_iff in Hd as [Hc Hd].
    destruct (IH Hd) as (cs & b & E & Hcs & Hb).
    exists (c :: cs), b. rewrite E. repeat split; trivial.
    constructor; trivial. apply Z.leb_le. exact Hc.
Qed.

Lemma read_vlq_from_complete (d l : list byte) (value : Z) (offset : nat) :
  is_vlq d = true ->
  read_vlq_from (d ++ l) value offset
  = Ok (fold_left vlq_step d value, (offset + length d)%nat).
Proof.
  intros Hd. destruct (is_vlq_split d Hd) as (cs & b & -> & Hcs & Hb).
  rewrite <- app_assoc, read_vlq_from_continue by exact Hcs.
  cbn [app]. rewrite read_vlq_from_stop by exact Hb.
  rewrite fold_left_app, length_app. cbn [fold_left length]. do 2 f_equal. lia.
Qed.

Lemma skipn_app_length {A : Type} (pre l : list A) :
  skipn (length pre) (pre ++ l) = l.
Proof.
  rewrite skipn_app, skipn_all, Nat.sub_diag. reflexivity.
Qed.

Lemma read_variable_length_complete (pre d rest : list byte) :
  is_vlq d = true ->
  read_variable_length (pre ++ d ++ rest) (length pre)
  = Ok (vlq_value d, (length pre + length d)%nat).
Proof.
  intros Hd. unfold read_variable_length.
  rewrite skipn_app_length. apply read_vlq_from_complete. exact Hd.
Qed.

Lemma read_vlq_from_outcome (l : list byte) (value : Z) (offset : nat) :
  read_vlq_from l value offset = Raise IndexError \/
  exists v k, read_vlq_from l value offset = Ok (v, (offset + S k)%nat)
              /\ (S k <= length l)%nat.
Proof.
  revert value offset.
  induction l as [|b l IH]; intros value offset; cbn [read_vlq_from length].
  - left. reflexivity.
  - destruct (Z.land (byte_val b) 128 =? 0).
    + right. exists (Z.lor (Z.shiftl value 7) (Z.land (byte_val b) 127)), 0%nat.
      split; [do 2 f_equal; lia | lia].
    + destruct (IH (Z.lor (Z.shiftl value 7) (Z.land (byte_val b) 127)) (S offset))
        as [E | (v & k & E & Hk)].
      * left. exact E.
      * right. exists v, (S k). rewrite E. split; [do 2 f_equal; lia | lia].
Qed.

End VarLen.

(** ** The canonical encoding is read back *)

Section RoundTrip.
Local Open Scope Z_scope.

Lemma group_byte (n : Z) :
  byte_val (byte_of_Z (Z.lor 0x80 (Z.land n 0x7F))) = 128 + n mod 128.
Proof.
  rewrite land_7F.
  assert (Hm : 0 <= n mod 128 < 128) by (apply Z.mod_pos_bound; lia).
  change (Z.lor 0x80 (n mod 128)) with (Z.lor (Z.shiftl 1 7) (n mod 128)).
  rewrite (lor_shiftl_low 1 _ 7) by (change (2 ^ 7) with 128; lia).
  change (1 * 2 ^ 7) with 128.
  apply byte_val_of_Z. lia.
Qed.

Lemma last_byte (v : Z) : byte_val (byte_of_Z (Z.land v 0x7F)) = v mod 128.
Proof.
  rewrite land_7F.
  assert (Hm : 0 <= v mod 128 < 128) by (apply Z.mod_pos_bound; lia).
  apply byte_val_of_Z. lia.
Qed.

Lemma vlq_groups_decode (fuel : nat) :
  forall (n : Z) (acc : list byte),
    0 <= n < 2 ^ Z.of_nat fuel ->
    exists k : nat,
      length (vlq_groups fuel n acc) = (k + length acc)%nat /\
      forall (rest : list byte) (offset : nat),
        read_vlq_from (vlq_groups fuel n acc ++ rest) 0 offset
        = read_vlq_from (acc ++ rest) n (offset + k).
Proof.
  induction fuel as [|fuel IH]; intros n acc Hn.
  - exists 0%nat. split; [reflexivity|]. intros rest offset.
    change (2 ^ Z.of_nat 0) with 1 in Hn.
    replace n with 0 by lia. cbn [vlq_groups]. f_equal. lia.
  - cbn [vlq_groups]. destruct (Z.eqb_spec n 0) as [->|Hne].
    + exists 0%nat. split; [reflexivity|]. intros. f_equal. lia.
    + rewrite Nat2Z.inj_succ, Z.pow_succ_r in Hn by lia.
      set (g := byte_of_Z (Z.lor 0x80 (Z.land n 0x7F))).
      assert (Hg : byte_val g = 128 + n mod 128) by apply group_byte.
      assert (Hm : 0 <= n mod 128 < 128) by (apply Z.mod_pos_bound; lia).
      assert (Hdiv : Z.shiftr n 7 = n / 128)
        by (rewrite Z.shiftr_div_pow2 by lia; reflexivity).
      destruct (IH (Z.shiftr n 7) (g :: acc)) as (k & Hlen & Hread).
      { rewrite Hdiv. split; [apply Z.div_pos; lia|].
        apply Z.div_lt_upper_bound; lia. }
      exists (S k). split; [rewrite Hlen; cbn [length]; lia|].
      intros rest offset. rewrite Hread.
      change ((g :: acc) ++ rest) with ([g] ++ acc ++ rest).
      rewrite read_vlq_from_continue
        by (repeat constructor; unfold continuation; lia).
      cbn [fold_left length]. rewrite vlq_step_arith, Hg, Hdiv.
      f_equal; [|lia].
      replace ((128 + n mod 128) mod 128) with (n mod 128)
        by (rewrite <- (Z.mod_small (n mod 128) 128) at 1 by lia;
            rewrite <- Z.add_mod_idemp_l, Z.mod_same, Z.add_0_l, Z.mod_mod; lia).
      pose proof (Z.div_mod n 128). lia.
Qed.

Lemma read_encode_vlq (v : Z) (rest : list byte) (offset : nat) :
  0 <= v ->
  read_vlq_from (encode_vlq v ++ rest) 0 offset
  = Ok (v, (offset + length (encode_vlq v))%nat).
Proof.
  intros Hv. unfold encode_vlq.
  assert (Hdiv : Z.shiftr v 7 = v / 128)
    by (rewrite Z.shiftr_div_pow2 by lia; reflexivity).
  destruct (vlq_groups_decode (Z.to_nat (Z.log2 v)) (Z.shiftr v 7)
              [byte_of_Z (Z.land v 0x7F)]) as (k & Hlen & Hread).
  { rewrite Z2Nat.id by apply Z.log2_nonneg. rewrite Hdiv.
    split; [apply Z.div_pos; lia|].
    destruct (Z.eq_dec v 0) as [->|Hne]; [reflexivity|].
    pose proof (Z.log2_spec v ltac:(lia)) as [_ Hup].
    rewrite Z.pow_succ_r in Hup by apply Z.log2_nonneg.
    apply Z.div_lt_upper_bound; lia. }
  rewrite Hread, Hlen. cbn [app length].
  rewrite read_vlq_from_stop
    by (rewrite last_byte; apply Z.mod_pos_bound; lia).
  rewrite vlq_step_arith, last_byte, Hdiv, Z.mod_mod by lia.
  f_equal. f_equal; [|lia].
  pose proof (Z.div_mod v 128). lia.
Qed.

End RoundTrip.

(** C4 (as the code has it): [read_variable_length] accumulates
    [value = (value << 7) | (byte & 0x7F)] over the bytes whose top bit is
    set and the first byte whose top bit is clear, whatever their number:
    there is no maximum width and no [MalformedVarint] error.  After any
    run [cs] of continuation bytes, a byte [b] with a clear top bit ends
    the quantity with the accumulated value and the offset just past [b];
    if the data end first, the index read raises [IndexError]. *)
Theorem read_variable_length_any_width (pre cs rest : list byte) :
  Forall continuation cs ->
  (forall b : byte,
     (byte_val b < 0x80)%Z ->
     read_variable_length (pre ++ cs ++ b :: rest) (length pre)
     = Ok (fold_left vlq_step (cs ++ [b]) 0%Z, length pre + length cs + 1)) /\
  read_variable_length (pre ++ cs) (length pre) = Raise IndexError.
Proof.
  intros Hcs. unfold read_variable_length. split.
  - intros b Hb. rewrite skipn_app_length, read_vlq_from_continue by exact Hcs.
    rewrite read_vlq_from_stop by exact Hb.
    rewrite fold_left_app. cbn [fold_left]. do 2 f_equal. lia.
  - rewrite skipn_app_length.
    rewrite <- (app_nil_r cs), read_vlq_from_continue by exact Hcs.
    reflexivity.
Qed.

(** A five-group quantity is read, by the theorem, to a value of 36 bits. *)
Lemma read_variable_length_any_width_witness :
  read_variable_length [x81; x80; x80; x80; x80; x00] 0
  = Ok (34359738368%Z, 6).
Proof.
  assert (Hcs : Forall continuation [x81; x80; x80; x80; x80])
    by (repeat constructor; unfold continuation; vm_compute; discriminate).
  exact (proj1 (read_variable_length_any_width [] _ [] Hcs) x00 eq_refl).
Defined.

(** C4 as stated fails: an encoding wider than 32 bits is decoded
    without any error, here to [2^35 + 1] from six bytes. *)
Lemma vlq_wider_than_32_bits_succeeds :
  read_variable_length [x81; x80; x80; x80; x80; x01] 0
  = Ok ((2 ^ 35 + 1)%Z, 6) /\
  (2 ^ 32 <= 2 ^ 35 + 1)%Z.
Proof. split; [vm_compute; reflexivity | lia]. Qed.

(** C5: for every [v] with [0 <= v < 2^28], reading the canonical
    encoding of [v], wherever it stands in the data, gives [v] back and
    the offset just past the encoded bytes. *)
Theorem decode_encode_vlq (v : Z) (pre rest : list byte) :
  (0 <= v < 2 ^ 28)%Z ->
  read_variable_length (pre ++ encode_vlq v ++ rest) (length pre)
  = Ok (v, length pre + length (encode_vlq v)).
Proof.
  intros [Hv _]. unfold read_variable_length.
  rewrite skipn_app_length. apply read_encode_vlq. exact Hv.
Qed.

Lemma decode_encode_vlq_witness :
  read_variable_length ([x00; x90] ++ encode_vlq 200 ++ [x3c]) 2
  = Ok (200%Z, 2 + length (encode_vlq 200)).
Proof.
  apply (decode_encode_vlq 200 [x00; x90] [x3c]). lia.
Defined.

(** ** The decoder reads relative to its offset

    Everything the event loop does with [data] at an offset is what it
    does with the bytes from that offset on: bytes before the offset are
    never read.  This lets a track be studied from offset 0. *)

Section PrefixIndependence.
Local Open Scope nat_scope.

Variable pre : list byte.
Local Abbreviation k := (length pre).

Lemma byte_at_shift (l : list byte) (o : nat) :
  byte_at (pre ++ l) (k + o) = byte_at l o.
Proof.
  unfold byte_at. rewrite nth_error_app2 by lia.
  replace (length pre + o - length pre) with o by lia. reflexivity.
Qed.

Lemma skipn_shift (l : list byte) (o : nat) :
  skipn (k + o) (pre ++ l) = skipn o l.
Proof.
  rewrite skipn_app, skipn_all2 by lia.
  replace (length pre + o - length pre) with o by lia. reflexivity.
Qed.

Lemma slice_shift (l : list byte) (a b : nat) :
  slice (pre ++ l) (k + a) (k + b) = slice l a b.
Proof.
  unfold slice. rewrite skipn_shift. f_equal. lia.
Qed.

Lemma read_vlq_from_shift (l : list byte) (value : Z) (j o : nat) :
  read_vlq_from l value (j + o) = shift_offset j (read_vlq_from l value o).
Proof.
  revert value o. induction l as [|b l IH]; intros value o;
    cbn [read_vlq_from]; [reflexivity|].
  destruct (Z.land (byte_val b) 128 =? 0)%Z.
  - cbn. do 2 f_equal. lia.
  - rewrite <- IH. f_equal. lia.
Qed.

Lemma read_variable_length_shift (l : list byte) (o : nat) :
  read_variable_length (pre ++ l) (k + o)
  = shift_offset k (read_variable_length l o).
Proof.
  unfold read_variable_length. rewrite skipn_shift.
  apply read_vlq_from_shift.
Qed.

Lemma channel_voice_shift (l : list byte) (o : nat) (event_type : Z) :
  channel_voice (pre ++ l) (k + o) event_type
  = shift_offset k (channel_voice l o event_type).
Proof.
  unfold channel_voice.
  replace (k + o + 1) with (k + (o + 1)) by lia.
  rewrite !byte_at_shift.
  repeat match goal with
         | |- context [if ?c then _ else _] => destruct c
         end;
    destruct (byte_at l o) as [a| |]; cbn; try reflexivity;
    destruct (byte_at l (o + 1)) as [b| |]; cbn; try reflexivity;
    repeat match goal with
           | |- context [if ?c then _ else _] => destruct c
           end;
    cbn; do 2 f_equal; lia.
Qed.

Lemma meta_event_shift (l : list byte) (o : nat) :
  meta_event (pre ++ l) (k + o) = shift_offset k (meta_event l o).
Proof.
  unfold meta_event. rewrite byte_at_shift.
  destruct (byte_at l o) as [meta_type| |]; cbn [bind]; try reflexivity.
  replace (S (k + o)) with (k + S o) by lia.
  rewrite read_variable_length_shift.
  destruct (read_variable_length l (S o)) as [[len o']| |];
    cbn [bind shift_offset map_result fst snd]; try reflexivity.
  replace (k + o' + Z.to_nat len) with (k + (o' + Z.to_nat len)) by lia.
  rewrite slice_shift.
  destruct (meta_payload meta_type len _); reflexivity.
Qed.

Lemma sysex_event_shift (l : list byte) (o : nat) :
  sysex_event (pre ++ l) (k + o) = shift_offset k (sysex_event l o).
Proof.
  unfold sysex_event. rewrite read_variable_length_shift.
  destruct (read_variable_length l o) as [[len o']| |];
    cbn [bind shift_offset map_result fst snd]; try reflexivity.
  do 2 f_equal. lia.
Qed.

Lemma resolve_status_shift (status : Z) (o : nat) (last_status : Z) :
  resolve_status status (k + o) last_status
  = option_map (fun r => (k + fst (fst r), snd (fst r), snd r))
      (resolve_status status o last_status).
Proof.
  unfold resolve_status.
  destruct (128 <=? status)%Z; cbn; [do 3 f_equal; lia|].
  destruct (last_status =? 0)%Z; reflexivity.
Qed.

Lemma parse_event_shift (l : list byte) (s : track_state) :
  parse_event (pre ++ l) (shift_state k s)
  = map_result (shift_state k) (parse_event l s).
Proof.
  unfold parse_event. cbn [shift_state ts_offset ts_absolute_ticks
    ts_last_status ts_track_events ts_all_events].
  rewrite read_variable_length_shift.
  destruct (read_variable_length l (ts_offset s)) as [[delta_time o]| |];
    cbn [bind shift_offset map_result fst snd]; try reflexivity.
  rewrite byte_at_shift.
  destruct (byte_at l o) as [status| |]; cbn [bind map_result]; try reflexivity.
  rewrite resolve_status_shift.
  destruct (resolve_status status o (ts_last_status s)) as [[[o1 last] st]|];
    cbn [option_map fst snd]; [|reflexivity].
  destruct (st =? 255)%Z.
  - rewrite meta_event_shift.
    destruct (meta_event l o1) as [[b o2]| |]; reflexivity.
  - destruct ((st =? 240)%Z || (st =? 247)%Z).
    + rewrite sysex_event_shift.
      destruct (sysex_event l o1) as [[b o2]| |]; reflexivity.
    + rewrite channel_voice_shift.
      destruct (channel_voice l o1 _) as [[b o2]| |]; reflexivity.
Qed.

Lemma shift_state_broke (j : nat) (s : track_state) :
  ts_broke (shift_state j s) = ts_broke s.
Proof. reflexivity. Qed.

Lemma parse_events_shift (fuel : nat) (l : list byte) (track_end : nat)
  (s : track_state) :
  parse_events fuel (pre ++ l) (k + track_end) (shift_state k s)
  = map_result (shift_state k) (parse_events fuel l track_end s).
Proof.
  revert s. induction fuel as [|fuel IH]; intros s; cbn [parse_events];
    replace (k + track_end <=? ts_offset (shift_state k s))
      with (track_end <=? ts_offset s)
      by (cbn [shift_state ts_offset];
          destruct (Nat.leb_spec track_end (ts_offset s));
          destruct (Nat.leb_spec (k + track_end) (k + ts_offset s));
          trivial; lia);
    destruct (track_end <=? ts_offset s); try reflexivity.
  rewrite parse_event_shift.
  destruct (parse_event l s) as [s'| |]; cbn [bind map_result]; try reflexivity.
  rewrite shift_state_broke. destruct (ts_broke s'); [reflexivity|].
  apply IH.
Qed.

End PrefixIndependence.

(** ** Decoding one well-formed event *)

Section OneEvent.
Local Open Scope Z_scope.

Lemma byte_at_here (p : list byte) (b : byte) (l : list byte) :
  byte_at (p ++ b :: l) (length p) = Ok (byte_val b).
Proof.
  unfold byte_at. rewrite nth_error_app2, Nat.sub_diag by lia. reflexivity.
Qed.

Lemma channel_voice_here (p l : list byte) (event_type : Z) :
  channel_voice (p ++ l) (length p) event_type
  = shift_offset (length p) (channel_voice l 0 event_type).
Proof.
  rewrite <- (channel_voice_shift p l 0). f_equal. lia.
Qed.

Lemma meta_event_here (p l : list byte) :
  meta_event (p ++ l) (length p) = shift_offset (length p) (meta_event l 0).
Proof.
  rewrite <- (meta_event_shift p l 0). f_equal. lia.
Qed.

Lemma sysex_event_here (p l : list byte) :
  sysex_event (p ++ l) (length p) = shift_offset (length p) (sysex_event l 0).
Proof.
  rewrite <- (sysex_event_shift p l 0). f_equal. lia.
Qed.

Lemma event_type_range (status : Z) :
  0x80 <= status < 0xF0 -> 8 <= Z.shiftr status 4 <= 14.
Proof.
  intros Hs. rewrite Z.shiftr_div_pow2 by lia. change (2 ^ 4) with 16.
  split; [apply Z.div_le_lower_bound; lia|].
  apply Z.lt_succ_r. apply Z.div_lt_upper_bound; lia.
Qed.

Lemma event_type_system (status : Z) :
  0xF0 <= status < 256 -> Z.shiftr status 4 = 15.
Proof.
  intros Hs. rewrite Z.shiftr_div_pow2 by lia. change (2 ^ 4) with 16.
  assert (15 <= status / 16) by (apply Z.div_le_lower_bound; lia).
  assert (status / 16 < 16) by (apply Z.div_lt_upper_bound; lia).
  lia.
Qed.

(** The data bytes of a channel voice message decide its body. *)
Lemma channel_voice_args (status : Z) (args rest : list byte) :
  0x80 <= status < 0xF0 ->
  length args = arity status ->
  channel_voice (args ++ rest) 0 (Z.shiftr status 4)
  = Ok (voice_body status args, arity status).
Proof.
  intros Hs. unfold voice_body, arity.
  pose proof (event_type_range status Hs) as Het.
  set (event_type := Z.shiftr status 4) in *.
  assert (Hcases : event_type = 8 \/ event_type = 9 \/ event_type = 10 \/
                   event_type = 11 \/ event_type = 12 \/ event_type = 13 \/
                   event_type = 14) by lia.
  clearbody event_type.
  destruct Hcases as [-> | [-> | [-> | [-> | [-> | [-> | ->]]]]]];
    cbn [Z.eqb Pos.eqb orb]; intros Hlen;
    destruct args as [|a [|b [|c args]]]; try discriminate Hlen;
    unfold channel_voice, byte_at;
    cbn [Z.eqb Pos.eqb app nth_error Nat.add bind];
    try reflexivity;
    destruct (byte_val b =? 0); reflexivity.
Qed.

Lemma meta_payload_total (meta_type : Z) (payload : list byte) :
  exists b,
    meta_payload meta_type (Z.of_nat (length payload)) payload = Ok b.
Proof.
  unfold meta_payload.
  destruct ((meta_type =? 0x51) && (Z.of_nat (length payload) =? 3)) eqn:E.
  - apply andb_true_iff in E as [_ E]. apply Z.eqb_eq in E.
    destruct payload as [|b0 [|b1 [|b2 [|b3 payload]]]];
      cbn [length] in E; try lia.
    eexists. reflexivity.
  - destruct (meta_type =? 0x03); [eexists; reflexivity|].
    destruct (meta_type =? 0x2F); eexists; reflexivity.
Qed.

Lemma slice_here (p payload rest : list byte) :
  slice (p ++ payload ++ rest) (length p) (length p + length payload) = payload.
Proof.
  unfold slice. rewrite skipn_app_length.
  replace (length p + length payload - length p)%nat with (length payload) by lia.
  rewrite firstn_app, Nat.sub_diag, firstn_all. cbn. apply app_nil_r.
Qed.

Lemma meta_event_complete (t : byte) (len payload rest : list byte) :
  is_vlq len = true ->
  vlq_value len = Z.of_nat (length payload) ->
  meta_event (t :: len ++ payload ++ rest) 0
  = Ok (meta_body t len payload, S (length len + length payload)).
Proof.
  intros Hlen Hval. unfold meta_event, meta_body.
  change (byte_at (t :: len ++ payload ++ rest) 0) with (Ok (A := Z) (byte_val t)).
  cbn [bind].
  pose proof (read_variable_length_complete [t] len (payload ++ rest) Hlen) as E.
  cbn [app length Nat.add] in E. rewrite E. cbn [bind].
  rewrite Hval, Nat2Z.id.
  pose proof (slice_here (t :: len) payload rest) as Es.
  cbn [app length] in Es. rewrite Es.
  destruct (meta_payload_total (byte_val t) payload) as [b Eb].
  rewrite Eb. reflexivity.
Qed.

Lemma sysex_event_complete (len payload rest : list byte) :
  is_vlq len = true ->
  vlq_value len = Z.of_nat (length payload) ->
  sysex_event (len ++ payload ++ rest) 0
  = Ok (Sysex, (length len + length payload)%nat).
Proof.
  intros Hlen Hval. unfold sysex_event.
  pose proof (read_variable_length_complete [] len (payload ++ rest) Hlen) as E.
  cbn [app length Nat.add] in E. rewrite E. cbn [bind].
  rewrite Hval, Nat2Z.id. reflexivity.
Qed.

End OneEvent.

(** ** Decoding a well-formed stream *)

Section DecodeStream.
Local Open Scope Z_scope.

Lemma read_delta (d tail : list byte) :
  is_vlq d = true ->
  read_variable_length (d ++ tail) 0 = Ok (vlq_value d, length d).
Proof.
  intros Hd. exact (read_variable_length_complete [] d tail Hd).
Qed.

Lemma resolve_status_byte (status : Z) (offset : nat) (last : Z) :
  0x80 <= status ->
  resolve_status status offset last
  = Some (S offset, (if status <? 0xF0 then status else last), status).
Proof.
  intros Hs. unfold resolve_status.
  destruct (Z.leb_spec 0x80 status); [reflexivity|lia].
Qed.

Lemma resolve_status_running (status : Z) (offset : nat) (last : Z) :
  status < 0x80 -> last <> 0 ->
  resolve_status status offset last = Some (offset, last, last).
Proof.
  intros Hs Hl. unfold resolve_status.
  destruct (Z.leb_spec 0x80 status); [lia|].
  destruct (Z.eqb_spec last 0); [contradiction|reflexivity].
Qed.

(** One iteration of the loop on a well-formed event that starts at
    offset 0, whether or not its status byte is written. *)
Lemma parse_event_item (running : bool) (it : item) (last : Z)
  (rest : list byte) (ticks : Z) (evs all : list event) :
  wf_item last it = true ->
  parse_event (item_bytes running it ++ rest) (mk_state 0 ticks last evs all false)
  = Ok (mk_state (length (item_bytes running it))
          (ticks + vlq_value (item_delta it))
          (next_status last it)
          (evs ++ [item_event ticks it])
          (if is_set_tempo (item_event ticks it)
           then all ++ [item_event ticks it] else all)
          false).
Proof.
  destruct it as [d s omit args | d t len payload | d s len payload | d s];
    cbn [wf_item item_bytes item_delta next_status]; intros Hwf;
    repeat (apply andb_true_iff in Hwf as [Hwf ?]);
    unfold parse_event; cbn [ts_offset ts_absolute_ticks ts_last_status
                               ts_track_events ts_all_events];
    rewrite <- !app_assoc; rewrite read_delta by assumption; cbn [bind].
  - (* channel voice message *)
    assert (Hs : 0x80 <= byte_val s < 0xF0) by lia.
    assert (Hlen : length args = arity (byte_val s))
      by (apply Nat.eqb_eq; assumption).
    destruct (running && omit) eqn:Eomit.
    + (* status byte left out: the first data byte is read as status *)
      apply andb_true_iff in Eomit as [_ ->].
      match goal with H : (_ && _) = true |- _ =>
        apply andb_true_iff in H as [Hlast Ha] end.
      apply Z.eqb_eq in Hlast.
      destruct args as [|a args]; [discriminate|].
      apply Z.ltb_lt in Ha.
      cbn [app]. rewrite byte_at_here. cbn [bind].
      rewrite resolve_status_running by lia. rewrite <- Hlast.
      destruct (Z.eqb_spec (byte_val s) 255); [lia|].
      destruct (Z.eqb_spec (byte_val s) 240); [lia|].
      destruct (Z.eqb_spec (byte_val s) 247); [lia|]. cbn [orb].
      rewrite channel_voice_here.
      change (a :: args ++ rest) with ((a :: args) ++ rest).
      rewrite channel_voice_args by assumption.
      cbn [shift_offset map_result fst snd bind]. unfold item_event.
      cbn [item_delta]. rewrite length_app, <- Hlen. reflexivity.
    + (* status byte written *)
      cbn [app]. rewrite byte_at_here. cbn [bind].
      rewrite resolve_status_byte by lia.
      destruct (Z.ltb_spec (byte_val s) 240); [|lia].
      destruct (Z.eqb_spec (byte_val s) 255); [lia|].
      destruct (Z.eqb_spec (byte_val s) 240); [lia|].
      destruct (Z.eqb_spec (byte_val s) 247); [lia|]. cbn [orb].
      replace (d ++ s :: args ++ rest) with ((d ++ [s]) ++ args ++ rest)
        by (rewrite <- app_assoc; reflexivity).
      replace (S (length d)) with (length (d ++ [s]))
        by (rewrite length_app; cbn [length]; lia).
      rewrite channel_voice_here, channel_voice_args by assumption.
      cbn [shift_offset map_result fst snd bind]. unfold item_event.
      cbn [item_delta]. rewrite !length_app, <- Hlen. cbn [length].
      do 2 f_equal. lia.
  - (* meta event *)
    match goal with H : (_ =? _) = true |- _ => apply Z.eqb_eq in H; rename H into Hval end.
    cbn [app]. rewrite byte_at_here. cbn [bind].
    rewrite resolve_status_byte by (vm_compute; discriminate).
    change (byte_val xff) with 255. cbn [Z.ltb Z.compare Pos.compare Pos.compare_cont Z.eqb Pos.eqb].
    replace (d ++ xff :: t :: len ++ payload ++ rest)
      with ((d ++ [xff]) ++ t :: len ++ payload ++ rest)
      by (rewrite <- app_assoc; reflexivity).
    replace (S (length d)) with (length (d ++ [xff]))
      by (rewrite length_app; cbn [length]; lia).
    rewrite meta_event_here, meta_event_complete by assumption.
    cbn [shift_offset map_result fst snd bind]. unfold item_event.
    cbn [item_delta]. rewrite !length_app. cbn [length].
    change (Z.land 255 15) with 15.
    do 2 f_equal. rewrite length_app. lia.
  - (* system exclusive *)
    match goal with H : (_ =? _) = true |- _ => apply Z.eqb_eq in H; rename H into Hval end.
    match goal with H : (_ || _) = true |- _ => rename H into Hs end.
    cbn [app]. rewrite byte_at_here. cbn [bind].
    assert (Hs' : byte_val s = 240 \/ byte_val s = 247)
      by (apply orb_true_iff in Hs as [Hs|Hs]; apply Z.eqb_eq in Hs; lia).
    rewrite resolve_status_byte by lia.
    destruct (Z.ltb_spec (byte_val s) 240); [lia|].
    destruct (Z.eqb_spec (byte_val s) 255); [lia|].
    rewrite Hs.
    replace (d ++ s :: len ++ payload ++ rest)
      with ((d ++ [s]) ++ len ++ payload ++ rest)
      by (rewrite <- app_assoc; reflexivity).
    replace (S (length d)) with (length (d ++ [s]))
      by (rewrite length_app; cbn [length]; lia).
    rewrite sysex_event_here, sysex_event_complete by assumption.
    cbn [shift_offset map_result fst snd bind]. unfold item_event.
    cbn [item_delta]. rewrite !length_app. cbn [length].
    do 2 f_equal. rewrite length_app. lia.
  - (* other system status: no byte consumed after it *)
    match goal with H : negb _ = true |- _ =>
      apply negb_true_iff in H; rename H into Hs end.
    match goal with H : (_ <=? _) = true |- _ => apply Z.leb_le in H end.
    pose proof (byte_val_range s) as Hr.
    cbn [app]. rewrite byte_at_here. cbn [bind].
    rewrite resolve_status_byte by lia.
    destruct (Z.ltb_spec (byte_val s) 240); [lia|].
    apply orb_false_iff in Hs as [Hs H255].
    rewrite H255, Hs.
    rewrite event_type_system by lia.
    unfold channel_voice. cbn [Z.eqb Pos.eqb bind]. unfold item_event.
    cbn [item_delta]. rewrite !length_app. cbn [length].
    do 2 f_equal. lia.
Qed.

End DecodeStream.

Section WholeStream.
Local Open Scope Z_scope.

Lemma is_vlq_nonempty (d : list byte) : is_vlq d = true -> (1 <= length d)%nat.
Proof. destruct d; [discriminate|cbn; lia]. Qed.

Lemma item_bytes_nonempty (running : bool) (last : Z) (it : item) :
  wf_item last it = true -> (1 <= length (item_bytes running it))%nat.
Proof.
  destruct it; cbn [wf_item item_bytes]; intros Hwf;
    repeat (apply andb_true_iff in Hwf as [Hwf ?]);
    rewrite length_app;
    repeat match goal with H : is_vlq ?d = true |- _ =>
      apply is_vlq_nonempty in H end; lia.
Qed.

Lemma item_event_ticks (ticks : Z) (it : item) :
  absoluteTicks (item_event ticks it) = ticks + vlq_value (item_delta it).
Proof. destruct it; reflexivity. Qed.

Lemma shift_state_zero (j : nat) (ticks last : Z) (evs all : list event) (b : bool) :
  mk_state j ticks last evs all b = shift_state j (mk_state 0 ticks last evs all b).
Proof. unfold shift_state. cbn. f_equal. lia. Qed.

(** The event loop on a well-formed stream that starts at offset 0 and
    ends at the declared end: every event is decoded, none is lost, and
    the loop ends at the end of the stream. *)
Lemma decode_stream (running : bool) (items : list item) :
  forall (last : Z) (post : list byte) (ticks : Z) (evs all : list event)
         (fuel : nat),
    wf_items last items = true ->
    (length (stream_bytes running items) <= fuel)%nat ->
    parse_events fuel (stream_bytes running items ++ post)
      (length (stream_bytes running items))
      (mk_state 0 ticks last evs all false)
    = Ok (mk_state (length (stream_bytes running items))
            (ticks_after ticks items)
            (last_voice_status last items)
            (evs ++ events_of ticks items)
            (all ++ filter is_set_tempo (events_of ticks items))
            false).
Proof.
  induction items as [|it items IH]; intros last post ticks evs all fuel Hwf Hfuel.
  - cbn. rewrite !app_nil_r. destruct fuel; reflexivity.
  - cbn [wf_items] in Hwf. apply andb_true_iff in Hwf as [Hit Hrest].
    pose proof (item_bytes_nonempty running last it Hit) as Hne.
    unfold stream_bytes in *. cbn [flat_map] in *.
    rewrite length_app in *.
    destruct fuel as [|fuel]; [lia|].
    cbn [parse_events ts_offset].
    destruct (Nat.leb_spec (length (item_bytes running it) +
                            length (flat_map (item_bytes running) items)) 0);
      [lia|].
    rewrite <- app_assoc, parse_event_item by exact Hit.
    cbn [bind ts_broke].
    rewrite shift_state_zero, parse_events_shift.
    rewrite IH by (trivial; lia).
    cbn [map_result shift_state ts_offset ts_absolute_ticks ts_last_status
         ts_track_events ts_all_events ts_broke].
    cbn [ticks_after last_voice_status fold_left events_of filter].
    rewrite item_event_ticks, <- app_assoc. cbn [app].
    f_equal. f_equal.
    destruct (is_set_tempo (item_event ticks it));
      [rewrite <- app_assoc|]; reflexivity.
Qed.

(** The same, for a stream that stands anywhere in the data. *)
Lemma decode_stream_at (running : bool) (items : list item) (last : Z)
  (pre post : list byte) (ticks : Z) (evs all : list event) :
  wf_items last items = true ->
  parse_events (length (stream_bytes running items))
    (pre ++ stream_bytes running items ++ post)
    (length pre + length (stream_bytes running items))
    (mk_state (length pre) ticks last evs all false)
  = Ok (mk_state (length pre + length (stream_bytes running items))
          (ticks_after ticks items)
          (last_voice_status last items)
          (evs ++ events_of ticks items)
          (all ++ filter is_set_tempo (events_of ticks items))
          false).
Proof.
  intros Hwf.
  rewrite shift_state_zero, parse_events_shift.
  rewrite decode_stream by (trivial; lia).
  reflexivity.
Qed.

Lemma wf_items_app (last : Z) (xs ys : list item) :
  wf_items last (xs ++ ys)
  = wf_items last xs && wf_items (last_voice_status last xs) ys.
Proof.
  revert last. induction xs as [|x xs IH]; intros last; cbn; [reflexivity|].
  rewrite IH, andb_assoc. reflexivity.
Qed.

Lemma events_of_app (ticks : Z) (xs ys : list item) :
  events_of ticks (xs ++ ys)
  = events_of ticks xs ++ events_of (ticks_after ticks xs) ys.
Proof.
  revert ticks. induction xs as [|x xs IH]; intros ticks; cbn [app events_of];
    [reflexivity|].
  rewrite IH, item_event_ticks. reflexivity.
Qed.

Lemma last_voice_status_system (last : Z) (xs : list item) :
  forallb is_system xs = true -> last_voice_status last xs = last.
Proof.
  induction xs as [|x xs IH]; cbn; [reflexivity|].
  intros H. apply andb_true_iff in H as [Hx Hxs].
  destruct x; try discriminate; apply IH; exact Hxs.
Qed.

Lemma voice_body_not_tempo (ticks ch status : Z) (args : list byte) :
  is_set_tempo (mk_event ticks ch (voice_body status args)) = false.
Proof.
  unfold is_set_tempo, voice_body, channel_voice. cbn [body Nat.add].
  repeat match goal with
         | |- context [if ?c then _ else _] => destruct c
         end;
    destruct (byte_at args 0) as [a| |]; cbn; try reflexivity;
    destruct (byte_at args 1) as [b| |]; cbn; try reflexivity;
    repeat match goal with
           | |- context [if ?c then _ else _] => destruct c
           end; reflexivity.
Qed.

End WholeStream.

Section OneTrackFile.
Local Open Scope Z_scope.

Lemma byte_val_of_Z_mod (z : Z) : byte_val (byte_of_Z z) = z mod 256.
Proof.
  assert (Hm : 0 <= z mod 256 < 256) by (apply Z.mod_pos_bound; lia).
  rewrite <- (byte_val_of_Z (z mod 256)) by exact Hm.
  unfold byte_of_Z. rewrite Z.mod_mod by lia. reflexivity.
Qed.

Lemma be_uint_be32 (n : Z) : 0 <= n < 2 ^ 32 -> be_uint (be32 n) = n.
Proof.
  intros Hn. unfold be_uint, be32. cbn [fold_left].
  rewrite !byte_val_of_Z_mod.
  change (2 ^ 24) with (256 * (256 * 256)). change (2 ^ 16) with (256 * 256).
  change (2 ^ 8) with 256. change (2 ^ 32) with (256 * (256 * (256 * 256))) in Hn.
  rewrite <- !Z.div_div by lia.
  set (q1 := n / 256). set (q2 := q1 / 256). set (q3 := q2 / 256).
  pose proof (Z.div_mod n 256 ltac:(lia)) as E0.
  pose proof (Z.div_mod q1 256 ltac:(lia)) as E1.
  pose proof (Z.div_mod q2 256 ltac:(lia)) as E2.
  pose proof (Z.mod_pos_bound n 256 ltac:(lia)).
  pose proof (Z.mod_pos_bound q1 256 ltac:(lia)).
  pose proof (Z.mod_pos_bound q2 256 ltac:(lia)).
  fold q1 in E0. fold q2 in E1. fold q3 in E2.
  assert (Hq3 : 0 <= q3 < 256) by lia.
  rewrite (Z.mod_small q3 256) by exact Hq3. lia.
Qed.

Lemma running_not_longer (items : list item) :
  (length (stream_bytes true items) <= length (stream_bytes false items))%nat.
Proof.
  unfold stream_bytes.
  induction items as [|it items IH]; cbn [flat_map]; [lia|].
  rewrite !length_app.
  assert (length (item_bytes true it) <= length (item_bytes false it))%nat;
    [|lia].
  destruct it as [d s [|] args| | |]; cbn [item_bytes andb];
    rewrite ?length_app; cbn [length]; lia.
Qed.

(** The loop over the tracks on the file of one well-formed track. *)
Lemma parse_tracks_track_file {F : Type} `{PyFloat F} (running : bool)
  (items : list item) :
  wf_items 0 items = true ->
  Z.of_nat (length (stream_bytes running items)) < 2 ^ 32 ->
  parse_tracks (F := F) 1 (track_file (stream_bytes running items)) 14 [] [] []
  = Ok ([events_of 0 items], filter is_set_tempo (events_of 0 items), []).
Proof.
  intros Hwf Hlen. set (track := stream_bytes running items) in *.
  unfold track_file. cbn [parse_tracks].
  replace (slice ((midi_header x01 ++ MTrk ++ be32 (Z.of_nat (length track)))
                  ++ track) 14 (14 + 4)) with MTrk by reflexivity.
  replace (negb (bytes_eqb MTrk MTrk)) with false by reflexivity.
  replace (slice ((midi_header x01 ++ MTrk ++ be32 (Z.of_nat (length track)))
                  ++ track) (14 + 4) (14 + 4 + 4))
    with (be32 (Z.of_nat (length track))) by reflexivity.
  unfold unpack_I. cbn [length Nat.eqb be32].
  fold (be32 (Z.of_nat (length track))).
  rewrite be_uint_be32 by lia. cbn [bind]. rewrite Nat2Z.id.
  replace (14 + 4 + 4 + length track - (14 + 4 + 4))%nat
    with (length track) by lia.
  pose proof (decode_stream_at running items 0
                (midi_header x01 ++ MTrk ++ be32 (Z.of_nat (length track)))
                [] 0 [] [] Hwf) as E.
  fold track in E. rewrite app_nil_r in E.
  change (length (midi_header x01 ++ MTrk ++ be32 (Z.of_nat (length track))))
    with (14 + 4 + 4)%nat in E.
  rewrite E. cbn [bind ts_offset ts_track_events ts_all_events ts_broke app].
  reflexivity.
Qed.

(** [parse_midi] sees the track only through the loop over the tracks. *)
Lemma parse_midi_track_file {F : Type} `{PyFloat F} (track track' : list byte) :
  parse_tracks (F := F) 1 (track_file track) 14 [] [] []
  = parse_tracks (F := F) 1 (track_file track') 14 [] [] [] ->
  parse_midi (F := F) (track_file track) = parse_midi (F := F) (track_file track').
Proof.
  intros E. unfold parse_midi.
  replace (slice (track_file track) 0 4) with MThd by reflexivity.
  replace (slice (track_file track') 0 4) with MThd by reflexivity.
  replace (negb (bytes_eqb MThd MThd)) with false by reflexivity.
  replace (unpack_I (slice (track_file track) 4 8)) with (Ok (A := Z) 6)
    by reflexivity.
  replace (unpack_I (slice (track_file track') 4 8)) with (Ok (A := Z) 6)
    by reflexivity.
  cbn [bind].
  replace (unpack_HHH (slice (track_file track) 8 (8 + Z.to_nat 6)))
    with (Ok (A := Z * Z * Z) (1, 1, 480)) by reflexivity.
  replace (unpack_HHH (slice (track_file track') 8 (8 + Z.to_nat 6)))
    with (Ok (A := Z * Z * Z) (1, 1, 480)) by reflexivity.
  cbn [bind].
  change (Z.to_nat 1) with 1%nat. change (8 + Z.to_nat 6)%nat with 14%nat.
  rewrite E. reflexivity.
Qed.

End OneTrackFile.

(** C6: a well-formed track stream written with running status (every
    status byte that repeats the last channel status may be left out,
    event by event) decodes to exactly the events of the same stream
    written with every status byte.  Wherever the two streams stand in
    their data, both event loops end normally at the end of their stream
    with the same list of events, the same tempo events, the same tick
    count and the same last status; and the two files of one track that
    hold them give the same result of [parse_midi], whatever the float
    arithmetic. *)
Theorem running_status_equivalence (items : list item)
  (pre post pre' post' : list byte) (all_events : list event) :
  wf_items 0 items = true ->
  (exists s s' : track_state,
    parse_events (length (stream_bytes false items))
      (pre ++ stream_bytes false items ++ post)
      (length pre + length (stream_bytes false items))
      (mk_state (length pre) 0 0 [] all_events false) = Ok s /\
    parse_events (length (stream_bytes true items))
      (pre' ++ stream_bytes true items ++ post')
      (length pre' + length (stream_bytes true items))
      (mk_state (length pre') 0 0 [] all_events false) = Ok s' /\
    ts_track_events s' = ts_track_events s /\
    ts_all_events s' = ts_all_events s /\
    ts_absolute_ticks s' = ts_absolute_ticks s /\
    ts_last_status s' = ts_last_status s /\
    ts_broke s = false /\ ts_broke s' = false /\
    ts_offset s = (length pre + length (stream_bytes false items))%nat /\
    ts_offset s' = (length pre' + length (stream_bytes true items))%nat) /\
  ((Z.of_nat (length (stream_bytes false items)) < 2 ^ 32)%Z ->
   forall (F : Type) (HF : PyFloat F),
     parse_midi (F := F) (track_file (stream_bytes true items))
     = parse_midi (F := F) (track_file (stream_bytes false items))).
Proof.
  intros Hwf. split.
  - eexists. eexists.
    split; [apply decode_stream_at; exact Hwf|].
    split; [apply decode_stream_at; exact Hwf|].
    cbn. repeat split; reflexivity.
  - intros Hlen F HF. apply parse_midi_track_file.
    pose proof (running_not_longer items) as Hle.
    rewrite !parse_tracks_track_file by (trivial; lia). reflexivity.
Qed.

(** A note on, a text meta event, and the note off sent as a note on of
    velocity 0 under running status. *)
Lemma running_status_equivalence_witness :
  (exists s s' : track_state,
    parse_events 13
      ([] ++ [x00; x90; x3c; x40; x00; xff; x01; x01; x41; x60; x90; x3c; x00] ++ [])
      (0 + 13) (mk_state 0 0 0 [] [] false) = Ok s /\
    parse_events 12
      ([] ++ [x00; x90; x3c; x40; x00; xff; x01; x01; x41; x60; x3c; x00] ++ [])
      (0 + 12) (mk_state 0 0 0 [] [] false) = Ok s' /\
    ts_track_events s' = ts_track_events s) /\
  parse_midi (F := float)
    (track_file [x00; x90; x3c; x40; x00; xff; x01; x01; x41; x60; x3c; x00])
  = parse_midi (F := float)
      (track_file [x00; x90; x3c; x40; x00; xff; x01; x01; x41; x60; x90; x3c; x00]).
Proof.
  destruct (running_status_equivalence
              [Voice [x00] x90 false [x3c; x40];
               MetaItem [x00] x01 [x01] [x41];
               Voice [x60] x90 true [x3c; x00]] [] [] [] [] [] eq_refl)
    as ((s & s' & E & E' & Hev & _) & Hfile).
  split.
  - exists s, s'. repeat split; trivial.
  - apply (Hfile eq_refl float float_PyFloat).
Defined.

(** C10: status bytes 0xF0..0xFF leave the stored last status as it is.
    After a channel status [s] (0x80..0xEF), however many meta, system
    exclusive and other system events [others] follow, an event whose
    first byte after the delta time has its top bit clear is decoded as a
    channel voice message of status [s]; the events in between are all
    decoded, and the stored status is still [s] afterwards. *)
Theorem running_status_survives_meta_and_sysex (others : list item)
  (d : list byte) (s : byte) (args : list byte) (pre post : list byte)
  (ticks : Z) (evs all : list event) :
  forallb is_system others = true ->
  wf_items (byte_val s) others = true ->
  wf_item (byte_val s) (Voice d s true args) = true ->
  parse_events (length (stream_bytes true (others ++ [Voice d s true args])))
    (pre ++ stream_bytes true (others ++ [Voice d s true args]) ++ post)
    (length pre + length (stream_bytes true (others ++ [Voice d s true args])))
    (mk_state (length pre) ticks (byte_val s) evs all false)
  = Ok (mk_state
          (length pre + length (stream_bytes true (others ++ [Voice d s true args])))
          (ticks_after ticks others + vlq_value d)
          (byte_val s)
          (evs ++ events_of ticks others ++
             [mk_event (ticks_after ticks others + vlq_value d)
                (Z.land (byte_val s) 0x0F) (voice_body (byte_val s) args)])
          (all ++ filter is_set_tempo (events_of ticks others))
          false).
Proof.
  intros Hsys Hothers Hvoice.
  pose proof (last_voice_status_system (byte_val s) others Hsys) as Hlast.
  rewrite decode_stream_at.
  - unfold ticks_after, last_voice_status.
    rewrite !fold_left_app. cbn [fold_left next_status item_delta].
    rewrite events_of_app, filter_app. cbn [events_of filter item_event item_delta].
    rewrite voice_body_not_tempo, app_nil_r. reflexivity.
  - rewrite wf_items_app, Hothers, Hlast. cbn [wf_items andb].
    rewrite Hvoice. reflexivity.
Qed.

(** Note on with its status byte, then a tempo meta event and a system
    exclusive event, then two data bytes: they are a note on channel 0. *)
Lemma running_status_survives_meta_and_sysex_witness :
  parse_events 14
    ([x00; x90; x3c; x40] ++
     [x00; xff; x51; x03; x07; xa1; x20;  x00; xf0; x01; xf7;  x10; x3e; x40]
     ++ [])
    (4 + 14)
    (mk_state 4 0 0x90 [mk_event 0 0 (NoteOn 60 64)] [] false)
  = Ok (mk_state 18 16 0x90
          [mk_event 0 0 (NoteOn 60 64);
           mk_event 0 15 (Meta 0x51 (SetTempo 500000));
           mk_event 0 0 Sysex;
           mk_event 16 0 (NoteOn 62 64)]
          [mk_event 0 15 (Meta 0x51 (SetTempo 500000))]
          false).
Proof.
  exact (running_status_survives_meta_and_sysex
           [MetaItem [x00] x51 [x03] [x07; xa1; x20];
            SysexItem [x00] xf0 [x01] [xf7]]
           [x10] x90 [x3e; x40] [x00; x90; x3c; x40] [] 0
           [mk_event 0 0 (NoteOn 60 64)] [] eq_refl eq_refl eq_refl).
Defined.

(** ** Outcomes of the event loop on arbitrary data *)

Section Outcomes.
Local Open Scope nat_scope.

Lemma byte_at_outcome (data : list byte) (o : nat) :
  (byte_at data o = Raise IndexError /\ length data <= o) \/
  (exists v, byte_at data o = Ok v /\ o < length data).
Proof.
  unfold byte_at. destruct (nth_error data o) as [b|] eqn:E.
  - right. exists (byte_val b). split; [reflexivity|].
    apply nth_error_Some. rewrite E. discriminate.
  - left. split; [reflexivity|]. apply nth_error_None. exact E.
Qed.

Lemma read_variable_length_outcome (data : list byte) (o : nat) :
  read_variable_length data o = Raise IndexError \/
  exists v o', read_variable_length data o = Ok (v, o')
               /\ o < o' <= length data.
Proof.
  unfold read_variable_length.
  destruct (read_vlq_from_outcome (skipn o data) 0 o) as [E|(v & j & E & Hj)].
  - left. exact E.
  - right. exists v, (o + S j). split; [exact E|].
    rewrite length_skipn in Hj. lia.
Qed.

Lemma channel_voice_outcome (data : list byte) (o : nat) (event_type : Z) :
  channel_voice data o event_type = Raise IndexError \/
  exists b o', channel_voice data o event_type = Ok (b, o')
               /\ not_skipping b /\ o <= o' /\ (o <= length data -> o' <= length data).
Proof.
  unfold channel_voice.
  destruct (byte_at_outcome data o) as [[E0 H0]|(a & E0 & H0)]; rewrite E0;
    destruct (byte_at_outcome data (o + 1)) as [[E1 H1]|(b & E1 & H1)]; rewrite E1;
    cbn [bind];
    repeat match goal with
           | |- context [if ?c then _ else _] => destruct c
           end;
    first [ left; reflexivity
          | right; eexists; eexists; split; [reflexivity|];
            cbn [not_skipping]; repeat split; trivial; lia ].
Qed.

Lemma meta_payload_outcome (meta_type len : Z) (meta_data : list byte) :
  meta_payload meta_type len meta_data = Raise IndexError \/
  exists sub, meta_payload meta_type len meta_data = Ok (Meta meta_type sub).
Proof.
  unfold meta_payload.
  destruct ((meta_type =? 81)%Z && (len =? 3)%Z).
  - destruct (byte_at_outcome meta_data 0) as [[E0 _]|(b0 & E0 & _)]; rewrite E0;
      [left; reflexivity|].
    destruct (byte_at_outcome meta_data 1) as [[E1 _]|(b1 & E1 & _)]; rewrite E1;
      [left; reflexivity|].
    destruct (byte_at_outcome meta_data 2) as [[E2 _]|(b2 & E2 & _)]; rewrite E2;
      [left; reflexivity|].
    right. eexists. reflexivity.
  - destruct (meta_type =? 3)%Z; [right; eexists; reflexivity|].
    destruct (meta_type =? 47)%Z; right; eexists; reflexivity.
Qed.

Lemma meta_event_outcome (data : list byte) (o : nat) :
  meta_event data o = Raise IndexError \/
  exists t sub o', meta_event data o = Ok (Meta t sub, o') /\ o < o'.
Proof.
  unfold meta_event.
  destruct (byte_at_outcome data o) as [[E0 _]|(t & E0 & _)]; rewrite E0;
    [left; reflexivity|]. cbn [bind].
  destruct (read_variable_length_outcome data (S o)) as [E|(len & o1 & E & Ho)];
    rewrite E; [left; reflexivity|]. cbn [bind].
  destruct (meta_payload_outcome t len
              (slice data o1 (o1 + Z.to_nat len))) as [Ep|(sub & Ep)];
    rewrite Ep; [left; reflexivity|].
  right. exists t, sub, (o1 + Z.to_nat len). split; [reflexivity|lia].
Qed.

Lemma sysex_event_outcome (data : list byte) (o : nat) :
  sysex_event data o = Raise IndexError \/
  exists o', sysex_event data o = Ok (Sysex, o') /\ o < o'.
Proof.
  unfold sysex_event.
  destruct (read_variable_length_outcome data o) as [E|(len & o1 & E & Ho)];
    rewrite E; [left; reflexivity|].
  right. exists (o1 + Z.to_nat len). split; [reflexivity|lia].
Qed.

(** What one iteration can do: raise [IndexError]; leave the loop at the
    running-status error, with the events as they were; or append one
    event and move on.  It always moves the offset forward; it moves it
    past the end of the data only by the length field of a meta or
    system exclusive event. *)
Lemma parse_event_outcome (data : list byte) (s : track_state) :
  parse_event data s = Raise IndexError \/
  exists s', parse_event data s = Ok s' /\
    ts_offset s < ts_offset s' /\
    ((ts_broke s' = true /\ ts_track_events s' = ts_track_events s /\
      ts_last_status s = 0%Z /\ ts_offset s' < length data) \/
     (ts_broke s' = false /\
      exists e, ts_track_events s' = ts_track_events s ++ [e] /\
        (ts_offset s' <= length data \/ is_meta_or_sysex e = true))).
Proof.
  unfold parse_event.
  destruct (read_variable_length_outcome data (ts_offset s))
    as [E|(delta & o & E & Ho)]; rewrite E; [left; reflexivity|].
  cbn [bind].
  destruct (byte_at_outcome data o) as [[Eb _]|(status & Eb & Hb)]; rewrite Eb;
    [left; reflexivity|]. cbn [bind].
  unfold resolve_status.
  destruct (128 <=? status)%Z.
  - (* a status byte is consumed *)
    destruct (status =? 255)%Z.
    + destruct (meta_event_outcome data (S o)) as [Em|(t & sub & o' & Em & Ho')];
        rewrite Em; [left; reflexivity|].
      right. eexists. split; [reflexivity|]. cbn. split; [lia|].
      right. split; [reflexivity|]. eexists. split; [reflexivity|].
      right. reflexivity.
    + destruct ((status =? 240)%Z || (status =? 247)%Z).
      * destruct (sysex_event_outcome data (S o)) as [Em|(o' & Em & Ho')];
          rewrite Em; [left; reflexivity|].
        right. eexists. split; [reflexivity|]. cbn. split; [lia|].
        right. split; [reflexivity|]. eexists. split; [reflexivity|].
        right. reflexivity.
      * destruct (channel_voice_outcome data (S o) (Z.shiftr status 4))
          as [Em|(b & o' & Em & Hb' & Ho' & Hlen)];
          rewrite Em; [left; reflexivity|].
        right. eexists. split; [reflexivity|]. cbn. split; [lia|].
        right. split; [reflexivity|]. eexists. split; [reflexivity|].
        left. apply Hlen. lia.
  - destruct (Z.eqb_spec (ts_last_status s) 0) as [Hz|Hnz].
    + (* running status with no status stored: break *)
      right. eexists. split; [reflexivity|]. cbn. split; [lia|].
      left. repeat split; trivial.
    + destruct (ts_last_status s =? 255)%Z.
      * destruct (meta_event_outcome data o) as [Em|(t & sub & o' & Em & Ho')];
          rewrite Em; [left; reflexivity|].
        right. eexists. split; [reflexivity|]. cbn. split; [lia|].
        right. split; [reflexivity|]. eexists. split; [reflexivity|].
        right. reflexivity.
      * destruct ((ts_last_status s =? 240)%Z || (ts_last_status s =? 247)%Z).
        -- destruct (sysex_event_outcome data o) as [Em|(o' & Em & Ho')];
             rewrite Em; [left; reflexivity|].
           right. eexists. split; [reflexivity|]. cbn. split; [lia|].
           right. split; [reflexivity|]. eexists. split; [reflexivity|].
           right. reflexivity.
        -- destruct (channel_voice_outcome data o (Z.shiftr (ts_last_status s) 4))
             as [Em|(b & o' & Em & Hb' & Ho' & Hlen)];
             rewrite Em; [left; reflexivity|].
           right. eexists. split; [reflexivity|]. cbn. split; [lia|].
           right. split; [reflexivity|]. eexists. split; [reflexivity|].
           left. apply Hlen. lia.
Qed.

(** The iteration bound of the decoder is never exhausted. *)
Lemma parse_events_fuel (fuel : nat) (data : list byte) (track_end : nat) :
  forall s : track_state,
    track_end - ts_offset s <= fuel ->
    parse_events fuel data track_end s <> OutOfFuel.
Proof.
  induction fuel as [|fuel IH]; intros s Hfuel; cbn [parse_events];
    destruct (Nat.leb_spec track_end (ts_offset s)); try discriminate; try lia.
  destruct (parse_event_outcome data s) as [E|(s' & E & Hprog & _)]; rewrite E;
    cbn [bind]; [discriminate|].
  destruct (ts_broke s'); [discriminate|].
  apply IH. lia.
Qed.

End Outcomes.

(** ** The decoder always returns or raises

    The iteration bound is an artefact of the embedding: with the bound
    that [parse_tracks] gives to the event loop, no run of [parse_midi]
    or [main] ends by exhausting it. *)

Section Totality.
Context {F : Type} `{PyFloat F}.

Lemma parse_tracks_total (num_tracks : nat) :
  forall (data : list byte) (offset : nat) (tracks : list (list event))
         (all_events : list event) (out : list (message F)),
    parse_tracks num_tracks data offset tracks all_events out <> OutOfFuel.
Proof.
  induction num_tracks as [|n IH]; intros data offset tracks all_events out;
    cbn [parse_tracks]; [discriminate|].
  destruct (negb (bytes_eqb (slice data offset (offset + 4)) MTrk));
    [discriminate|].
  unfold unpack_I. destruct (length _ =? 4)%nat; cbn [bind]; [|discriminate].
  match goal with
  | |- bind (parse_events ?fuel ?d ?te ?s) _ <> _ =>
      pose proof (parse_events_fuel fuel d te s) as Hfuel;
      destruct (parse_events fuel d te s) as [s'| |]; cbn [bind]
  end.
  - apply IH.
  - discriminate.
  - exfalso. apply Hfuel; [cbn [ts_offset]; lia|reflexivity].
Qed.

Lemma span_seconds_total (delta tempo tpq : Z) :
  span_seconds (F := F) delta tempo tpq <> OutOfFuel.
Proof.
  unfold span_seconds, py_float, py_div.
  repeat match goal with
         | |- context [if ?c then _ else _] => destruct c; cbn [bind]
         end; discriminate.
Qed.

Lemma tempo_loop_total (tempo_events : list tempo_event) (ticks tpq : Z) :
  forall (current_time : F) (current_tick current_tempo : Z),
    tempo_loop tempo_events ticks tpq current_time current_tick current_tempo
    <> OutOfFuel.
Proof.
  induction tempo_events as [|te rest IH]; intros ct tick tempo;
    cbn [tempo_loop]; [discriminate|].
  destruct (ticks <? te_absoluteTicks te)%Z; [discriminate|].
  pose proof (span_seconds_total (te_absoluteTicks te - tick) tempo tpq) as Hs.
  destruct (span_seconds _ _ _) as [d| |]; cbn [bind];
    [apply IH|discriminate|contradiction].
Qed.

Lemma ticks_to_seconds_total (tempo_events : list tempo_event) (tpq ticks : Z) :
  ticks_to_seconds (F := F) tempo_events tpq ticks <> OutOfFuel.
Proof.
  unfold ticks_to_seconds.
  pose proof (tempo_loop_total tempo_events ticks tpq (of_Z 0) 0 500000) as Hl.
  destruct (tempo_loop _ _ _ _ _ _) as [[[ct tick] tempo]| |]; cbn [bind];
    [|discriminate|contradiction].
  pose proof (span_seconds_total (ticks - tick) tempo tpq) as Hs.
  destruct (span_seconds _ _ _) as [d| |]; cbn [bind];
    [discriminate|discriminate|contradiction].
Qed.

Lemma process_track_total (tempo_events : list tempo_event) (tpq : Z)
  (track : list event) :
  forall (acc : list timed_event) (mt lno : F),
    process_track tempo_events tpq track acc mt lno <> OutOfFuel.
Proof.
  induction track as [|e track IH]; intros acc mt lno; cbn [process_track];
    [discriminate|].
  pose proof (ticks_to_seconds_total tempo_events tpq (absoluteTicks e)) as Ht.
  destruct (ticks_to_seconds _ _ _) as [t| |]; cbn [bind];
    [apply IH|discriminate|contradiction].
Qed.

Lemma process_tracks_total (tempo_events : list tempo_event) (tpq : Z)
  (tracks : list (list event)) :
  forall (acc : list (list timed_event)) (mt lno : F),
    process_tracks tempo_events tpq tracks acc mt lno <> OutOfFuel.
Proof.
  induction tracks as [|track tracks IH]; intros acc mt lno;
    cbn [process_tracks]; [discriminate|].
  pose proof (process_track_total tempo_events tpq track [] mt lno) as Ht.
  destruct (process_track _ _ _ _ _ _) as [[[pt mt1] lno1]| |]; cbn [bind];
    [apply IH|discriminate|contradiction].
Qed.

Lemma parse_midi_total (data : list byte) :
  parse_midi (F := F) data <> OutOfFuel.
Proof.
  unfold parse_midi.
  destruct (negb (bytes_eqb (slice data 0 4) MThd)); [discriminate|].
  unfold unpack_I, unpack_HHH.
  destruct (length (slice data 4 8) =? 4)%nat; cbn [bind]; [|discriminate].
  destruct (length _ =? 6)%nat; cbn [bind]; [|discriminate].
  destruct (negb _); [discriminate|].
  match goal with
  | |- bind (parse_tracks ?n ?d ?o ?t ?a ?m) _ <> _ =>
      pose proof (parse_tracks_total n d o t a m) as Hp;
      destruct (parse_tracks n d o t a m) as [[[tracks all] out]| |];
      cbn [bind]; [|discriminate|contradiction]
  end.
  match goal with
  | |- bind (process_tracks ?te ?q ?t ?a ?m ?l) _ <> _ =>
      pose proof (process_tracks_total te q t a m l) as Hq;
      destruct (process_tracks te q t a m l) as [[[pts mt] lno]| |];
      cbn [bind]; [discriminate|discriminate|contradiction]
  end.
Qed.

Lemma main_total (data : list byte) (target_duration : option F) :
  main data target_duration <> OutOfFuel.
Proof.
  unfold main. pose proof (parse_midi_total data) as Hp.
  destruct (parse_midi data) as [[[[json_data lno]|] out]| |]; cbn [bind];
    try discriminate; [|contradiction].
  destruct json_data; [discriminate|].
  destruct (rescale _ _ _). discriminate.
Qed.

End Totality.

(** ** A chunk that declares more bytes than the data hold *)

Section Truncated.
Local Open Scope nat_scope.

Lemma truncated_loop (data : list byte) (track_end : nat) (fuel : nat) :
  length data < track_end ->
  forall s : track_state,
    ts_offset s <= length data \/ ends_with_skip s ->
    track_end - ts_offset s <= fuel ->
    parse_events fuel data track_end s = Raise IndexError \/
    exists s', parse_events fuel data track_end s = Ok s' /\
      (ts_broke s' = true \/
       (track_end <= ts_offset s' /\ ends_with_skip s')).
Proof.
  intros Hlen. induction fuel as [|fuel IH]; intros s Hs Hfuel;
    cbn [parse_events]; destruct (Nat.leb_spec track_end (ts_offset s)) as [Hend|Hin];
    try lia.
  - right. exists s. split; [reflexivity|]. right. split; [exact Hend|].
    destruct Hs as [Hs|Hs]; [lia|exact Hs].
  - right. exists s. split; [reflexivity|]. right. split; [exact Hend|].
    destruct Hs as [Hs|Hs]; [lia|exact Hs].
  - destruct (parse_event_outcome data s) as [E|(s' & E & Hprog & Hcase)];
      rewrite E; cbn [bind]; [left; reflexivity|].
    destruct Hcase as [(Hb & _)|(Hb & e & He & Hbound)]; rewrite Hb.
    + right. exists s'. split; [reflexivity|]. left. exact Hb.
    + apply IH; [|lia].
      destruct Hbound as [Hle|Hskip]; [left; exact Hle|].
      right. exists (ts_track_events s), e. split; trivial.
Qed.

End Truncated.

(** C7 (as the code has it): no read of the decoder is checked against
    the end of the data and there is no [TruncatedInput] error.  When the
    declared end of a chunk lies past the end of the data, the event loop
    reads on: it ends with the unguarded [IndexError] of an index read
    past the end, or at the running-status [break], or normally, and
    then only because the length field of a meta or system exclusive
    event moved the offset past the end of the data, to or past the
    declared end, the payload being silently cut. *)
Theorem truncated_chunk_outcomes (data : list byte) (offset track_end : nat)
  (ticks last : Z) (evs all : list event) :
  (offset <= length data)%nat ->
  (length data < track_end)%nat ->
  parse_events (track_end - offset) data track_end
    (mk_state offset ticks last evs all false) = Raise IndexError \/
  exists s',
    parse_events (track_end - offset) data track_end
      (mk_state offset ticks last evs all false) = Ok s' /\
    (ts_broke s' = true \/
     ((length data < ts_offset s')%nat /\ (track_end <= ts_offset s')%nat /\
      exists evs' e, ts_track_events s' = evs' ++ [e] /\
                     is_meta_or_sysex e = true)).
Proof.
  intros Hoff Hlen.
  destruct (truncated_loop data track_end (track_end - offset) Hlen
              (mk_state offset ticks last evs all false))
    as [E|(s' & E & Hs')]; cbn [ts_offset]; [left; exact Hoff|lia| |].
  - left. exact E.
  - right. exists s'. split; [exact E|].
    destruct Hs' as [Hb|[Hend Hskip]]; [left; exact Hb|].
    right. repeat split; trivial. lia.
Qed.

(** A chunk of declared length 8 of which only 4 bytes exist. *)
Lemma truncated_chunk_outcomes_witness :
  parse_events (8 - 0) [x00; x90; x3c; x40] 8 (mk_state 0 0 0 [] [] false)
  = Raise IndexError \/
  exists s',
    parse_events (8 - 0) [x00; x90; x3c; x40] 8 (mk_state 0 0 0 [] [] false)
    = Ok s' /\
    (ts_broke s' = true \/
     ((length [x00; x90; x3c; x40] < ts_offset s')%nat /\ (8 <= ts_offset s')%nat /\
      exists evs' e, ts_track_events s' = evs' ++ [e] /\
                     is_meta_or_sysex e = true)).
Proof.
  apply (truncated_chunk_outcomes [x00; x90; x3c; x40] 0 8 0 0 [] []);
    cbn [length]; lia.
Defined.

(** C7 as stated fails, in both ways it excludes.  A chunk that declares
    8 bytes and has 4 makes the decoder raise [IndexError]; a chunk that
    declares 16 bytes and has 5, a text meta event of declared length
    127, is decoded without any error, its payload cut. *)
Lemma truncated_chunk_panics_or_passes :
  parse_midi (F := float)
    (midi_header x01 ++ MTrk ++ [x00; x00; x00; x08] ++ [x00; x90; x3c; x40])
  = Raise IndexError /\
  parse_midi (F := float)
    (midi_header x01 ++ MTrk ++ [x00; x00; x00; x10] ++ [x00; xff; x01; x7f; x41])
  = Ok (Some ([[mk_timed (mk_event 0 15 (Meta 1 Unknown)) 0%float]], 0%float),
        [ParsedTracks 1; LastNoteOffRaw 0%float; TotalDurationRaw 0%float]).
Proof. split; vm_compute; reflexivity. Qed.

(** ** What parse_midi returns *)

Section Returned.
Context {F : Type} `{PyFloat F}.

Lemma process_track_events (tempo_events : list tempo_event) (tpq : Z)
  (track : list event) :
  forall (acc pt : list (timed_event (F := F))) (mt lno mt' lno' : F),
    process_track tempo_events tpq track acc mt lno = Ok (pt, mt', lno') ->
    map (@ev F) pt = map (@ev F) acc ++ track.
Proof.
  induction track as [|e track IH]; intros acc pt mt lno mt' lno' E;
    cbn [process_track] in E.
  - injection E as <- _ _. symmetry. apply app_nil_r.
  - destruct (ticks_to_seconds tempo_events tpq (absoluteTicks e)) as [t| |];
      cbn [bind] in E; try discriminate.
    apply IH in E. rewrite E, map_app, <- app_assoc. reflexivity.
Qed.

Lemma process_tracks_events (tempo_events : list tempo_event) (tpq : Z)
  (tracks : list (list event)) :
  forall (acc pts : list (list (timed_event (F := F)))) (mt lno mt' lno' : F),
    process_tracks tempo_events tpq tracks acc mt lno = Ok (pts, mt', lno') ->
    map (map (@ev F)) pts = map (map (@ev F)) acc ++ tracks.
Proof.
  induction tracks as [|track tracks IH]; intros acc pts mt lno mt' lno' E;
    cbn [process_tracks] in E.
  - injection E as <- _ _. symmetry. apply app_nil_r.
  - destruct (process_track tempo_events tpq track [] mt lno)
      as [[[pt mt1] lno1]| |] eqn:Et; cbn [bind] in E; try discriminate.
    apply process_track_events in Et. cbn [map app] in Et.
    apply IH in E. rewrite E, map_app, <- app_assoc. cbn [map app].
    rewrite Et. reflexivity.
Qed.


End Returned.



(** ** Time mapping *)

Section RealComparisons.
Local Open Scope R_scope.

Lemma Rltb_true (x y : R) : x < y -> Rltb x y = true.
Proof. intros Hxy. unfold Rltb. destruct (Rlt_dec x y); [reflexivity|contradiction]. Qed.

Lemma Rltb_false (x y : R) : ~ x < y -> Rltb x y = false.
Proof. intros Hxy. unfold Rltb. destruct (Rlt_dec x y); [contradiction|reflexivity]. Qed.

Lemma Rltb_false_inv (x y : R) : Rltb x y = false -> ~ x < y.
Proof. unfold Rltb. destruct (Rlt_dec x y); [discriminate|trivial]. Qed.

Lemma Rleb_true (x y : R) : x <= y -> Daw.Rleb x y = true.
Proof. intros Hxy. unfold Daw.Rleb. destruct (Rle_dec x y); [reflexivity|contradiction]. Qed.

Lemma Rleb_false (x y : R) : ~ x <= y -> Daw.Rleb x y = false.
Proof. intros Hxy. unfold Daw.Rleb. destruct (Rle_dec x y); [contradiction|reflexivity]. Qed.

Lemma Reqb_false (x y : R) : x <> y -> Reqb x y = false.
Proof. intros Hxy. unfold Reqb. destruct (Req_dec_T x y); [contradiction|reflexivity]. Qed.

Lemma Reqb_true (x y : R) : x = y -> Reqb x y = true.
Proof. intros Hxy. unfold Reqb. destruct (Req_dec_T x y); [reflexivity|contradiction]. Qed.

(** Division of reals by a non-zero real raises nothing. *)
Lemma py_div_R (x y : R) : y <> 0 -> py_div x y = Ok (x / y).
Proof.
  intros Hy. unfold py_div. cbn [feqb of_Z fdiv R_PyFloat].
  rewrite Reqb_false by exact Hy. reflexivity.
Qed.

Lemma py_float_R (n : Z) : py_float (F := R) n = Ok (IZR n).
Proof. reflexivity. Qed.

Lemma py_log_pos (x : R) : 0 < x -> Daw.py_log x = Ok (ln x).
Proof. intros Hx. unfold Daw.py_log. rewrite Rltb_true by exact Hx. reflexivity. Qed.

End RealComparisons.

Lemma ticks_480_float :
  ticks_to_seconds (F := float) [mk_tempo 0 500000] 480 480 = Ok 0.5%float.
Proof. vm_compute. reflexivity. Qed.

Lemma ticks_480_real :
  ticks_to_seconds (F := R) [mk_tempo 0 500000] 480 480 = Ok (1 / 2)%R.
Proof.
  unfold ticks_to_seconds, tempo_loop, span_seconds.
  cbn [te_absoluteTicks te_tempo Z.ltb Z.compare Pos.compare Pos.compare_cont].
  rewrite !py_float_R. cbn [bind fmul fadd of_Z R_PyFloat].
  rewrite py_div_R by lra. cbn [bind].
  rewrite py_float_R. cbn [bind]. rewrite py_div_R by lra. cbn [bind].
  f_equal. change ((0 - 0) * 500000)%Z with 0%Z.
  change ((480 - 0) * 500000)%Z with 240000000%Z. lra.
Qed.

(** C1 (as the code has it): with the single tempo point (tick 0, 500000
    microseconds per quarter note) and 480 ticks per quarter note, tick
    480 is one quarter note and maps to 0.5 second: exactly the float
    [0.5] in binary64 arithmetic, and one half over the reals.  The tempo
    map of a file without tempo events is this single default point. *)
Theorem ticks_480_at_120_bpm_is_half_a_second :
  ticks_to_seconds (F := float) [mk_tempo 0 500000] 480 480 = Ok 0.5%float /\
  ticks_to_seconds (F := R) [mk_tempo 0 500000] 480 480 = Ok (1 / 2)%R /\
  build_tempo_map [] = [mk_tempo 0 500000].
Proof.
  split; [exact ticks_480_float|]. split; [exact ticks_480_real|reflexivity].
Qed.

(** C1 as stated fails: tick 480 does not map to 1.0 second, neither in
    binary64 arithmetic nor over the reals. *)
Lemma ticks_480_is_not_one_second :
  ticks_to_seconds (F := float) [mk_tempo 0 500000] 480 480 <> Ok 1%float /\
  ticks_to_seconds (F := R) [mk_tempo 0 500000] 480 480 <> Ok 1%R.
Proof.
  split.
  - rewrite ticks_480_float. intros E.
    pose (below_one := fun r : result float =>
            match r with Ok x => PrimFloat.ltb x 1%float | _ => false end).
    assert (Eb : below_one (Ok 0.5%float) = below_one (Ok 1%float))
      by (rewrite E; reflexivity).
    vm_compute in Eb. discriminate.
  - rewrite ticks_480_real. intros E. injection E as E. lra.
Qed.

(** ** Ramp segments *)

Section Ramp.
Local Open Scope R_scope.

Lemma Rabs_not_small (x : R) : ~ Rabs x < 0.0001 -> x <> 0.
Proof.
  intros Hx ->. apply Hx. rewrite Rabs_R0. lra.
Qed.

Lemma full_segment_value (t1 v1 t2 v2 : R) :
  0 < v1 -> 0 < v2 -> t1 < t2 ->
  Daw.full_segment t1 v1 t2 v2
  = Ok (if Rltb (Rabs (v2 - v1)) 0.0001 then (t2 - t1) * 60 / v1
        else 60 / ((v2 - v1) / (t2 - t1)) * ln (v2 / v1)).
Proof.
  intros Hv1 Hv2 Ht. unfold Daw.full_segment.
  rewrite Rltb_true by lra.
  destruct (Rltb (Rabs (v2 - v1)) 0.0001) eqn:Hr.
  - apply py_div_R. lra.
  - apply Rltb_false_inv, Rabs_not_small in Hr.
    rewrite py_div_R by lra. cbn [bind].
    rewrite py_div_R
      by (unfold Rdiv; apply Rmult_integral_contrapositive_currified;
          [exact Hr | apply Rinv_neq_0_compat; lra]).
    cbn [bind]. rewrite py_div_R by lra. cbn [bind].
    rewrite py_log_pos by (apply Rdiv_lt_0_compat; assumption).
    reflexivity.
Qed.

(** Inside a ramp between positive rates the interpolated rate is
    positive. *)
Lemma ramp_rate_positive (beats t1 v1 t2 v2 : R) :
  0 < v1 -> 0 < v2 -> t1 < beats < t2 ->
  0 < v1 + (v2 - v1) / (t2 - t1) * (beats - t1).
Proof.
  intros Hv1 Hv2 [Hlo Hhi].
  set (theta := (beats - t1) / (t2 - t1)).
  assert (Htheta : 0 < theta < 1).
  { unfold theta. split.
    - apply Rdiv_lt_0_compat; lra.
    - apply Rmult_lt_reg_r with (t2 - t1); [lra|].
      unfold Rdiv. rewrite Rmult_assoc, Rinv_l by lra. lra. }
  replace (v1 + (v2 - v1) / (t2 - t1) * (beats - t1))
    with (v1 * (1 - theta) + v2 * theta)
    by (unfold theta; field; lra).
  assert (0 < v1 * (1 - theta)) by (apply Rmult_lt_0_compat; lra).
  assert (0 < v2 * theta) by (apply Rmult_lt_0_compat; lra).
  lra.
Qed.

Lemma partial_segment_value (beats t1 v1 t2 v2 : R) :
  0 < v1 -> 0 < v2 -> t1 < beats < t2 ->
  Daw.partial_segment beats t1 v1 t2 v2
  = Ok (if Rltb (Rabs ((v2 - v1) / (t2 - t1))) 0.0001
        then (beats - t1) * 60 / v1
        else 60 / ((v2 - v1) / (t2 - t1))
             * ln ((v1 + (v2 - v1) / (t2 - t1) * (beats - t1)) / v1)).
Proof.
  intros Hv1 Hv2 Hb. unfold Daw.partial_segment.
  rewrite Rltb_true by lra.
  rewrite (py_div_R (v2 - v1) (t2 - t1)) by lra. cbn [bind].
  destruct (Rltb (Rabs ((v2 - v1) / (t2 - t1))) 0.0001) eqn:Hr.
  - apply py_div_R. lra.
  - apply Rltb_false_inv, Rabs_not_small in Hr.
    rewrite (py_div_R 60) by exact Hr. cbn [bind].
    rewrite py_div_R by lra. cbn [bind].
    rewrite py_log_pos
      by (apply Rdiv_lt_0_compat;
          [apply ramp_rate_positive; assumption | assumption]).
    reflexivity.
Qed.

Lemma ln_2_lt_1 : ln 2 < 1.
Proof.
  apply Rlt_le_trans with (ln (exp 1)); [|rewrite ln_exp; lra].
  apply ln_increasing; [lra|].
  pose proof (exp_ineq1 1 ltac:(lra)). lra.
Qed.

Lemma ramp_60_to_120 (initial_bpm : R) :
  Daw.beats_to_seconds 1 initial_bpm [(0, 60); (1, 120)] = Ok (60 / 60 * ln 2).
Proof.
  unfold Daw.beats_to_seconds, Daw.sorted_points_of.
  rewrite Rltb_false by lra.
  cbn [Daw.segment_loop].
  rewrite Rltb_false by lra. rewrite Rleb_true by lra.
  rewrite full_segment_value by lra.
  rewrite Rltb_false
    by (rewrite Rabs_pos_eq by lra; lra).
  cbn [bind Daw.segment_loop last].
  rewrite Rltb_false by lra.
  f_equal. replace ((120 - 60) / (1 - 0)) with 60 by field.
  replace (120 / 60) with 2 by field. lra.
Qed.

End Ramp.

(** What the code adds for a segment from [(t1, v1)] to [(t2, v2)] of
    positive length between positive rates.  A position at or past [t2]
    adds the whole segment: [(t2 - t1) * 60 / v1] if [|v2 - v1| < 1e-4],
    else [(60 / slope) * ln (v2 / v1)] with
    [slope = (v2 - v1) / (t2 - t1)].  A position strictly inside the
    segment adds a partial span and ends the integration; there the test
    of line 197 is on the slope, not on [|v2 - v1|] as in line 182:
    [(beats - t1) * 60 / v1] if [|slope| < 1e-4], else
    [(60 / slope) * ln (v_end / v1)] with
    [v_end = v1 + slope * (beats - t1)]. *)
Lemma ramp_segment_elapsed_time (beats t1 v1 t2 v2 total_time : R)
  (rest : list (R * R)) :
  (0 < v1)%R -> (0 < v2)%R -> (t1 < t2)%R ->
  ((t2 <= beats)%R ->
   Daw.segment_loop beats ((t1, v1) :: (t2, v2) :: rest) total_time
   = Daw.segment_loop beats ((t2, v2) :: rest)
       (total_time +
        (if Rltb (Rabs (v2 - v1)) 0.0001 then (t2 - t1) * 60 / v1
         else 60 / ((v2 - v1) / (t2 - t1)) * ln (v2 / v1)))%R) /\
  ((t1 < beats < t2)%R ->
   Daw.segment_loop beats ((t1, v1) :: (t2, v2) :: rest) total_time
   = Ok (Daw.Returned
       (total_time +
        (if Rltb (Rabs ((v2 - v1) / (t2 - t1))) 0.0001
         then (beats - t1) * 60 / v1
         else 60 / ((v2 - v1) / (t2 - t1))
              * ln ((v1 + (v2 - v1) / (t2 - t1) * (beats - t1)) / v1)))%R)) /\
  (forall initial_bpm : R,
     Daw.beats_to_seconds 1 initial_bpm [(0, 60); (1, 120)]%R
     = Ok (60 / 60 * ln 2)%R) /\
  (1 / 2 < 60 / 60 * ln 2 < 1)%R.
Proof.
  intros Hv1 Hv2 Ht. split; [|split; [|split]].
  - intros Hb. cbn [Daw.segment_loop].
    rewrite Rltb_false by lra. rewrite Rleb_true by exact Hb.
    rewrite full_segment_value by assumption. reflexivity.
  - intros Hb. cbn [Daw.segment_loop].
    rewrite Rltb_false by lra. rewrite Rleb_false by lra.
    rewrite partial_segment_value by assumption. reflexivity.
  - exact ramp_60_to_120.
  - pose proof ln_lt_2. pose proof ln_2_lt_1. lra.
Qed.

(** ** A slow ramp *)

Section SlowRamp.
Local Open Scope R_scope.

(** Inside the slow ramp from 60 to 61 BPM over 20000 beats the slope
    5e-5 is below 1e-4 and the span is taken at the constant rate of 60
    BPM. *)
Lemma slow_ramp_inside (beats initial_bpm : R) :
  0 < beats < 20000 ->
  Daw.beats_to_seconds beats initial_bpm [(0, 60); (20000, 61)]
  = Ok (beats * 60 / 60).
Proof.
  intros Hb. unfold Daw.beats_to_seconds, Daw.sorted_points_of.
  rewrite Rltb_false by lra.
  cbn [Daw.segment_loop].
  rewrite Rltb_false by lra. rewrite Rleb_false by lra.
  rewrite partial_segment_value by lra.
  rewrite Rltb_true
    by (rewrite Rabs_pos_eq by lra; lra).
  cbn [bind]. f_equal. lra.
Qed.

(** At its end the whole ramp is integrated: [|v2 - v1| = 1] is not
    below 1e-4. *)
Lemma slow_ramp_end (initial_bpm : R) :
  Daw.beats_to_seconds 20000 initial_bpm [(0, 60); (20000, 61)]
  = Ok (60 / ((61 - 60) / (20000 - 0)) * ln (61 / 60)).
Proof.
  unfold Daw.beats_to_seconds, Daw.sorted_points_of.
  rewrite Rltb_false by lra.
  cbn [Daw.segment_loop].
  rewrite Rltb_false by lra. rewrite Rleb_true by lra.
  rewrite full_segment_value by lra.
  rewrite Rltb_false by (rewrite Rabs_pos_eq by lra; lra).
  cbn [bind Daw.segment_loop last].
  rewrite Rltb_false by lra.
  f_equal. lra.
Qed.

Lemma ln_below (x : R) : 0 < x -> ln (1 + x) < x.
Proof.
  intros Hx. apply Rlt_le_trans with (ln (exp x)); [|rewrite ln_exp; lra].
  apply ln_increasing; [lra|]. apply exp_ineq1. lra.
Qed.

(** [exp c > (1 + c / 2)^2] gives a bound below [1 / 60]. *)
Lemma ln_61_60 : ln (61 / 60) < 166 / 10000.
Proof.
  apply Rlt_le_trans with (ln (exp (166 / 10000))); [|rewrite ln_exp; lra].
  apply ln_increasing; [lra|].
  replace (166 / 10000) with (83 / 10000 + 83 / 10000) by lra.
  rewrite exp_plus.
  pose proof (exp_ineq1 (83 / 10000) ltac:(lra)) as He.
  assert (Hsq : (1 + 83 / 10000) * (1 + 83 / 10000)
                < exp (83 / 10000) * exp (83 / 10000))
    by (apply Rmult_le_0_lt_compat; lra).
  lra.
Qed.

End SlowRamp.

(** C2 fails on the code.  The full segment of the example, from beat 0
    at 60 BPM to beat 1 at 120 BPM, takes [(60 / 60) * ln 2] seconds,
    between 0.5 and 1, as the claim says.  But on the ramp from 60 to 61
    BPM over 20000 beats, where [|v2 - v1| = 1] is not below 1e-4, a
    position inside the segment is not integrated by
    [(60 / slope) * ln (v_end / v1)]: the partial branch tests the slope,
    5e-5, and takes the constant rate.  Beat 19999 is put at 19999
    seconds, more than the formula gives, and later than the end of the
    segment, beat 20000, which the full branch integrates as a ramp: the
    time runs backwards. *)
Theorem slow_ramp_runs_time_backwards :
  Daw.beats_to_seconds 1 120 [(0, 60); (1, 120)]%R = Ok (60 / 60 * ln 2)%R /\
  (1 / 2 < 60 / 60 * ln 2 < 1)%R /\
  ~ (Rabs (61 - 60) < 0.0001)%R /\
  Daw.beats_to_seconds 19999 120 [(0, 60); (20000, 61)]%R
  = Ok (19999 * 60 / 60)%R /\
  (60 / ((61 - 60) / (20000 - 0))
   * ln ((60 + (61 - 60) / (20000 - 0) * (19999 - 0)) / 60)
   < 19999 * 60 / 60)%R /\
  Daw.beats_to_seconds 20000 120 [(0, 60); (20000, 61)]%R
  = Ok (60 / ((61 - 60) / (20000 - 0)) * ln (61 / 60))%R /\
  (60 / ((61 - 60) / (20000 - 0)) * ln (61 / 60) < 19999 * 60 / 60)%R.
Proof.
  split; [apply ramp_60_to_120|].
  split; [pose proof ln_lt_2; pose proof ln_2_lt_1; lra|].
  split; [rewrite Rabs_pos_eq by lra; lra|].
  split; [apply slow_ramp_inside; lra|].
  split; [|split; [apply slow_ramp_end|]].
  - replace (60 / ((61 - 60) / (20000 - 0)))%R with 1200000%R by field.
    replace ((60 + (61 - 60) / (20000 - 0) * (19999 - 0)) / 60)%R
      with (1 + 19999 / 1200000)%R by field.
    pose proof (ln_below (19999 / 1200000) ltac:(lra)). lra.
  - replace (60 / ((61 - 60) / (20000 - 0)))%R with 1200000%R by field.
    pose proof ln_61_60. lra.
Qed.

(** ** Order of the assembled events *)

Section SortFacts.
Variable A : Type.
Variable leb : A -> A -> bool.
Hypothesis leb_total : forall x y, leb x y = true \/ leb y x = true.
Hypothesis leb_trans :
  forall x y z, leb x y = true -> leb y z = true -> leb x z = true.

Local Abbreviation le := (fun x y => leb x y = true).

Lemma insert_sorted_perm (x : A) (l : list A) :
  Permutation (insert_sorted leb x l) (x :: l).
Proof.
  induction l as [|y l IH]; cbn [insert_sorted]; [reflexivity|].
  destruct (leb x y); [reflexivity|].
  rewrite IH. apply perm_swap.
Qed.

Lemma stable_sort_perm (l : list A) : Permutation (stable_sort leb l) l.
Proof.
  induction l as [|x l IH]; cbn [stable_sort fold_right]; [reflexivity|].
  rewrite insert_sorted_perm. apply perm_skip. exact IH.
Qed.

Lemma insert_sorted_sorted (x : A) (l : list A) :
  StronglySorted le l -> StronglySorted le (insert_sorted leb x l).
Proof.
  induction 1 as [|y l Hl IH Hy]; cbn [insert_sorted].
  - repeat constructor.
  - destruct (leb x y) eqn:E.
    + constructor; [constructor; assumption|].
      constructor; [exact E|].
      eapply Forall_impl; [|exact Hy]. intros z Hz. eapply leb_trans; eassumption.
    + constructor; [exact IH|].
      rewrite Forall_forall in *. intros z Hz.
      apply (Permutation_in _ (insert_sorted_perm x l)) in Hz.
      destruct Hz as [<-|Hz]; [|apply Hy; exact Hz].
      destruct (leb_total x y) as [Hxy|Hyx]; [congruence|exact Hyx].
Qed.

Lemma stable_sort_sorted (l : list A) : StronglySorted le (stable_sort leb l).
Proof.
  induction l as [|x l IH]; cbn [stable_sort fold_right]; [constructor|].
  apply insert_sorted_sorted. exact IH.
Qed.

(** The sort is stable: the elements whose key equals that of [a] are in
    the order they had. *)
Lemma insert_sorted_stable (a x : A) (l : list A) :
  filter (fun z => leb a z && leb z a) (insert_sorted leb x l)
  = filter (fun z => leb a z && leb z a) (x :: l).
Proof.
  induction l as [|y l IH]; cbn [insert_sorted]; [reflexivity|].
  destruct (leb x y) eqn:E; [reflexivity|].
  cbn [filter] in *. rewrite IH.
  destruct (leb a x && leb x a) eqn:Ex; [|reflexivity].
  destruct (leb a y && leb y a) eqn:Ey; [|reflexivity].
  apply andb_true_iff in Ex as [_ Hxa]. apply andb_true_iff in Ey as [Hay _].
  rewrite (leb_trans x a y Hxa Hay) in E. discriminate.
Qed.

Lemma stable_sort_stable (a : A) (l : list A) :
  filter (fun z => leb a z && leb z a) (stable_sort leb l)
  = filter (fun z => leb a z && leb z a) l.
Proof.
  induction l as [|x l IH]; cbn [stable_sort fold_right]; [reflexivity|].
  rewrite insert_sorted_stable. cbn [filter]. fold (stable_sort leb l).
  rewrite IH. reflexivity.
Qed.

Lemma sorted_app_inv (l1 l2 : list A) (x y : A) :
  StronglySorted le (l1 ++ x :: l2) -> In y l2 -> leb x y = true.
Proof.
  induction l1 as [|z l1 IH]; cbn [app]; intros Hs Hy.
  - apply StronglySorted_inv in Hs as [_ Hx].
    rewrite Forall_forall in Hx. apply Hx. exact Hy.
  - apply StronglySorted_inv in Hs as [Hs _]. apply IH; assumption.
Qed.

End SortFacts.

Section TieBreak.
Context {F : Type} `{PyFloat F}.
Local Open Scope Z_scope.

Lemma key_leb_total (x y : Daw.daw_event (F := F)) :
  Daw.key_leb x y = true \/ Daw.key_leb y x = true.
Proof.
  unfold Daw.key_leb.
  destruct (Z.ltb_spec (Daw.absoluteTicks x) (Daw.absoluteTicks y));
    [left; reflexivity|].
  destruct (Z.ltb_spec (Daw.absoluteTicks y) (Daw.absoluteTicks x));
    [right; reflexivity|].
  destruct (Z.eqb_spec (Daw.absoluteTicks x) (Daw.absoluteTicks y)); [|lia].
  destruct (Z.eqb_spec (Daw.absoluteTicks y) (Daw.absoluteTicks x)); [|lia].
  destruct (Daw.type_is_note_off x), (Daw.type_is_note_off y); cbn; auto.
Qed.

Lemma key_leb_trans (x y z : Daw.daw_event (F := F)) :
  Daw.key_leb x y = true -> Daw.key_leb y z = true -> Daw.key_leb x z = true.
Proof.
  unfold Daw.key_leb.
  destruct (Z.ltb_spec (Daw.absoluteTicks x) (Daw.absoluteTicks y));
    destruct (Z.ltb_spec (Daw.absoluteTicks y) (Daw.absoluteTicks z));
    destruct (Z.ltb_spec (Daw.absoluteTicks x) (Daw.absoluteTicks z));
    destruct (Z.eqb_spec (Daw.absoluteTicks x) (Daw.absoluteTicks y));
    destruct (Z.eqb_spec (Daw.absoluteTicks y) (Daw.absoluteTicks z));
    destruct (Z.eqb_spec (Daw.absoluteTicks x) (Daw.absoluteTicks z));
    cbn; try lia; try discriminate; try reflexivity.
  destruct (Daw.type_is_note_off x), (Daw.type_is_note_off y), (Daw.type_is_note_off z);
    cbn; auto.
Qed.

(** What the sort key does at equal ticks: behind a note off there is no
    event of another type with the same tick.  A note on that shares its
    tick with a note off therefore stands before it. *)
Lemma sort_events_note_off_last (evts l1 l2 : list Daw.daw_event)
  (e_off e : Daw.daw_event (F := F)) :
  Daw.sort_events evts = l1 ++ e_off :: l2 ->
  Daw.type_is_note_off e_off = true ->
  In e l2 ->
  Daw.absoluteTicks e = Daw.absoluteTicks e_off ->
  Daw.type_is_note_off e = true.
Proof.
  intros Hsort Hoff Hin Hticks.
  pose proof (stable_sort_sorted _ Daw.key_leb key_leb_total key_leb_trans evts)
    as Hs.
  fold (Daw.sort_events evts) in Hs. rewrite Hsort in Hs.
  pose proof (sorted_app_inv _ Daw.key_leb l1 l2 e_off e Hs Hin) as Hle.
  unfold Daw.key_leb in Hle. rewrite Hticks, Z.ltb_irrefl, Z.eqb_refl, Hoff in Hle.
  exact Hle.
Qed.

(** In particular no note on stands behind a note off of its tick. *)
Lemma sort_events_no_note_on_behind (evts l1 l2 : list Daw.daw_event)
  (e_off e : Daw.daw_event (F := F)) :
  Daw.sort_events evts = l1 ++ e_off :: l2 ->
  Daw.type_is_note_off e_off = true ->
  In e l2 ->
  Daw.absoluteTicks e = Daw.absoluteTicks e_off ->
  Daw.type_is_note_on e = false.
Proof.
  intros Hsort Hoff Hin Hticks.
  pose proof (sort_events_note_off_last evts l1 l2 e_off e Hsort Hoff Hin Hticks)
    as He.
  unfold Daw.type_is_note_off in He. unfold Daw.type_is_note_on.
  destruct (Daw.body e); try discriminate; reflexivity.
Qed.

Lemma sort_events_perm (evts : list (Daw.daw_event (F := F))) :
  Permutation (Daw.sort_events evts) evts.
Proof. apply stable_sort_perm. Qed.

End TieBreak.

(** C3 fails on the code.  Two legato notes of one track at 120 BPM, as
    [main] appends their events: key 60 from beat 0 to beat 1, key 62
    from beat 1 to beat 2.  At tick 960 the assembled track has the note
    on of key 62 before the note off of key 60. *)
Theorem legato_note_on_precedes_note_off :
  Daw.assemble_track (F := float)
    [Daw.mk_daw_event 0 15 (Daw.TrackName "Violin I") 0%float;
     Daw.mk_daw_event 0 13 (Daw.NoteOn 60 63 0.5%float) 0%float;
     Daw.mk_daw_event 960 13 (Daw.NoteOff 60 63 0.5%float) 0.5%float;
     Daw.mk_daw_event 960 13 (Daw.NoteOn 62 63 0.5%float) 0.5%float;
     Daw.mk_daw_event 1920 13 (Daw.NoteOff 62 63 0.5%float) 1%float]
  = [Daw.mk_daw_event 0 15 (Daw.TrackName "Violin I") 0%float;
     Daw.mk_daw_event 0 13 (Daw.NoteOn 60 63 0.5%float) 0%float;
     Daw.mk_daw_event 960 13 (Daw.NoteOn 62 63 0.5%float) 0.5%float;
     Daw.mk_daw_event 960 13 (Daw.NoteOff 60 63 0.5%float) 0.5%float;
     Daw.mk_daw_event 1920 13 (Daw.NoteOff 62 63 0.5%float) 1%float;
     Daw.mk_daw_event 1920 15 Daw.EndOfTrack 1%float].
Proof. vm_compute. reflexivity. Qed.

(** ** Rescaling to a target duration *)

Section Rescale.
Local Open Scope R_scope.

Local Abbreviation tevent := (timed_event (F := R)).




End Rescale.

Section RescaleLaw.
Local Open Scope R_scope.

Lemma ticks_0_real :
  ticks_to_seconds (F := R) [mk_tempo 0 500000] 480 0 = Ok 0.
Proof.
  unfold ticks_to_seconds, tempo_loop, span_seconds.
  cbn [te_absoluteTicks te_tempo Z.ltb Z.compare Pos.compare Pos.compare_cont].
  rewrite !py_float_R. cbn [bind fmul fadd of_Z R_PyFloat].
  rewrite py_div_R by lra. cbn [bind].
  rewrite py_float_R. cbn [bind]. rewrite py_div_R by lra. cbn [bind].
  f_equal. change ((0 - 0) * 500000)%Z with 0%Z. lra.
Qed.

Lemma one_note_file_parsed :
  parse_midi (F := R) one_note_file
  = Ok (Some ([[mk_timed (mk_event 0 0 (NoteOn 60 64)) 0;
                mk_timed (mk_event 480 0 (NoteOff 60 0)) (1 / 2)]], 1 / 2),
        [ParsedTracks 1; LastNoteOffRaw (1 / 2); TotalDurationRaw (1 / 2)]).
Proof.
  unfold parse_midi.
  replace (negb (bytes_eqb (slice one_note_file 0 4) MThd)) with false
    by reflexivity.
  replace (unpack_I (slice one_note_file 4 8)) with (Ok (A := Z) 6%Z)
    by reflexivity.
  cbn [bind].
  replace (unpack_HHH (slice one_note_file 8 (8 + Z.to_nat 6)))
    with (Ok (A := Z * Z * Z) (1, 1, 480)%Z) by reflexivity.
  cbn [bind].
  replace (negb (Z.land 480 32768 =? 0)%Z) with false by reflexivity.
  replace (parse_tracks (F := R) (Z.to_nat 1) one_note_file (8 + Z.to_nat 6) [] [] [])
    with (Ok (A := list (list event) * list event * list (message R))
            ([[mk_event 0 0 (NoteOn 60 64); mk_event 480 0 (NoteOff 60 0)]],
             [], []))
    by reflexivity.
  cbn [bind].
  replace (build_tempo_map []) with [mk_tempo 0 500000] by reflexivity.
  cbn [process_tracks process_track absoluteTicks bind].
  rewrite ticks_0_real. cbn [bind]. rewrite ticks_480_real. cbn [bind].
  cbn [fltb of_Z R_PyFloat is_note_off body andb app length].
  rewrite (Rltb_false 0 0) by lra. rewrite (Rltb_true 0 (1 / 2)) by lra.
  reflexivity.
Qed.

End RescaleLaw.




(** * Further properties of the decoder *)

(** ** The event loop ends *)

Section LoopBound.
Local Open Scope nat_scope.

(** A larger iteration bound changes nothing. *)
Lemma parse_events_more_fuel (data : list byte) (track_end : nat) (fuel : nat) :
  forall (fuel' : nat) (s : track_state),
    track_end - ts_offset s <= fuel -> fuel <= fuel' ->
    parse_events fuel' data track_end s = parse_events fuel data track_end s.
Proof.
  induction fuel as [|fuel IH]; intros fuel' s Hfuel Hle.
  - destruct fuel'; cbn [parse_events];
      destruct (Nat.leb_spec track_end (ts_offset s)); try reflexivity; lia.
  - destruct fuel' as [|fuel']; [lia|]. cbn [parse_events].
    destruct (Nat.leb_spec track_end (ts_offset s)); [reflexivity|].
    destruct (parse_event_outcome data s) as [E|(s' & E & Hprog & _)]; rewrite E;
      cbn [bind]; [reflexivity|].
    destruct (ts_broke s'); [reflexivity|].
    apply IH; lia.
Qed.

End LoopBound.

(** X1: every iteration of the [while offset < track_end] loop moves the
    offset forward by at least one byte, so the loop ends within
    [track_end - offset] iterations: with that bound or any larger one the
    loop gives the same result, and the bound is not exhausted. *)
Theorem event_loop_terminates (data : list byte) (track_end fuel : nat)
  (s : track_state) :
  (track_end - ts_offset s <= fuel)%nat ->
  (forall s', parse_event data s = Ok s' -> (ts_offset s < ts_offset s')%nat) /\
  parse_events fuel data track_end s
  = parse_events (track_end - ts_offset s) data track_end s /\
  parse_events fuel data track_end s <> OutOfFuel.
Proof.
  intros Hfuel. split; [|split].
  - intros s' E.
    destruct (parse_event_outcome data s) as [E'|(s1 & E' & Hprog & _)];
      rewrite E' in E; [discriminate|].
    injection E as <-. exact Hprog.
  - apply parse_events_more_fuel; [apply Nat.le_refl|exact Hfuel].
  - apply parse_events_fuel. exact Hfuel.
Qed.

Lemma event_loop_terminates_witness :
  (8 - ts_offset (mk_state 0 0 0 [] [] false) <= 20)%nat /\
  parse_events 20 [x00; x90; x3c; x40; x83; x60; x3c; x00] 8
    (mk_state 0 0 0 [] [] false)
  = parse_events 8 [x00; x90; x3c; x40; x83; x60; x3c; x00] 8
      (mk_state 0 0 0 [] [] false).
Proof.
  assert (H : (8 - ts_offset (mk_state 0 0 0 [] [] false) <= 20)%nat)
    by (cbn; lia).
  split; [exact H|].
  exact (proj1 (proj2 (event_loop_terminates
                         [x00; x90; x3c; x40; x83; x60; x3c; x00] 8 20
                         (mk_state 0 0 0 [] [] false) H))).
Defined.

(** ** The only exception of the event loop *)

Section OnlyIndexError.

Lemma parse_events_raises (fuel : nat) (data : list byte) (track_end : nat) :
  forall (s : track_state) (e : exn),
    parse_events fuel data track_end s = Raise e -> e = IndexError.
Proof.
  induction fuel as [|fuel IH]; intros s e; cbn [parse_events];
    destruct (track_end <=? ts_offset s)%nat; try discriminate.
  destruct (parse_event_outcome data s) as [E|(s' & E & _)]; rewrite E;
    cbn [bind].
  - intros E'. injection E' as <-. reflexivity.
  - destruct (ts_broke s'); [discriminate|]. apply IH.
Qed.

Lemma parse_tracks_raises {F : Type} `{PyFloat F} (num_tracks : nat) :
  forall (data : list byte) (offset : nat) (tracks : list (list event))
         (all_events : list event) (out : list (message F)) (e : exn),
    parse_tracks num_tracks data offset tracks all_events out = Raise e ->
    e = IndexError \/ e = StructError.
Proof.
  induction num_tracks as [|n IH]; intros data offset tracks all_events out e;
    cbn [parse_tracks]; [discriminate|].
  destruct (negb (bytes_eqb (slice data offset (offset + 4)) MTrk));
    [discriminate|].
  unfold unpack_I. destruct (length _ =? 4)%nat; cbn [bind].
  - match goal with
    | |- bind (parse_events ?fuel ?d ?te ?s) _ = _ -> _ =>
        pose proof (parse_events_raises fuel d te s) as Hr;
        destruct (parse_events fuel d te s) as [s'|e'|]; cbn [bind]
    end.
    + apply IH.
    + intros E. injection E as <-. left. apply Hr. reflexivity.
    + discriminate.
  - intros E. injection E as <-. right. reflexivity.
Qed.

End OnlyIndexError.

(** X2: the event loop of a track raises no exception but the
    [IndexError] of an index read past the end of the data, and the loop
    over the tracks none but that one and the [struct.error] of a chunk
    length field of fewer than four bytes. *)
Theorem track_decoding_raises_only_index_or_struct_error {F : Type} `{PyFloat F} :
  (forall (fuel : nat) (data : list byte) (track_end : nat) (s : track_state)
          (e : exn),
     parse_events fuel data track_end s = Raise e -> e = IndexError) /\
  (forall (num_tracks : nat) (data : list byte) (offset : nat)
          (tracks : list (list event)) (all_events : list event)
          (out : list (message F)) (e : exn),
     parse_tracks num_tracks data offset tracks all_events out = Raise e ->
     e = IndexError \/ e = StructError).
Proof.
  split.
  - intros fuel data track_end s e. apply parse_events_raises.
  - intros n data offset tracks all_events out e. apply parse_tracks_raises.
Qed.

Lemma track_decoding_raises_only_index_or_struct_error_witness :
  parse_events 4 [x00; x90; x3c] 4 (mk_state 0 0 0 [] [] false)
  = Raise IndexError /\
  IndexError = IndexError.
Proof.
  assert (E : parse_events 4 [x00; x90; x3c] 4 (mk_state 0 0 0 [] [] false)
              = Raise IndexError) by (vm_compute; reflexivity).
  split; [exact E|].
  exact (proj1 (track_decoding_raises_only_index_or_struct_error (F := float))
           4%nat [x00; x90; x3c] 4%nat (mk_state 0 0 0 [] [] false)
           IndexError E).
Defined.

(** X3: the decoder reads relative to its offset: the bytes in front of
    the offset it starts from are never read.  With any bytes [pre] put in
    front of the data, the event loop started [length pre] bytes further
    does what it did, all offsets moved by [length pre]. *)
Theorem event_loop_ignores_bytes_before_offset (pre l : list byte)
  (fuel track_end : nat) (s : track_state) :
  parse_events fuel (pre ++ l) (length pre + track_end)
    (shift_state (length pre) s)
  = map_result (shift_state (length pre)) (parse_events fuel l track_end s).
Proof. apply parse_events_shift. Qed.

(** ** Shape of the decoded events *)

Section EventShape.
Import Shape.
Local Open Scope Z_scope.

Lemma byte_at_range (data : list byte) (o : nat) (v : Z) :
  byte_at data o = Ok v -> in_byte v.
Proof.
  unfold byte_at. destruct (nth_error data o); intros E; inversion E.
  apply byte_val_range.
Qed.

Lemma lor_below (a b n : Z) :
  0 <= a < 2 ^ n -> 0 <= b < 2 ^ n -> 0 <= Z.lor a b < 2 ^ n.
Proof.
  intros Ha Hb.
  assert (Hn : 0 <= n).
  { destruct (Z.neg_nonneg_cases n) as [Hneg|Hpos]; [|exact Hpos].
    rewrite Z.pow_neg_r in Ha by exact Hneg. lia. }
  assert (H0 : 0 <= Z.lor a b) by (apply Z.lor_nonneg; lia).
  split; [exact H0|].
  destruct (Z.eq_dec (Z.lor a b) 0) as [E|E]; [rewrite E; lia|].
  apply Z.log2_lt_pow2; [lia|].
  rewrite Z.log2_lor by lia.
  assert (Hl : forall c, 0 <= c < 2 ^ n -> 0 < n -> Z.log2 c < n).
  { intros c Hc Hpos. destruct (Z.eq_dec c 0) as [->|Hc0]; [exact Hpos|].
    apply Z.log2_lt_pow2; lia. }
  assert (0 < n).
  { destruct (Z.eq_dec n 0) as [->|]; [|lia].
    change (2 ^ 0) with 1 in *. assert (a = 0) by lia. assert (b = 0) by lia.
    subst. contradiction E. reflexivity. }
  apply Z.max_lub_lt; apply Hl; assumption.
Qed.

Lemma read_vlq_from_nonneg (rest : list byte) :
  forall (value : Z) (offset : nat) (v : Z) (o : nat),
    0 <= value -> read_vlq_from rest value offset = Ok (v, o) -> 0 <= v.
Proof.
  induction rest as [|b rest IH]; intros value offset v o Hv;
    cbn [read_vlq_from]; [discriminate|].
  assert (H0 : 0 <= Z.lor (Z.shiftl value 7) (Z.land (byte_val b) 127)).
  { apply Z.lor_nonneg. split; [apply Z.shiftl_nonneg; exact Hv|].
    apply Z.land_nonneg. right. lia. }
  destruct (Z.land (byte_val b) 128 =? 0).
  - intros E. injection E as <- _. exact H0.
  - apply IH. exact H0.
Qed.

Lemma channel_voice_ok (data : list byte) (o : nat) (event_type : Z)
  (b : event_body) (o' : nat) :
  channel_voice data o event_type = Ok (b, o') -> body_ok b.
Proof.
  unfold channel_voice. intros E.
  destruct (byte_at data o) as [x| |] eqn:Ex;
    destruct (byte_at data (o + 1)) as [y| |] eqn:Ey;
    try apply byte_at_range in Ex; try apply byte_at_range in Ey;
    cbn [bind] in E;
    repeat match type of E with
           | (if ?c then _ else _) = _ => destruct c eqn:?
           end;
    try discriminate; injection E as <- _; cbn [body_ok];
    unfold in_byte in *; try tauto.
  - split; lia.
  - split; [exact Ex|].
    match goal with
    | Hv : (y =? 0) = false |- _ => apply Z.eqb_neq in Hv; lia
    end.
  - change (0 <= Z.lor (Z.shiftl y 7) x < 2 ^ 15).
    apply lor_below; [|lia]. rewrite Z.shiftl_mul_pow2 by lia. lia.
Qed.

Lemma meta_payload_ok (meta_type len : Z) (meta_data : list byte)
  (b : event_body) :
  in_byte meta_type ->
  meta_payload meta_type len meta_data = Ok b -> body_ok b.
Proof.
  unfold meta_payload. intros Ht E.
  destruct ((meta_type =? 81) && (len =? 3)) eqn:Etempo.
  - apply andb_true_iff in Etempo as [Et _]. apply Z.eqb_eq in Et.
    destruct (byte_at meta_data 0) as [b0| |] eqn:E0; cbn [bind] in E;
      try discriminate.
    destruct (byte_at meta_data 1) as [b1| |] eqn:E1; cbn [bind] in E;
      try discriminate.
    destruct (byte_at meta_data 2) as [b2| |] eqn:E2; cbn [bind] in E;
      try discriminate.
    apply byte_at_range in E0, E1, E2. unfold in_byte in *.
    injection E as <-. cbn [body_ok]. split; [exact Et|].
    change (0 <= Z.lor (Z.lor (Z.shiftl b0 16) (Z.shiftl b1 8)) b2 < 2 ^ 24).
    apply lor_below; [apply lor_below|lia];
      rewrite Z.shiftl_mul_pow2 by lia; lia.
  - destruct (Z.eqb_spec meta_type 3).
    + injection E as <-. assumption.
    + destruct (Z.eqb_spec meta_type 47); injection E as <-; cbn [body_ok];
        auto.
Qed.

Lemma meta_event_ok (data : list byte) (o : nat) (b : event_body) (o' : nat) :
  meta_event data o = Ok (b, o') -> body_ok b.
Proof.
  unfold meta_event. intros E.
  destruct (byte_at data o) as [t| |] eqn:Et; cbn [bind] in E; try discriminate.
  apply byte_at_range in Et.
  destruct (read_variable_length data (S o)) as [[len o1]| |]; cbn [bind] in E;
    try discriminate.
  destruct (meta_payload t len _) as [b'| |] eqn:Ep; cbn [bind] in E;
    try discriminate.
  injection E as <- _. eapply meta_payload_ok; eassumption.
Qed.

Lemma sysex_event_ok (data : list byte) (o : nat) (b : event_body) (o' : nat) :
  sysex_event data o = Ok (b, o') -> body_ok b.
Proof.
  unfold sysex_event.
  destruct (read_variable_length data o) as [[len o1]| |]; cbn [bind];
    try discriminate.
  intros E. injection E as <- _. exact I.
Qed.

Lemma land_15_range (status : Z) : 0 <= Z.land status 15 <= 15.
Proof.
  assert (E : Z.land status 15 = status mod 2 ^ 4)
    by (apply (Z.land_ones status 4); lia).
  rewrite E. change (2 ^ 4) with 16.
  pose proof (Z.mod_pos_bound status 16). lia.
Qed.

(** One iteration: the ticks do not go down, and either the loop is left
    with the lists as they were, or one event is appended, with the
    shape of [event_ok], at the tick reached; it is appended to the tempo
    list exactly when it is a set-tempo event. *)
Lemma parse_event_shape (data : list byte) (s s' : track_state) :
  parse_event data s = Ok s' ->
  ts_absolute_ticks s <= ts_absolute_ticks s' /\
  ((ts_broke s' = true /\ ts_track_events s' = ts_track_events s /\
    ts_all_events s' = ts_all_events s) \/
   (ts_broke s' = false /\
    exists e, ts_track_events s' = ts_track_events s ++ [e] /\
      ts_all_events s' = ts_all_events s ++ filter is_set_tempo [e] /\
      absoluteTicks e = ts_absolute_ticks s' /\ event_ok e)).
Proof.
  unfold parse_event. intros E.
  destruct (read_variable_length data (ts_offset s)) as [[delta o]| |] eqn:Ed;
    cbn [bind] in E; try discriminate.
  assert (Hdelta : 0 <= delta).
  { unfold read_variable_length in Ed.
    eapply read_vlq_from_nonneg; [|exact Ed]. lia. }
  destruct (byte_at data o) as [status| |] eqn:Es; cbn [bind] in E;
    try discriminate.
  destruct (resolve_status status o (ts_last_status s)) as [[[o1 ls] st]|].
  - match type of E with
    | bind ?body _ = _ => destruct body as [[b o2]| |] eqn:Eb
    end; cbn [bind] in E; try discriminate.
    injection E as <-. cbn [ts_absolute_ticks ts_broke ts_track_events ts_all_events].
    split; [lia|]. right. split; [reflexivity|].
    eexists. split; [reflexivity|]. split.
    { cbn [filter]. destruct (is_set_tempo _); [reflexivity|].
      symmetry. apply app_nil_r. }
    split; [reflexivity|]. split; cbn [channel body].
    + apply land_15_range.
    + destruct (st =? 255); [eapply meta_event_ok; exact Eb|].
      destruct ((st =? 240) || (st =? 247));
        [eapply sysex_event_ok; exact Eb|].
      eapply channel_voice_ok; exact Eb.
  - injection E as <-. cbn. split; [lia|]. left. auto.
Qed.

Lemma ticks_ascend_cons (t : Z) (e : event) (l : list event) :
  t <= absoluteTicks e -> ticks_ascend (absoluteTicks e) l ->
  ticks_ascend t (e :: l).
Proof.
  unfold ticks_ascend. cbn [map]. intros Hle Hs.
  constructor; [exact Hs|].
  constructor; [exact Hle|].
  apply StronglySorted_inv in Hs as [_ Hall].
  eapply Forall_impl; [|exact Hall]. intros z Hz. cbn in Hz. lia.
Qed.

Lemma parse_events_shape (fuel : nat) (data : list byte) (track_end : nat) :
  forall s s' : track_state,
    parse_events fuel data track_end s = Ok s' ->
    exists new : list event,
      ts_track_events s' = ts_track_events s ++ new /\
      ts_all_events s' = ts_all_events s ++ filter is_set_tempo new /\
      Forall event_ok new /\
      ticks_ascend (ts_absolute_ticks s) new.
Proof.
  induction fuel as [|fuel IH]; intros s s'; cbn [parse_events];
    destruct (track_end <=? ts_offset s)%nat; try discriminate;
    try (intros E; injection E as <-; exists [];
         rewrite !app_nil_r; repeat split;
         [constructor | repeat constructor]).
  destruct (parse_event data s) as [s1| |] eqn:E1; cbn [bind]; try discriminate.
  apply parse_event_shape in E1.
  destruct E1 as (Hticks & [(Hb & Hev & Hall)|(Hb & e & Hev & Hall & He & Hok)]);
    rewrite Hb.
  - intros E; injection E as <-. exists []. rewrite !app_nil_r.
    repeat split; [assumption|assumption|constructor|repeat constructor].
  - intros E. apply IH in E. destruct E as (new & Hev' & Hall' & Hok' & Hasc).
    exists (e :: new). rewrite Hev', Hev, Hall', Hall, <- !app_assoc.
    repeat split.
    + cbn [filter app]. destruct (is_set_tempo e); reflexivity.
    + constructor; assumption.
    + apply ticks_ascend_cons; [lia|]. rewrite He. exact Hasc.
Qed.

(** The loop over the tracks: the tracks decoded before are kept, at most
    [num_tracks] are appended, and the tempo list grows by the set-tempo
    events of the new tracks, in the order of decoding. *)
Lemma parse_tracks_shape {F : Type} `{PyFloat F} (num_tracks : nat) :
  forall (data : list byte) (offset : nat) (tracks tracks' : list (list event))
         (all_events all_events' : list event) (out out' : list (message F)),
    parse_tracks num_tracks data offset tracks all_events out
    = Ok (tracks', all_events', out') ->
    exists new : list (list event),
      tracks' = tracks ++ new /\ (length new <= num_tracks)%nat /\
      all_events' = all_events ++ filter is_set_tempo (concat new) /\
      Forall (fun track => Forall event_ok track /\ ticks_ascend 0 track) new.
Proof.
  induction num_tracks as [|n IH];
    intros data offset tracks tracks' all_events all_events' out out';
    cbn [parse_tracks].
  - intros E. injection E as <- <- _. exists []. rewrite !app_nil_r.
    repeat split; [apply Nat.le_refl|constructor].
  - destruct (negb (bytes_eqb (slice data offset (offset + 4)) MTrk)).
    + intros E. injection E as <- <- _. exists []. rewrite !app_nil_r.
      repeat split; [apply Nat.le_0_l|constructor].
    + destruct (unpack_I _) as [track_len| |]; cbn [bind]; try discriminate.
      match goal with
      | |- bind (parse_events ?fuel ?d ?te ?s) _ = _ -> _ =>
          destruct (parse_events fuel d te s) as [s'| |] eqn:Es; cbn [bind];
          try discriminate
      end.
      apply parse_events_shape in Es.
      destruct Es as (evs & Hev & Hall & Hok & Hasc).
      cbn [ts_track_events ts_all_events ts_absolute_ticks app] in *.
      intros E. apply IH in E. destruct E as (new & -> & Hlen & -> & Hnew).
      exists (evs :: new). rewrite Hev, Hall, <- !app_assoc.
      cbn [app concat length]. rewrite filter_app.
      repeat split; [lia|].
      constructor; [split; assumption|exact Hnew].
Qed.

End EventShape.

(** ** The header fields and the returned timeline *)

Section ReturnedTimeline.
Import Shape.
Context {F : Type} `{PyFloat F}.
Local Open Scope nat_scope.

(** The three header fields are bytes 8 to 13 of the data, whatever
    length the header chunk declares. *)
Lemma unpack_HHH_fields (data : list byte) (n : nat) (a b c : Z) :
  unpack_HHH (slice data 8 (8 + n)) = Ok (a, b, c) ->
  a = be_uint (slice data 8 10) /\ b = be_uint (slice data 10 12) /\
  c = be_uint (slice data 12 14).
Proof.
  unfold unpack_HHH, slice.
  replace (8 + n - 8) with n by lia.
  destruct (Nat.eqb_spec (length (firstn n (skipn 8 data))) 6) as [Hlen|];
    [|discriminate].
  intros E. injection E as <- <- <-.
  assert (Hn : 6 <= n) by (rewrite length_firstn in Hlen; lia).
  split; [|split].
  - change (be_uint (firstn 2 (firstn n (skipn 8 data)))
            = be_uint (firstn (10 - 8) (skipn 8 data))).
    rewrite firstn_firstn. f_equal.
    replace (Nat.min 2 n) with (10 - 8) by lia. reflexivity.
  - change (be_uint (firstn 2 (skipn 2 (firstn n (skipn 8 data))))
            = be_uint (firstn (12 - 10) (skipn 10 data))).
    rewrite skipn_firstn_comm, firstn_firstn, skipn_skipn. f_equal.
    replace (Nat.min 2 (n - 2)) with (12 - 10) by lia. reflexivity.
  - change (be_uint (skipn 4 (firstn n (skipn 8 data)))
            = be_uint (firstn (14 - 12) (skipn 12 data))).
    assert (Hlen2 : length (skipn 4 (firstn n (skipn 8 data))) = 2)
      by (rewrite length_skipn; lia).
    rewrite skipn_firstn_comm, skipn_skipn in Hlen2 |- *.
    change (4 + 8) with 12 in Hlen2 |- *. change (14 - 12) with 2.
    f_equal. rewrite length_firstn in Hlen2.
    destruct (Nat.eq_dec (n - 4) 2) as [->|Hne]; [reflexivity|].
    rewrite !firstn_all2 by lia. reflexivity.
Qed.

(** The time of every converted event is [ticks_to_seconds] of its
    tick. *)
Lemma process_track_times (tempo_events : list tempo_event) (tpq : Z)
  (track : list event) :
  forall (acc pt : list (timed_event (F := F))) (mt lno mt' lno' : F),
    process_track tempo_events tpq track acc mt lno = Ok (pt, mt', lno') ->
    exists new : list timed_event,
      pt = acc ++ new /\ map (@ev F) new = track /\
      Forall (fun e => ticks_to_seconds tempo_events tpq (absoluteTicks (ev e))
                       = Ok (time e)) new.
Proof.
  induction track as [|e track IH]; intros acc pt mt lno mt' lno' E;
    cbn [process_track] in E.
  - injection E as <- _ _. exists []. rewrite app_nil_r.
    repeat split. constructor.
  - destruct (ticks_to_seconds tempo_events tpq (absoluteTicks e)) as [t| |] eqn:Et;
      cbn [bind] in E; try discriminate.
    apply IH in E. destruct E as (new & -> & Hev & Hall).
    exists (mk_timed e t :: new). rewrite <- app_assoc. cbn [app map ev].
    rewrite Hev. repeat split. constructor; [exact Et|exact Hall].
Qed.

Lemma process_tracks_times (tempo_events : list tempo_event) (tpq : Z)
  (tracks : list (list event)) :
  forall (acc pts : list (list (timed_event (F := F)))) (mt lno mt' lno' : F),
    process_tracks tempo_events tpq tracks acc mt lno = Ok (pts, mt', lno') ->
    exists news : list (list timed_event),
      pts = acc ++ news /\ map (map (@ev F)) news = tracks /\
      Forall (Forall (fun e =>
                ticks_to_seconds tempo_events tpq (absoluteTicks (ev e))
                = Ok (time e))) news.
Proof.
  induction tracks as [|track tracks IH]; intros acc pts mt lno mt' lno' E;
    cbn [process_tracks] in E.
  - injection E as <- _ _. exists []. rewrite app_nil_r.
    repeat split. constructor.
  - destruct (process_track tempo_events tpq track [] mt lno)
      as [[[pt mt1] lno1]| |] eqn:Et; cbn [bind] in E; try discriminate.
    apply process_track_times in Et. destruct Et as (new & -> & Hev & Hall).
    apply IH in E. destruct E as (news & -> & Hevs & Halls).
    exists (new :: news). rewrite <- app_assoc. cbn [app map].
    rewrite Hev, Hevs. repeat split. constructor; assumption.
Qed.

(** What stands behind a timeline that [parse_midi] returns. *)
Lemma parse_midi_returned (data : list byte)
  (pts : list (list (timed_event (F := F)))) (T : F) (out : list (message F)) :
  parse_midi data = Ok (Some (pts, T), out) ->
  exists (tracks : list (list event)) (out0 : list (message F)) (max_time : F),
    length tracks <= Z.to_nat (be_uint (slice data 10 12)) /\
    Forall (fun track => Forall event_ok track /\ ticks_ascend 0 track) tracks /\
    map (map (@ev F)) pts = tracks /\
    process_tracks (build_tempo_map (filter is_set_tempo (concat tracks)))
      (be_uint (slice data 12 14)) tracks [] (of_Z 0) (of_Z 0)
    = Ok (pts, max_time, T) /\
    out = out0 ++ [ParsedTracks (length tracks); LastNoteOffRaw T;
                   TotalDurationRaw max_time].
Proof.
  unfold parse_midi.
  destruct (negb (bytes_eqb (slice data 0 4) MThd)); [discriminate|].
  destruct (unpack_I (slice data 4 8)) as [hl| |]; cbn [bind]; try discriminate.
  destruct (unpack_HHH _) as [[[ft nt] td]| |] eqn:Eh; cbn [bind];
    try discriminate.
  apply unpack_HHH_fields in Eh. destruct Eh as (_ & -> & ->).
  destruct (negb (Z.land _ 32768 =? 0)%Z); [discriminate|].
  destruct (parse_tracks _ _ _ _ _ _) as [[[tracks all] out0]| |] eqn:Et;
    cbn [bind]; try discriminate.
  apply parse_tracks_shape in Et.
  destruct Et as (new & -> & Hlen & -> & Hnew). cbn [app] in *.
  destruct (process_tracks _ _ _ _ _ _) as [[[pts' mt] lno]| |] eqn:Ep;
    cbn [bind]; try discriminate.
  intros E. injection E as <- <- <-.
  exists new, out0, mt. repeat split; try assumption.
  apply process_tracks_events in Ep. exact Ep.
Qed.

End ReturnedTimeline.

(** The one-note file on binary64 floats. *)
Lemma one_note_file_parsed_float :
  parse_midi (F := float) one_note_file
  = Ok (Some ([[mk_timed (mk_event 0 0 (NoteOn 60 64)) 0%float;
                mk_timed (mk_event 480 0 (NoteOff 60 0)) 0.5%float]], 0.5%float),
        [ParsedTracks 1; LastNoteOffRaw 0.5%float; TotalDurationRaw 0.5%float]).
Proof. vm_compute. reflexivity. Qed.

(** X4: the timeline that [parse_midi] returns has no more tracks than
    the header declares (bytes 10 and 11), and in each of its tracks the
    ticks start at or above 0 and never go down from an event to the
    next. *)
Theorem returned_tracks_have_ascending_ticks {F : Type} `{PyFloat F}
  (data : list byte) (json_data : list (list (timed_event (F := F))))
  (last_note_off : F) (out : list (message F)) :
  parse_midi data = Ok (Some (json_data, last_note_off), out) ->
  (length json_data <= Z.to_nat (be_uint (slice data 10 12)))%nat /\
  Forall (fun track => Shape.ticks_ascend 0 (map (@ev F) track)) json_data.
Proof.
  intros E. apply parse_midi_returned in E.
  destruct E as (tracks & out0 & mt & Hlen & Hshape & Hev & _).
  subst tracks. rewrite length_map in Hlen. split; [exact Hlen|].
  rewrite Forall_map in Hshape.
  eapply Forall_impl; [|exact Hshape]. intros track [_ Hasc]. exact Hasc.
Qed.

Lemma returned_tracks_have_ascending_ticks_witness :
  Forall (fun track => Shape.ticks_ascend 0 (map (@ev float) track))
    [[mk_timed (mk_event 0 0 (NoteOn 60 64)) 0%float;
      mk_timed (mk_event 480 0 (NoteOff 60 0)) 0.5%float]].
Proof.
  exact (proj2 (returned_tracks_have_ascending_ticks one_note_file _ _ _
                  one_note_file_parsed_float)).
Defined.

(** X5: every event of the timeline that [parse_midi] returns, whatever
    the bytes of the file, has a channel from 0 to 15 and data fields of
    one byte (0 to 255); a tempo is below 2^24, a pitch bend value below
    2^15, and no note on has velocity 0 (it is stored as a note off). *)
Theorem returned_events_are_well_formed {F : Type} `{PyFloat F}
  (data : list byte) (json_data : list (list (timed_event (F := F))))
  (last_note_off : F) (out : list (message F)) :
  parse_midi data = Ok (Some (json_data, last_note_off), out) ->
  Forall (Forall (fun e => Shape.event_ok (ev e))) json_data.
Proof.
  intros E. apply parse_midi_returned in E.
  destruct E as (tracks & out0 & mt & _ & Hshape & Hev & _).
  subst tracks. rewrite Forall_map in Hshape.
  eapply Forall_impl; [|exact Hshape]. intros track [Hok _].
  rewrite Forall_map in Hok. exact Hok.
Qed.

Lemma returned_events_are_well_formed_witness :
  Forall (Forall (fun e => Shape.event_ok (@ev float e)))
    [[mk_timed (mk_event 0 0 (NoteOn 60 64)) 0%float;
      mk_timed (mk_event 480 0 (NoteOff 60 0)) 0.5%float]].
Proof.
  exact (returned_events_are_well_formed one_note_file _ _ _
           one_note_file_parsed_float).
Defined.

(** X6: the time of every event of the returned timeline is
    [ticks_to_seconds] of its tick, with the ticks per quarter note of
    bytes 12 and 13 and one tempo map for all the tracks: the map built
    from the set-tempo events of all the returned tracks, in the order of
    the tracks. *)
Theorem returned_times_follow_one_tempo_map {F : Type} `{PyFloat F}
  (data : list byte) (json_data : list (list (timed_event (F := F))))
  (last_note_off : F) (out : list (message F)) :
  parse_midi data = Ok (Some (json_data, last_note_off), out) ->
  Forall
    (Forall (fun e =>
       ticks_to_seconds
         (build_tempo_map
            (filter is_set_tempo (concat (map (map (@ev F)) json_data))))
         (be_uint (slice data 12 14)) (absoluteTicks (ev e))
       = Ok (time e)))
    json_data.
Proof.
  intros E. apply parse_midi_returned in E.
  destruct E as (tracks & out0 & mt & _ & _ & Hev & Hp & _).
  subst tracks. apply process_tracks_times in Hp.
  destruct Hp as (news & -> & _ & Hall). exact Hall.
Qed.

Lemma returned_times_follow_one_tempo_map_witness :
  Forall
    (Forall (fun e =>
       ticks_to_seconds
         (build_tempo_map
            (filter is_set_tempo
               (concat (map (map (@ev float))
                  [[mk_timed (mk_event 0 0 (NoteOn 60 64)) 0%float;
                    mk_timed (mk_event 480 0 (NoteOff 60 0)) 0.5%float]]))))
         (be_uint (slice one_note_file 12 14)) (absoluteTicks (ev e))
       = Ok (time e)))
    [[mk_timed (mk_event 0 0 (NoteOn 60 64)) 0%float;
      mk_timed (mk_event 480 0 (NoteOff 60 0)) 0.5%float]].
Proof.
  exact (returned_times_follow_one_tempo_map one_note_file _ _ _
           one_note_file_parsed_float).
Defined.

(** ** Headers that end the run *)

Lemma bytes_eqb_refl (x : list byte) : bytes_eqb x x = true.
Proof. unfold bytes_eqb. destruct (list_eq_dec _ x x); congruence. Qed.

Lemma bytes_eqb_neq (x y : list byte) : x <> y -> bytes_eqb x y = false.
Proof. unfold bytes_eqb. destruct (list_eq_dec _ x y); congruence. Qed.

Lemma length_slice (data : list byte) (a b : nat) :
  length (slice data a b) = Nat.min (b - a) (length data - a).
Proof. unfold slice. rewrite length_firstn, length_skipn. reflexivity. Qed.

(** X7: a file that starts with [MThd] and is shorter than 8 bytes, or
    whose header chunk does not give exactly 6 bytes (the declared header
    length, cut at the end of the file), makes [parse_midi] raise
    [struct.error]. *)
Theorem header_of_wrong_length_raises_struct_error {F : Type} `{PyFloat F}
  (data : list byte) :
  slice data 0 4 = MThd ->
  (length data < 8)%nat \/
  Nat.min (Z.to_nat (be_uint (slice data 4 8))) (length data - 8) <> 6%nat ->
  parse_midi (F := F) data = Raise StructError.
Proof.
  intros Htag Hlen. unfold parse_midi. rewrite Htag, bytes_eqb_refl.
  cbn [negb]. unfold unpack_I. rewrite length_slice.
  destruct (Nat.eqb_spec (Nat.min (8 - 4) (length data - 4)) 4) as [H4|H4];
    cbn [bind]; [|reflexivity].
  unfold unpack_HHH. rewrite length_slice.
  replace (8 + Z.to_nat (be_uint (slice data 4 8)) - 8)%nat
    with (Z.to_nat (be_uint (slice data 4 8))) by lia.
  destruct (Nat.eqb_spec
              (Nat.min (Z.to_nat (be_uint (slice data 4 8))) (length data - 8)) 6)
    as [H6|H6]; cbn [bind]; [|reflexivity].
  destruct Hlen as [Hlen|Hlen]; [lia|contradiction].
Qed.

Lemma header_of_wrong_length_raises_struct_error_witness :
  parse_midi (F := float)
    (MThd ++ [x00; x00; x00; x05; x00; x01; x00; x01; x01; xe0])
  = Raise StructError.
Proof.
  apply header_of_wrong_length_raises_struct_error.
  - reflexivity.
  - right. vm_compute. discriminate.
Defined.

(** X8: where [parse_midi] returns [None], the script does not end in an
    orderly way: unpacking the result raises [TypeError].  This is so for
    every input that does not start with [MThd], the empty input among
    them, and for every file with a 6-byte header whose time division has
    its top bit set (SMPTE). *)
Theorem rejected_header_raises_type_error {F : Type} `{PyFloat F}
  (data : list byte) (target_duration : option F) :
  (slice data 0 4 <> MThd -> main data target_duration = Raise TypeError) /\
  (slice data 0 4 = MThd ->
   (14 <= length data)%nat ->
   be_uint (slice data 4 8) = 6%Z ->
   Z.land (be_uint (slice data 12 14)) 0x8000 <> 0%Z ->
   main data target_duration = Raise TypeError).
Proof.
  split.
  - intros Htag. unfold main, parse_midi.
    rewrite bytes_eqb_neq by exact Htag. reflexivity.
  - intros Htag Hlen Hhl Hsmpte. unfold main, parse_midi.
    rewrite Htag, bytes_eqb_refl. cbn [negb]. unfold unpack_I.
    rewrite length_slice.
    replace (Nat.min (8 - 4) (length data - 4)) with 4%nat by lia.
    cbn [Nat.eqb bind]. rewrite Hhl.
    destruct (unpack_HHH (slice data 8 (8 + Z.to_nat 6))) as [[[ft nt] td]| |] eqn:Eh.
    + apply unpack_HHH_fields in Eh. destruct Eh as (_ & _ & ->).
      cbn [bind]. destruct (Z.eqb_spec (Z.land (be_uint (slice data 12 14)) 32768) 0);
        [contradiction|]. reflexivity.
    + exfalso. unfold unpack_HHH in Eh. rewrite length_slice in Eh.
      replace (Nat.min (8 + Z.to_nat 6 - 8) (length data - 8)) with 6%nat in Eh
        by lia.
      discriminate.
    + exfalso. unfold unpack_HHH in Eh. destruct (_ =? 6)%nat; discriminate.
Qed.

Lemma rejected_header_raises_type_error_witness :
  main (F := float) [] None = Raise TypeError /\
  main (F := float)
    (MThd ++ [x00; x00; x00; x06; x00; x01; x00; x01; xe7; x28]) (Some 2%float)
  = Raise TypeError.
Proof.
  split.
  - apply (proj1 (rejected_header_raises_type_error [] None)).
    vm_compute. discriminate.
  - apply (proj2 (rejected_header_raises_type_error
                    (MThd ++ [x00; x00; x00; x06; x00; x01; x00; x01; xe7; x28])
                    (Some 2%float))).
    + reflexivity.
    + vm_compute. lia.
    + reflexivity.
    + vm_compute. discriminate.
Defined.

(** ** The tempo map *)

Section TempoMap.
Local Open Scope Z_scope.

Local Abbreviation tick_leb :=
  (fun x y : tempo_event => te_absoluteTicks x <=? te_absoluteTicks y).
Local Abbreviation tick_le :=
  (fun x y : tempo_event => te_absoluteTicks x <= te_absoluteTicks y).

Lemma tick_leb_total (x y : tempo_event) :
  tick_leb x y = true \/ tick_leb y x = true.
Proof.
  cbv beta.
  destruct (Z.leb_spec (te_absoluteTicks x) (te_absoluteTicks y));
    [left; reflexivity|].
  right. apply Z.leb_le. lia.
Qed.

Lemma tick_leb_trans (x y z : tempo_event) :
  tick_leb x y = true -> tick_leb y z = true -> tick_leb x z = true.
Proof. cbv beta. rewrite !Z.leb_le. lia. Qed.

Lemma sorted_tempo_events (l : list tempo_event) :
  StronglySorted tick_le (stable_sort tick_leb l).
Proof.
  pose proof (stable_sort_sorted _ tick_leb tick_leb_total tick_leb_trans l) as Hs.
  induction Hs as [|x l' Hs IH Hx]; constructor; [exact IH|].
  eapply Forall_impl; [|exact Hx]. intros y Hy. apply Z.leb_le. exact Hy.
Qed.

Lemma tempo_events_of_ticks (all_events : list event) :
  Forall (fun e => 0 <= absoluteTicks e) all_events ->
  Forall (fun te => 0 <= te_absoluteTicks te) (tempo_events_of all_events).
Proof.
  induction 1 as [|e l He Hl IH]; cbn [tempo_events_of flat_map]; [constructor|].
  apply Forall_app. split; [|exact IH].
  destruct (body e) as [t [tempo| | |]| | | | | | | | |]; repeat constructor.
  exact He.
Qed.

End TempoMap.

(** The tempo map: sorted, a permutation of the set-tempo events behind
    an optional default, starting at tick 0 or below. *)
Lemma build_tempo_map_facts (all_events : list event) :
  let tempo_events := build_tempo_map all_events in
  let sorted :=
    stable_sort (fun x y => (te_absoluteTicks x <=? te_absoluteTicks y)%Z)
      (tempo_events_of all_events) in
  StronglySorted (fun x y => (te_absoluteTicks x <= te_absoluteTicks y)%Z)
    tempo_events /\
  Permutation sorted (tempo_events_of all_events) /\
  (tempo_events = sorted \/
   tempo_events = mk_tempo 0 500000 :: sorted /\
   Forall (fun te => (0 < te_absoluteTicks te)%Z) sorted) /\
  (exists te rest, tempo_events = te :: rest /\ (te_absoluteTicks te <= 0)%Z /\
     (Forall (fun e => (0 <= absoluteTicks e)%Z) all_events ->
      te_absoluteTicks te = 0%Z)).
Proof.
  cbn zeta. unfold build_tempo_map.
  pose proof (sorted_tempo_events (tempo_events_of all_events)) as Hs.
  pose proof (stable_sort_perm _
                (fun x y => (te_absoluteTicks x <=? te_absoluteTicks y)%Z)
                (tempo_events_of all_events)) as Hp.
  destruct (stable_sort _ (tempo_events_of all_events)) as [|te rest] eqn:E.
  - split; [repeat constructor|]. split; [exact Hp|]. split.
    + right. split; [reflexivity|constructor].
    + exists (mk_tempo 0 500000), []. cbn. repeat split; lia.
  - destruct (Z.ltb_spec 0 (te_absoluteTicks te)) as [Hpos|Hle].
    + split.
      { constructor; [exact Hs|]. constructor; [cbn; lia|].
        apply StronglySorted_inv in Hs as [_ Hall].
        eapply Forall_impl; [|exact Hall]. intros y Hy. cbn in *. lia. }
      split; [exact Hp|]. split.
      * right. split; [reflexivity|]. constructor; [exact Hpos|].
        apply StronglySorted_inv in Hs as [_ Hall].
        eapply Forall_impl; [|exact Hall]. intros y Hy. cbn in *. lia.
      * exists (mk_tempo 0 500000), (te :: rest). cbn. repeat split; lia.
    + split; [exact Hs|]. split; [exact Hp|]. split; [left; reflexivity|].
      exists te, rest. split; [reflexivity|]. split; [exact Hle|].
      intros Hall. apply tempo_events_of_ticks in Hall.
      rewrite Forall_forall in Hall.
      assert (Hin : In te (tempo_events_of all_events)).
      { apply (Permutation_in _ Hp). left. reflexivity. }
      specialize (Hall te Hin). cbn in Hall. lia.
Qed.

(** X9: the tempo map that [parse_midi] builds is never empty and is in
    non-decreasing order of ticks; it holds the set-tempo events it was
    given, each once, and in front of them the default tempo of 500000 at
    tick 0 exactly when there is none or the earliest has a tick above 0;
    its first point has a tick of 0 or less, and of 0 when no event has a
    negative tick. *)
Theorem tempo_map_is_sorted_and_starts_at_zero (all_events : list event) :
  let tempo_events := build_tempo_map all_events in
  let sorted :=
    stable_sort (fun x y => (te_absoluteTicks x <=? te_absoluteTicks y)%Z)
      (tempo_events_of all_events) in
  StronglySorted (fun x y => (te_absoluteTicks x <= te_absoluteTicks y)%Z)
    tempo_events /\
  Permutation sorted (tempo_events_of all_events) /\
  (tempo_events = sorted \/
   tempo_events = mk_tempo 0 500000 :: sorted /\
   Forall (fun te => (0 < te_absoluteTicks te)%Z) sorted) /\
  (exists te rest, tempo_events = te :: rest /\ (te_absoluteTicks te <= 0)%Z /\
     (Forall (fun e => (0 <= absoluteTicks e)%Z) all_events ->
      te_absoluteTicks te = 0%Z)).
Proof. apply build_tempo_map_facts. Qed.

(** ** ticks_to_seconds *)

Section TempoLoop.
Context {F : Type} `{PyFloat F}.
Local Open Scope Z_scope.

(** The loop passes every tempo event whose tick is not above [ticks];
    what it does in passing them does not depend on [ticks]. *)
Lemma tempo_loop_app (l rest : list tempo_event) (ticks tpq : Z) :
  Forall (fun te => te_absoluteTicks te <= ticks) l ->
  forall (ct : F) (k p : Z),
    tempo_loop (l ++ rest) ticks tpq ct k p
    = ('(c, k', p') <- tempo_loop l ticks tpq ct k p ;;
       tempo_loop rest ticks tpq c k' p').
Proof.
  induction 1 as [|te l Hte Hl IH]; intros ct k p; cbn [app tempo_loop bind];
    [reflexivity|].
  destruct (Z.ltb_spec ticks (te_absoluteTicks te)); [lia|].
  destruct (span_seconds _ _ _) as [d| |]; cbn [bind]; try reflexivity.
  apply IH.
Qed.

Lemma tempo_loop_same (l : list tempo_event) (x y tpq : Z) :
  Forall (fun te => te_absoluteTicks te <= x) l ->
  Forall (fun te => te_absoluteTicks te <= y) l ->
  forall (ct : F) (k p : Z),
    tempo_loop l x tpq ct k p = tempo_loop l y tpq ct k p.
Proof.
  induction l as [|te l IH]; intros Hx Hy ct k p; cbn [tempo_loop];
    [reflexivity|].
  apply Forall_cons_iff in Hx as [Hx Hxs]. apply Forall_cons_iff in Hy as [Hy Hys].
  destruct (Z.ltb_spec x (te_absoluteTicks te)); [lia|].
  destruct (Z.ltb_spec y (te_absoluteTicks te)); [lia|].
  destruct (span_seconds _ _ _) as [d| |]; cbn [bind]; try reflexivity.
  apply IH; assumption.
Qed.

(** After passing all of [l ++ [te]], the loop stands at [te]. *)
Lemma tempo_loop_last (l : list tempo_event) (te : tempo_event) (ticks tpq : Z) :
  Forall (fun e => te_absoluteTicks e <= ticks) (l ++ [te]) ->
  forall (ct c : F) (k p k' p' : Z),
    tempo_loop (l ++ [te]) ticks tpq ct k p = Ok (c, k', p') ->
    k' = te_absoluteTicks te /\ p' = te_tempo te.
Proof.
  induction l as [|e l IH]; intros Hall ct c k p k' p'; cbn [app tempo_loop].
  - apply Forall_cons_iff in Hall as [Hte _].
    destruct (Z.ltb_spec ticks (te_absoluteTicks te)); [lia|].
    destruct (span_seconds _ _ _) as [d| |]; cbn [bind]; try discriminate.
    intros E. injection E as _ <- <-. split; reflexivity.
  - cbn [app] in Hall. apply Forall_cons_iff in Hall as [He Hall].
    destruct (Z.ltb_spec ticks (te_absoluteTicks e)); [lia|].
    destruct (span_seconds _ _ _) as [d| |]; cbn [bind]; try discriminate.
    apply IH. exact Hall.
Qed.

(** The loop stops in front of a tempo event whose tick is above
    [ticks]. *)
Lemma tempo_loop_stops (post : list tempo_event) (ticks tpq : Z) (ct : F)
  (k p : Z) :
  match post with
  | [] => True
  | e :: _ => ticks < te_absoluteTicks e
  end ->
  tempo_loop post ticks tpq ct k p = Ok (ct, k, p).
Proof.
  destruct post as [|e post]; cbn [tempo_loop]; [reflexivity|].
  intros Hlt. destruct (Z.ltb_spec ticks (te_absoluteTicks e)); [reflexivity|lia].
Qed.

End TempoLoop.

Section TicksReal.
Local Open Scope R_scope.

Lemma span_seconds_R (delta tempo tpq : Z) :
  tpq <> 0%Z ->
  span_seconds (F := R) delta tempo tpq
  = Ok (IZR (delta * tempo) / (IZR tpq * 1000000)).
Proof.
  intros Htpq. unfold span_seconds. rewrite !py_float_R.
  cbn [bind fmul of_Z R_PyFloat]. apply py_div_R.
  apply Rmult_integral_contrapositive_currified; [|lra].
  apply not_0_IZR. exact Htpq.
Qed.

Lemma span_seconds_R_zero (delta tempo : Z) :
  span_seconds (F := R) delta tempo 0 = Raise ZeroDivisionError.
Proof.
  unfold span_seconds. rewrite !py_float_R. cbn [bind fmul of_Z R_PyFloat].
  unfold py_div. cbn [feqb of_Z R_PyFloat]. rewrite Reqb_true by lra.
  reflexivity.
Qed.

Lemma tempo_loop_R_ok (tempo_events : list tempo_event) (ticks tpq : Z) :
  tpq <> 0%Z ->
  forall (ct : R) (k p : Z),
    exists (c : R) (k' p' : Z),
      tempo_loop tempo_events ticks tpq ct k p = Ok (c, k', p').
Proof.
  intros Htpq. induction tempo_events as [|te l IH]; intros ct k p;
    cbn [tempo_loop]; [eauto|].
  destruct (ticks <? te_absoluteTicks te)%Z; [eauto|].
  rewrite span_seconds_R by exact Htpq. cbn [bind]. apply IH.
Qed.

Lemma div_le_div (x y : Z) (K : R) :
  0 < K -> (x <= y)%Z -> IZR x / K <= IZR y / K.
Proof.
  intros HK Hxy. apply IZR_le in Hxy. unfold Rdiv.
  apply Rmult_le_compat_r; [|exact Hxy].
  left. apply Rinv_0_lt_compat. exact HK.
Qed.

Lemma div_nonneg (x : Z) (K : R) : 0 < K -> (0 <= x)%Z -> 0 <= IZR x / K.
Proof.
  intros HK Hx. pose proof (div_le_div 0 x K HK Hx) as Hle.
  unfold Rdiv in Hle at 1. rewrite Rmult_0_l in Hle. exact Hle.
Qed.

(** The value of [ticks_to_seconds] from any state of its loop: it is
    not below the time of the state, and it does not go down when the
    ticks go up. *)
Lemma tempo_loop_monotone (tpq : Z) (tempo_events : list tempo_event) :
  (0 < tpq)%Z ->
  StronglySorted (fun x y => (te_absoluteTicks x <= te_absoluteTicks y)%Z)
    tempo_events ->
  forall (ct : R) (k p a b : Z),
    Forall (fun te => (k <= te_absoluteTicks te)%Z /\ (0 <= te_tempo te)%Z)
      tempo_events ->
    (0 <= p)%Z -> (k <= a <= b)%Z ->
    exists (ca : R) (ka pa : Z) (cb : R) (kb pb : Z),
      tempo_loop tempo_events a tpq ct k p = Ok (ca, ka, pa) /\
      tempo_loop tempo_events b tpq ct k p = Ok (cb, kb, pb) /\
      ct <= ca + IZR ((a - ka) * pa) / (IZR tpq * 1000000) /\
      ca + IZR ((a - ka) * pa) / (IZR tpq * 1000000)
      <= cb + IZR ((b - kb) * pb) / (IZR tpq * 1000000).
Proof.
  intros Htpq Hs.
  assert (HK : 0 < IZR tpq * 1000000).
  { apply Rmult_lt_0_compat; [apply IZR_lt; exact Htpq|lra]. }
  induction Hs as [|te rest Hs IH Hte]; intros ct k p a b Hall Hp Hab;
    cbn [tempo_loop].
  - exists ct, k, p, ct, k, p. repeat split.
    + pose proof (div_nonneg ((a - k) * p) _ HK ltac:(nia)). lra.
    + pose proof (div_le_div ((a - k) * p) ((b - k) * p) _ HK ltac:(nia)). lra.
  - apply Forall_cons_iff in Hall as [[Hk Htempo] Hall].
    assert (Hrest : Forall (fun e => (te_absoluteTicks te <= te_absoluteTicks e)%Z
                                     /\ (0 <= te_tempo e)%Z) rest).
    { rewrite Forall_forall in *. intros e He. split; [apply Hte; exact He|].
      apply Hall. exact He. }
    destruct (Z.ltb_spec a (te_absoluteTicks te)) as [Ha|Ha];
      destruct (Z.ltb_spec b (te_absoluteTicks te)) as [Hb|Hb]; try lia.
    + exists ct, k, p, ct, k, p. repeat split.
      * pose proof (div_nonneg ((a - k) * p) _ HK ltac:(nia)). lra.
      * pose proof (div_le_div ((a - k) * p) ((b - k) * p) _ HK ltac:(nia)). lra.
    + rewrite span_seconds_R by lia. cbn [bind fadd R_PyFloat].
      destruct (IH (ct + IZR ((te_absoluteTicks te - k) * p) / (IZR tpq * 1000000))
                  (te_absoluteTicks te) (te_tempo te) b b Hrest Htempo ltac:(lia))
        as (ca' & ka' & pa' & cb & kb & pb & _ & Eb & Hlow & Hle).
      exists ct, k, p, cb, kb, pb. repeat split; [exact Eb| |].
      * pose proof (div_nonneg ((a - k) * p) _ HK ltac:(nia)). lra.
      * pose proof (div_le_div ((a - k) * p) ((te_absoluteTicks te - k) * p) _ HK
                      ltac:(nia)). lra.
    + rewrite span_seconds_R by lia. cbn [bind fadd R_PyFloat].
      destruct (IH (ct + IZR ((te_absoluteTicks te - k) * p) / (IZR tpq * 1000000))
                  (te_absoluteTicks te) (te_tempo te) a b Hrest Htempo ltac:(lia))
        as (ca & ka & pa & cb & kb & pb & Ea & Eb & Hlow & Hle).
      exists ca, ka, pa, cb, kb, pb. repeat split; [exact Ea|exact Eb| |exact Hle].
      pose proof (div_nonneg ((te_absoluteTicks te - k) * p) _ HK ltac:(nia)). lra.
Qed.

Lemma ticks_to_seconds_monotone_R (tpq : Z) (tempo_events : list tempo_event)
  (a b : Z) :
  (0 < tpq)%Z ->
  StronglySorted (fun x y => (te_absoluteTicks x <= te_absoluteTicks y)%Z)
    tempo_events ->
  Forall (fun te => (0 <= te_absoluteTicks te)%Z /\ (0 <= te_tempo te)%Z)
    tempo_events ->
  (0 <= a <= b)%Z ->
  exists ta tb : R,
    ticks_to_seconds tempo_events tpq a = Ok ta /\
    ticks_to_seconds tempo_events tpq b = Ok tb /\
    0 <= ta <= tb.
Proof.
  intros Htpq Hs Hall Hab. unfold ticks_to_seconds.
  destruct (tempo_loop_monotone tpq tempo_events Htpq Hs 0 0%Z 500000%Z a b
              Hall ltac:(lia) Hab)
    as (ca & ka & pa & cb & kb & pb & Ea & Eb & Hlow & Hle).
  cbn [of_Z R_PyFloat]. rewrite Ea, Eb. cbn [bind].
  rewrite !span_seconds_R by lia. cbn [bind fadd R_PyFloat].
  eexists. eexists. split; [reflexivity|]. split; [reflexivity|].
  split; assumption.
Qed.

End TicksReal.



(** X11: over real arithmetic, a tempo holds from its tick until the
    next tempo event (step semantics), and of several tempo events at one
    tick the last one counts: for a tempo map [pre ++ te :: post] where no
    tick of [pre] is above that of [te], and for ticks from the tick of
    [te] up to the tick of the first event of [post] (excluded), the time
    is the time at the tick of [te] plus the ticks since then at the
    tempo of [te]. *)
Theorem tempo_holds_until_next_tempo_event (tpq : Z)
  (pre post : list tempo_event) (te : tempo_event) (ticks : Z) :
  tpq <> 0%Z ->
  Forall (fun e => (te_absoluteTicks e <= te_absoluteTicks te)%Z) pre ->
  (te_absoluteTicks te <= ticks)%Z ->
  match post with
  | [] => True
  | e :: _ => (ticks < te_absoluteTicks e)%Z
  end ->
  exists t0 : R,
    ticks_to_seconds (pre ++ te :: post) tpq (te_absoluteTicks te) = Ok t0 /\
    ticks_to_seconds (pre ++ te :: post) tpq ticks
    = Ok (t0 + IZR (ticks - te_absoluteTicks te) * IZR (te_tempo te)
               / (IZR tpq * 1000000))%R.
Proof.
  intros Htpq Hpre Hticks Hpost. unfold ticks_to_seconds.
  replace (pre ++ te :: post) with ((pre ++ [te]) ++ post)
    by (rewrite <- app_assoc; reflexivity).
  assert (H0 : Forall (fun e => (te_absoluteTicks e <= te_absoluteTicks te)%Z)
                 (pre ++ [te])).
  { apply Forall_app. split; [exact Hpre|]. constructor; [lia|constructor]. }
  assert (H1 : Forall (fun e => (te_absoluteTicks e <= ticks)%Z) (pre ++ [te])).
  { eapply Forall_impl; [|exact H0]. intros e He. cbn in He. lia. }
  rewrite (tempo_loop_app (pre ++ [te]) post ticks tpq H1).
  rewrite (tempo_loop_app (pre ++ [te]) post (te_absoluteTicks te) tpq H0).
  rewrite (tempo_loop_same (pre ++ [te]) ticks (te_absoluteTicks te) tpq H1 H0).
  destruct (tempo_loop_R_ok (pre ++ [te]) (te_absoluteTicks te) tpq Htpq
              (of_Z 0) 0%Z 500000%Z) as (c & k' & p' & E).
  rewrite E. cbn [bind].
  destruct (tempo_loop_last pre te (te_absoluteTicks te) tpq H0 _ _ _ _ _ _ E)
    as [-> ->].
  rewrite (tempo_loop_stops post ticks tpq c) by exact Hpost.
  rewrite (tempo_loop_stops post (te_absoluteTicks te) tpq c)
    by (destruct post; [exact I|lia]).
  cbn [bind]. rewrite !span_seconds_R by exact Htpq.
  cbn [bind fadd R_PyFloat].
  eexists. split; [reflexivity|]. f_equal.
  rewrite Z.sub_diag, Z.mul_0_l, mult_IZR. unfold Rdiv. lra.
Qed.

Lemma tempo_holds_until_next_tempo_event_witness :
  exists t0 : R,
    ticks_to_seconds
      ([mk_tempo 0 500000; mk_tempo 480 300000] ++ mk_tempo 480 250000
       :: [mk_tempo 960 500000]) 480 480 = Ok t0 /\
    ticks_to_seconds
      ([mk_tempo 0 500000; mk_tempo 480 300000] ++ mk_tempo 480 250000
       :: [mk_tempo 960 500000]) 480 720
    = Ok (t0 + IZR (720 - 480) * IZR 250000 / (IZR 480 * 1000000))%R.
Proof.
  apply (tempo_holds_until_next_tempo_event 480
           [mk_tempo 0 500000; mk_tempo 480 300000] [mk_tempo 960 500000]
           (mk_tempo 480 250000) 720).
  - lia.
  - repeat constructor; cbn; lia.
  - cbn; lia.
  - cbn; lia.
Defined.

Section ZeroDivision.

Lemma tempo_loop_R_zero (tempo_events : list tempo_event) (ticks : Z) (ct : R)
  (k p : Z) :
  tempo_loop tempo_events ticks 0 ct k p = Ok (ct, k, p) \/
  tempo_loop tempo_events ticks 0 ct k p = Raise ZeroDivisionError.
Proof.
  destruct tempo_events as [|te l]; cbn [tempo_loop]; [left; reflexivity|].
  destruct (ticks <? te_absoluteTicks te)%Z; [left; reflexivity|].
  rewrite span_seconds_R_zero. right. reflexivity.
Qed.

Lemma ticks_to_seconds_R_zero (tempo_events : list tempo_event) (ticks : Z) :
  ticks_to_seconds (F := R) tempo_events 0 ticks = Raise ZeroDivisionError.
Proof.
  unfold ticks_to_seconds.
  destruct (tempo_loop_R_zero tempo_events ticks (of_Z 0) 0 500000) as [E|E];
    rewrite E; cbn [bind]; [|reflexivity].
  rewrite span_seconds_R_zero. reflexivity.
Qed.

Lemma span_seconds_float_zero (delta tempo : Z) :
  span_seconds (F := float) delta tempo 0 = Raise ZeroDivisionError \/
  span_seconds (F := float) delta tempo 0 = Raise OverflowError.
Proof.
  unfold span_seconds.
  replace (py_float (F := float) 0) with (Ok (of_Z (PyFloat := float_PyFloat) 0))
    by reflexivity.
  cbn [bind]. unfold py_float.
  destruct (is_finite (of_Z (delta * tempo))); cbn [bind];
    [left|right; reflexivity].
  unfold py_div.
  replace (feqb (fmul (of_Z (PyFloat := float_PyFloat) 0) (of_Z 1000000)) (of_Z 0))
    with true by (vm_compute; reflexivity).
  reflexivity.
Qed.

Lemma ticks_to_seconds_float_zero (tempo_events : list tempo_event) (ticks : Z) :
  ticks_to_seconds (F := float) tempo_events 0 ticks = Raise ZeroDivisionError \/
  ticks_to_seconds (F := float) tempo_events 0 ticks = Raise OverflowError.
Proof.
  unfold ticks_to_seconds.
  destruct tempo_events as [|te l]; cbn [tempo_loop bind].
  - destruct (span_seconds_float_zero (ticks - 0) 500000) as [E|E]; rewrite E;
      [left|right]; reflexivity.
  - destruct (ticks <? te_absoluteTicks te)%Z; cbn [bind].
    + destruct (span_seconds_float_zero (ticks - 0) 500000) as [E|E]; rewrite E;
        [left|right]; reflexivity.
    + destruct (span_seconds_float_zero (te_absoluteTicks te - 0) 500000)
        as [E|E]; rewrite E; [left|right]; reflexivity.
Qed.

End ZeroDivision.

(** X12: with 0 ticks per quarter note (a time division of 0 in the
    header) no tick can be converted: [ticks_to_seconds] raises
    [ZeroDivisionError] for every tempo map and every tick over real
    arithmetic; on binary64 floats it raises [ZeroDivisionError], or
    [OverflowError] where the product of ticks and tempo is too large
    for a float. *)
Theorem zero_ticks_per_quarter_raises (tempo_events : list tempo_event)
  (ticks : Z) :
  ticks_to_seconds (F := R) tempo_events 0 ticks = Raise ZeroDivisionError /\
  (ticks_to_seconds (F := float) tempo_events 0 ticks = Raise ZeroDivisionError \/
   ticks_to_seconds (F := float) tempo_events 0 ticks = Raise OverflowError).
Proof.
  split; [apply ticks_to_seconds_R_zero|apply ticks_to_seconds_float_zero].
Qed.

(** ** Times of the returned timeline *)

Section ReturnedTimes.
Import Shape.

Lemma be_uint_nonneg (l : list byte) : (0 <= be_uint l)%Z.
Proof.
  unfold be_uint.
  assert (Hacc : forall acc : Z,
             (0 <= acc)%Z ->
             (0 <= fold_left (fun acc b => (acc * 256 + byte_val b)%Z) l acc)%Z).
  { induction l as [|b l IH]; intros acc Hacc; cbn [fold_left]; [exact Hacc|].
    apply IH. pose proof (byte_val_range b). lia. }
  apply Hacc. lia.
Qed.

Lemma tempo_events_of_ok (events : list event) :
  Forall (fun e => (0 <= absoluteTicks e)%Z /\ event_ok e) events ->
  Forall (fun te => (0 <= te_absoluteTicks te)%Z /\ (0 <= te_tempo te)%Z)
    (tempo_events_of events).
Proof.
  induction 1 as [|e l [Hticks [_ Hbody]] Hl IH]; cbn [tempo_events_of flat_map];
    [constructor|].
  apply Forall_app. split; [|exact IH].
  destruct (body e) as [t [tempo| | |]| | | | | | | | |]; repeat constructor;
    cbn [te_absoluteTicks te_tempo body_ok] in *; lia.
Qed.

Lemma build_tempo_map_ok (events : list event) :
  Forall (fun e => (0 <= absoluteTicks e)%Z /\ event_ok e) events ->
  Forall (fun te => (0 <= te_absoluteTicks te)%Z /\ (0 <= te_tempo te)%Z)
    (build_tempo_map events).
Proof.
  intros Hev. apply tempo_events_of_ok in Hev.
  destruct (build_tempo_map_facts events) as (_ & Hp & Hcase & _).
  assert (Hsorted : Forall (fun te => (0 <= te_absoluteTicks te)%Z
                                      /\ (0 <= te_tempo te)%Z)
                      (stable_sort
                         (fun x y => (te_absoluteTicks x <=? te_absoluteTicks y)%Z)
                         (tempo_events_of events))).
  { rewrite Forall_forall in *. intros te Hin. apply Hev.
    apply (Permutation_in _ Hp). exact Hin. }
  destruct Hcase as [->|[-> _]]; [exact Hsorted|].
  constructor; [cbn; lia|exact Hsorted].
Qed.

Lemma ticks_ascend_inv (start : Z) (events : list event) :
  ticks_ascend start events ->
  StronglySorted Z.le (map absoluteTicks events) /\
  Forall (fun e => (start <= absoluteTicks e)%Z) events.
Proof.
  unfold ticks_ascend. intros Hs. apply StronglySorted_inv in Hs as [Hs Hall].
  split; [exact Hs|]. rewrite Forall_map in Hall. exact Hall.
Qed.

Lemma times_sorted (tpq : Z) (tempo_events : list tempo_event) :
  (0 < tpq)%Z ->
  StronglySorted (fun x y => (te_absoluteTicks x <= te_absoluteTicks y)%Z)
    tempo_events ->
  Forall (fun te => (0 <= te_absoluteTicks te)%Z /\ (0 <= te_tempo te)%Z)
    tempo_events ->
  forall track : list (timed_event (F := R)),
    StronglySorted Z.le (map absoluteTicks (map (@ev R) track)) ->
    Forall (fun e => (0 <= absoluteTicks (ev e))%Z) track ->
    Forall (fun e => ticks_to_seconds tempo_events tpq (absoluteTicks (ev e))
                     = Ok (time e)) track ->
    StronglySorted Rle (0%R :: map (@time R) track).
Proof.
  intros Htpq Hs Hall track.
  pose proof (fun a b => ticks_to_seconds_monotone_R tpq tempo_events a b
                           Htpq Hs Hall) as Hmono.
  clear Hs Hall.
  induction track as [|e track IH]; intros Hasc Hpos Htimes; cbn [map] in *.
  - repeat constructor.
  - apply StronglySorted_inv in Hasc as [Hasc Hlow].
    apply Forall_cons_iff in Hpos as [Hpos0 Hpos].
    apply Forall_cons_iff in Htimes as [Ht0 Htimes].
    specialize (IH Hasc Hpos Htimes).
    apply StronglySorted_inv in IH as [IH IH0].
    constructor; [constructor; [exact IH|]|constructor; [|exact IH0]].
    + rewrite !Forall_map in *. rewrite Forall_forall in *.
      intros e' Hin.
      destruct (Hmono (absoluteTicks (ev e)) (absoluteTicks (ev e')))
        as (ta & tb & Ea & Eb & Hle).
      { split; [exact Hpos0|]. apply Hlow. exact Hin. }
      rewrite Ht0 in Ea. rewrite (Htimes e' Hin) in Eb.
      injection Ea as <-. injection Eb as <-. apply Hle.
    + destruct (Hmono (absoluteTicks (ev e)) (absoluteTicks (ev e)))
        as (ta & tb & Ea & _ & Hle); [lia|].
      rewrite Ht0 in Ea. injection Ea as <-. apply Hle.
Qed.

(** X13: over real arithmetic, in every track of the timeline that
    [parse_midi] returns the times are not negative and never go down
    from an event to the next, whatever the bytes of the file. *)
Theorem returned_times_ascend (data : list byte)
  (json_data : list (list (timed_event (F := R)))) (last_note_off : R)
  (out : list (message R)) :
  parse_midi data = Ok (Some (json_data, last_note_off), out) ->
  Forall (fun track => StronglySorted Rle (0%R :: map (@time R) track)) json_data.
Proof.
  intros E. apply parse_midi_returned in E.
  destruct E as (tracks & out0 & mt & _ & Hshape & Hev & Hp & _).
  apply process_tracks_times in Hp. destruct Hp as (news & -> & _ & Htimes).
  cbn [app] in *. subst tracks.
  set (tpq := be_uint (slice data 12 14)) in *.
  set (tm := build_tempo_map _) in *.
  assert (Htm : StronglySorted
                  (fun x y => (te_absoluteTicks x <= te_absoluteTicks y)%Z) tm).
  { apply build_tempo_map_facts. }
  assert (Hok : Forall (fun te => (0 <= te_absoluteTicks te)%Z
                                  /\ (0 <= te_tempo te)%Z) tm).
  { apply build_tempo_map_ok. rewrite Forall_forall. intros e He.
    apply filter_In in He as [He _]. apply in_concat in He as (track & Htrack & He).
    rewrite Forall_forall in Hshape. destruct (Hshape track Htrack) as [Hoks Hasc].
    apply ticks_ascend_inv in Hasc as [_ Hlow]. rewrite Forall_forall in Hoks, Hlow.
    split; [apply Hlow|apply Hoks]; exact He. }
  rewrite Forall_map in Hshape. rewrite Forall_forall in *.
  intros track Hin. specialize (Hshape track Hin). specialize (Htimes track Hin).
  destruct Hshape as [_ Hasc]. apply ticks_ascend_inv in Hasc as [Hasc Hlow].
  rewrite Forall_map in Hlow.
  destruct track as [|e track]; [repeat constructor|].
  destruct (Z.eq_dec tpq 0) as [Hz|Hnz].
  - apply Forall_cons_iff in Htimes as [Ht _]. rewrite Hz in Ht.
    rewrite ticks_to_seconds_R_zero in Ht. discriminate.
  - apply (times_sorted tpq tm); try assumption.
    + pose proof (be_uint_nonneg (slice data 12 14)) as Hpos.
      fold tpq in Hpos. lia.
    + rewrite Forall_forall. exact Hok.
Qed.

End ReturnedTimes.

Lemma returned_times_ascend_witness :
  Forall (fun track => StronglySorted Rle (0%R :: map (@time R) track))
    [[mk_timed (mk_event 0 0 (NoteOn 60 64)) 0%R;
      mk_timed (mk_event 480 0 (NoteOff 60 0)) (1 / 2)%R]].
Proof.
  exact (returned_times_ascend one_note_file _ _ _ one_note_file_parsed).
Defined.

(** * The name of the output file *)

Section OutputFileName.
Import OutputName.
Local Open Scope string_scope.

Lemma length_append (s t : string) :
  String.length (s ++ t) = (String.length s + String.length t)%nat.
Proof. induction s as [|c s IH]; cbn; [reflexivity|]. rewrite IH. reflexivity. Qed.

Lemma append_inj_l (s x y : string) : s ++ x = s ++ y -> x = y.
Proof.
  induction s as [|c s IH]; cbn; intros E; [exact E|].
  injection E as E. apply IH. exact E.
Qed.

Lemma starts_with_cons (a : ascii) (p : string) (b : ascii) (s : string) :
  starts_with (String a p) (String b s) = Ascii.eqb a b && starts_with p s.
Proof. reflexivity. Qed.

Lemma starts_with_app (p q s : string) :
  starts_with (p ++ q) s = true -> starts_with p s = true.
Proof.
  revert s. induction p as [|a p IH]; intros s; cbn; [reflexivity|].
  destruct s as [|b s]; [discriminate|].
  destruct (Ascii.eqb a b); cbn; [apply IH|discriminate].
Qed.

Lemma contains_app (p q s : string) :
  contains p s = false -> contains (p ++ q) s = false.
Proof.
  induction s as [|c s IH]; cbn [contains]; intros Hc;
    apply orb_false_iff in Hc as [Hs Hc]; apply orb_false_iff.
  - split; [|reflexivity].
    destruct (starts_with (p ++ q) "") eqn:E; [|reflexivity].
    apply starts_with_app in E. congruence.
  - split; [|apply IH; exact Hc].
    destruct (starts_with (p ++ q) (String c s)) eqn:E; [|reflexivity].
    apply starts_with_app in E. congruence.
Qed.

(** Where [old] does not occur, nothing is replaced. *)
Lemma replace_absent (old new s : string) :
  contains old s = false -> replace old new s = s.
Proof.
  unfold replace. induction s as [|c s IH]; cbn [contains replace_from];
    [reflexivity|].
  intros Hc. apply orb_false_iff in Hc as [Hs Hc]. rewrite Hs.
  f_equal. apply IH. exact Hc.
Qed.

(** A string without a dot that starts the result of the replacement
    started the string that was given. *)
Lemma starts_with_replace (q : string) :
  (forall c, In c (list_ascii_of_string q) -> c <> "."%char) ->
  forall s, starts_with q (replace ".mid" ".json" s) = true ->
            starts_with q s = true.
Proof.
  unfold replace. induction q as [|a q IH]; intros Hq s; [reflexivity|].
  assert (Ha : a <> "."%char) by (apply Hq; left; reflexivity).
  assert (Hq' : forall c, In c (list_ascii_of_string q) -> c <> "."%char)
    by (intros c Hc; apply Hq; right; exact Hc).
  destruct s as [|c s]; cbn [replace_from]; [trivial|].
  destruct (starts_with ".mid" (String c s)).
  - cbn [append starts_with]. apply Ascii.eqb_neq in Ha. rewrite Ha.
    discriminate.
  - cbn [starts_with]. destruct (Ascii.eqb a c); cbn [andb]; [|discriminate].
    apply IH. exact Hq'.
Qed.

(** No [".mid"] is left by the first replacement. *)
Lemma replace_leaves_none (s : string) :
  forall skip : nat, contains ".mid" (replace_from ".mid" ".json" skip s) = false.
Proof.
  induction s as [|c s IH]; intros skip; [reflexivity|].
  cbn [replace_from]. destruct skip as [|k]; [|apply IH].
  destruct (starts_with ".mid" (String c s)) eqn:Es.
  - cbn. apply IH.
  - cbn [contains]. rewrite IH, orb_false_r.
    rewrite (starts_with_cons "." "mid") in Es |- *.
    destruct (Ascii.eqb "." c); [|reflexivity].
    cbn [andb] in Es |- *.
    destruct (starts_with "mid" (replace_from ".mid" ".json" 0 s)) eqn:Em;
      [|reflexivity].
    apply starts_with_replace in Em; [congruence|].
    cbn. intros x [<-|[<-|[<-|[]]]]; discriminate.
Qed.

Lemma second_replace_does_nothing (s : string) :
  replace ".midi" ".json" (replace ".mid" ".json" s) = replace ".mid" ".json" s.
Proof.
  apply replace_absent.
  apply (contains_app ".mid" "i"). apply replace_leaves_none.
Qed.

(** The first [".mid"] of [base ++ ".mid" ++ rest] is the one written. *)
Lemma starts_with_straddle (c : ascii) (base rest : string) :
  starts_with ".mid" (String c base) = false ->
  starts_with ".mid" (String c base ++ ".mid" ++ rest) = false.
Proof.
  destruct base as [|c1 [|c2 [|c3 base]]]; cbn;
    repeat match goal with
           | |- context [Ascii.eqb ?a ?b] =>
               destruct (Ascii.eqb_spec a b); try subst; cbn
           end; trivial; discriminate.
Qed.

Lemma replace_first (base rest : string) :
  contains ".mid" base = false ->
  replace ".mid" ".json" (base ++ ".mid" ++ rest)
  = base ++ ".json" ++ replace ".mid" ".json" rest.
Proof.
  unfold replace. induction base as [|c base IH]; intros Hc.
  - reflexivity.
  - cbn [contains] in Hc. apply orb_false_iff in Hc as [Hs Hc].
    change (String c base ++ ".mid" ++ rest)
      with (String c (base ++ ".mid" ++ rest)).
    cbn [replace_from].
    change (String c (base ++ ".mid" ++ rest))
      with (String c base ++ ".mid" ++ rest).
    rewrite (starts_with_straddle c base rest Hs).
    cbn [append]. f_equal. apply IH. exact Hc.
Qed.

Lemma output_file_unfold (midi_file : string) :
  output_file midi_file
  = if String.eqb (replace ".mid" ".json" midi_file) midi_file
    then replace ".mid" ".json" midi_file ++ ".json"
    else replace ".mid" ".json" midi_file.
Proof. unfold output_file. rewrite second_replace_does_nothing. reflexivity. Qed.

Lemma append_neq (s t : string) : t <> "" -> s ++ t <> s.
Proof.
  intros Ht E. apply (f_equal String.length) in E. rewrite length_append in E.
  destruct t; [contradiction|]. cbn in E. lia.
Qed.

End OutputFileName.

(** X14: the name of the output file is never the name of the input
    file; and a name in which [".mid"] does not occur gets [".json"]
    appended. *)
Theorem output_file_is_not_the_input (midi_file : string) :
  OutputName.output_file midi_file <> midi_file /\
  (OutputName.contains ".mid" midi_file = false ->
   OutputName.output_file midi_file = (midi_file ++ ".json")%string).
Proof.
  rewrite output_file_unfold. split.
  - destruct (String.eqb_spec (OutputName.replace ".mid" ".json" midi_file)
                midi_file) as [E|E]; [|exact E].
    rewrite E. apply append_neq. discriminate.
  - intros Hc. rewrite (replace_absent ".mid" ".json" midi_file Hc).
    rewrite String.eqb_refl. reflexivity.
Qed.

Lemma output_file_is_not_the_input_witness :
  OutputName.output_file "song.wav" = "song.wav.json"%string.
Proof.
  apply (proj2 (output_file_is_not_the_input "song.wav")). reflexivity.
Defined.

(** X15: the second replacement, of [".midi"], never changes anything,
    since the first one leaves no [".mid"]; so for a base name in which
    [".mid"] does not occur, [base.mid] gives [base.json] and [base.midi]
    gives [base.jsoni]. *)
Theorem midi_suffix_becomes_jsoni (base : string) :
  (forall s : string,
     OutputName.replace ".midi" ".json" (OutputName.replace ".mid" ".json" s)
     = OutputName.replace ".mid" ".json" s) /\
  (OutputName.contains ".mid" base = false ->
   OutputName.output_file (base ++ ".mid") = (base ++ ".json")%string /\
   OutputName.output_file (base ++ ".midi") = (base ++ ".jsoni")%string).
Proof.
  split; [apply second_replace_does_nothing|].
  intros Hc. rewrite !output_file_unfold.
  pose proof (replace_first base "" Hc) as E0.
  pose proof (replace_first base "i" Hc) as E1.
  change (".mid" ++ "")%string with ".mid"%string in E0.
  change (".mid" ++ "i")%string with ".midi"%string in E1.
  rewrite E0, E1. clear E0 E1.
  change (".json" ++ OutputName.replace ".mid" ".json" "")%string
    with ".json"%string.
  change (".json" ++ OutputName.replace ".mid" ".json" "i")%string
    with ".jsoni"%string.
  split.
  - destruct (String.eqb_spec (base ++ ".json") (base ++ ".mid")) as [E|E];
      [|reflexivity].
    apply append_inj_l in E. discriminate.
  - destruct (String.eqb_spec (base ++ ".jsoni") (base ++ ".midi")) as [E|E];
      [|reflexivity].
    apply append_inj_l in E. discriminate.
Qed.

Lemma midi_suffix_becomes_jsoni_witness :
  OutputName.output_file "sugar-plum.mid" = "sugar-plum.json"%string /\
  OutputName.output_file "sugar-plum.midi" = "sugar-plum.jsoni"%string.
Proof.
  apply (proj2 (midi_suffix_becomes_jsoni "sugar-plum")). reflexivity.
Defined.

(** * Further properties of beats_to_seconds *)

Section BeatsToSeconds.
Local Open Scope R_scope.

Lemma Rleb_false_inv (x y : R) : Daw.Rleb x y = false -> y < x.
Proof. unfold Daw.Rleb. destruct (Rle_dec x y); [discriminate|]. lra. Qed.

Lemma Rleb_true_inv (x y : R) : Daw.Rleb x y = true -> x <= y.
Proof. unfold Daw.Rleb. destruct (Rle_dec x y); [trivial|discriminate]. Qed.

Lemma Rltb_true_inv (x y : R) : Rltb x y = true -> x < y.
Proof. unfold Rltb. destruct (Rlt_dec x y); [trivial|discriminate]. Qed.

Lemma last_Forall {A : Type} (P : A -> Prop) (l : list A) (d : A) :
  Forall P l -> P d -> P (last l d).
Proof.
  induction 1 as [|x l Hx Hl IH]; intros Hd; cbn [last]; [exact Hd|].
  destruct l; [exact Hx|]. apply IH. exact Hd.
Qed.

Lemma sorted_points_of_Forall (P : R * R -> Prop) (initial_bpm : R)
  (tempo_points : list (R * R)) :
  P (0, initial_bpm) -> Forall P tempo_points ->
  Forall P (Daw.sorted_points_of initial_bpm tempo_points).
Proof.
  intros H0 Hall. unfold Daw.sorted_points_of.
  destruct tempo_points as [|[t v] l]; [repeat constructor; exact H0|].
  destruct (Rltb 0 t); [constructor; assumption|exact Hall].
Qed.

(** Past every point the loop takes whole segments only, and what it
    adds does not depend on the position. *)
Lemma segment_loop_past (x y : R) (points : list (R * R)) :
  Forall (fun p => fst p <= x) points ->
  Forall (fun p => fst p <= y) points ->
  forall total : R,
    Daw.segment_loop x points total = Daw.segment_loop y points total /\
    forall t, Daw.segment_loop x points total <> Ok (Daw.Returned t).
Proof.
  induction points as [|[t1 v1] rest IH]; intros Hx Hy total.
  - split; [reflexivity|discriminate].
  - apply Forall_cons_iff in Hx as [Hx1 Hx]. apply Forall_cons_iff in Hy as [Hy1 Hy].
    cbn [fst] in *.
    destruct rest as [|[t2 v2] rest'].
    + split; [reflexivity|discriminate].
    + cbn [Daw.segment_loop].
      pose proof Hx as Hx'. apply Forall_cons_iff in Hx' as [Hx2 _].
      pose proof Hy as Hy'. apply Forall_cons_iff in Hy' as [Hy2 _].
      cbn [fst] in *.
      rewrite (Rltb_false x t1), (Rltb_false y t1) by lra.
      rewrite (Rleb_true t2 x), (Rleb_true t2 y) by lra.
      destruct (Daw.full_segment t1 v1 t2 v2) as [d| |]; cbn [bind].
      * apply IH; assumption.
      * split; [reflexivity|discriminate].
      * split; [reflexivity|discriminate].
Qed.

End BeatsToSeconds.

(** Without tempo points the tempo is constant. *)
Lemma beats_to_seconds_constant (beats initial_bpm : R) :
  ((beats <= 0)%R -> Daw.beats_to_seconds beats initial_bpm [] = Ok 0%R) /\
  ((0 < beats)%R -> initial_bpm <> 0%R ->
   Daw.beats_to_seconds beats initial_bpm [] = Ok (beats * 60 / initial_bpm)%R) /\
  ((0 < beats)%R ->
   Daw.beats_to_seconds beats 0 [] = Raise ZeroDivisionError).
Proof.
  unfold Daw.beats_to_seconds, Daw.sorted_points_of.
  cbn [Daw.segment_loop bind last].
  split; [|split].
  - intros Hb. rewrite Rltb_false by lra. reflexivity.
  - intros Hb Hbpm. rewrite Rltb_true by exact Hb.
    rewrite py_div_R by exact Hbpm. cbn [bind]. f_equal. field. exact Hbpm.
  - intros Hb. rewrite Rltb_true by exact Hb.
    unfold py_div. cbn [feqb of_Z R_PyFloat]. rewrite Reqb_true by reflexivity.
    reflexivity.
Qed.

(** X17: without tempo points the tempo is constant: a position above 0
    is [beats * 60 / initial_bpm] seconds, a position at or below 0 is 0
    seconds (also for negative positions), and an initial tempo of 0
    raises [ZeroDivisionError] for every position above 0. *)
Theorem beats_to_seconds_without_points (beats initial_bpm : R) :
  ((beats <= 0)%R -> Daw.beats_to_seconds beats initial_bpm [] = Ok 0%R) /\
  ((0 < beats)%R -> initial_bpm <> 0%R ->
   Daw.beats_to_seconds beats initial_bpm [] = Ok (beats * 60 / initial_bpm)%R) /\
  ((0 < beats)%R ->
   Daw.beats_to_seconds beats 0 [] = Raise ZeroDivisionError).
Proof. apply beats_to_seconds_constant. Qed.

Lemma beats_to_seconds_without_points_witness :
  Daw.beats_to_seconds (-1) 120 [] = Ok 0%R /\
  Daw.beats_to_seconds 4 120 [] = Ok (4 * 60 / 120)%R /\
  Daw.beats_to_seconds 4 0 [] = Raise ZeroDivisionError.
Proof.
  split; [|split].
  - apply (proj1 (beats_to_seconds_without_points (-1) 120)). lra.
  - apply (proj1 (proj2 (beats_to_seconds_without_points 4 120))); lra.
  - apply (proj2 (proj2 (beats_to_seconds_without_points 4 120))). lra.
Defined.

(** X18: past the last point the last tempo is held: when no point is
    later than the last one [(last_t, last_v)] and the position is past
    it, the result is the result at [last_t] plus
    [(beats - last_t) * 60 / last_v], and where the computation at
    [last_t] raises, the same exception is raised. *)
Theorem beats_to_seconds_past_last_point (beats initial_bpm last_t last_v : R)
  (tempo_points : list (R * R)) :
  last (Daw.sorted_points_of initial_bpm tempo_points) (0%R, initial_bpm)
  = (last_t, last_v) ->
  Forall (fun p => (fst p <= last_t)%R)
    (Daw.sorted_points_of initial_bpm tempo_points) ->
  (last_t < beats)%R ->
  Daw.beats_to_seconds beats initial_bpm tempo_points
  = (r <- Daw.beats_to_seconds last_t initial_bpm tempo_points ;;
     d <- py_div ((beats - last_t) * 60)%R last_v ;;
     Ok (r + d)%R).
Proof.
  intros Hlast Hall Hb. unfold Daw.beats_to_seconds. rewrite Hlast.
  assert (Hall' : Forall (fun p => (fst p <= beats)%R)
                    (Daw.sorted_points_of initial_bpm tempo_points)).
  { eapply Forall_impl; [|exact Hall]. intros p Hp. cbn in Hp. lra. }
  destruct (segment_loop_past beats last_t _ Hall' Hall 0%R) as [E Hnot].
  rewrite <- E.
  destruct (Daw.segment_loop beats _ 0%R) as [[t|t]| |]; cbn [bind];
    try reflexivity.
  - exfalso. apply (Hnot t). reflexivity.
  - rewrite (Rltb_true last_t beats) by exact Hb.
    rewrite (Rltb_false last_t last_t) by lra. reflexivity.
Qed.

Lemma beats_to_seconds_past_last_point_witness :
  Daw.beats_to_seconds 8 120 [(0, 60); (4, 120)]%R
  = (r <- Daw.beats_to_seconds 4 120 [(0, 60); (4, 120)]%R ;;
     d <- py_div ((8 - 4) * 60)%R 120%R ;;
     Ok (r + d)%R).
Proof.
  apply beats_to_seconds_past_last_point.
  - unfold Daw.sorted_points_of. rewrite Rltb_false by lra. reflexivity.
  - unfold Daw.sorted_points_of. rewrite Rltb_false by lra.
    repeat constructor; cbn; lra.
  - lra.
Defined.

(** * Further properties of the assembly of the tracks *)

Section OrderKept.
Import Order.
Variable A : Type.
Variable leb : A -> A -> bool.

Lemma before_insert (x y z : A) (l1 l2 : list A) :
  before x y (l1 ++ l2) -> before x y (l1 ++ z :: l2).
Proof.
  induction l1 as [|w l1 IH]; cbn [app]; intros Hb.
  - apply before_later. exact Hb.
  - inversion Hb as [l Hin|w' l Hb']; subst.
    + apply before_here. apply in_or_app.
      apply in_app_or in Hin as [Hin|Hin]; [left; exact Hin|].
      right. right. exact Hin.
    + apply before_later. apply IH. exact Hb'.
Qed.

Lemma before_app (x y : A) (l m : list A) :
  before x y l -> before x y (l ++ m).
Proof.
  induction 1 as [l Hin|z l Hb IH]; cbn [app].
  - apply before_here. apply in_or_app. left. exact Hin.
  - apply before_later. exact IH.
Qed.

Lemma before_in (x y : A) (l1 l2 : list A) :
  In y l2 -> before x y (l1 ++ x :: l2).
Proof.
  intros Hin. induction l1 as [|w l1 IH]; cbn [app].
  - apply before_here. exact Hin.
  - apply before_later. exact IH.
Qed.

(** Where [insert_sorted] puts [x]: behind the elements with a smaller
    key that stand in front. *)
Lemma insert_sorted_split (x : A) (l : list A) :
  exists l1 l2, l = l1 ++ l2 /\ insert_sorted leb x l = l1 ++ x :: l2 /\
                Forall (fun z => leb x z = false) l1.
Proof.
  induction l as [|y l IH]; cbn [insert_sorted].
  - exists [], []. repeat split. constructor.
  - destruct (leb x y) eqn:E.
    + exists [], (y :: l). repeat split. constructor.
    + destruct IH as (l1 & l2 & -> & -> & Hall).
      exists (y :: l1), l2. repeat split. constructor; assumption.
Qed.

Lemma insert_keeps_before (x y z : A) (l : list A) :
  before x y l -> before x y (insert_sorted leb z l).
Proof.
  intros Hb. destruct (insert_sorted_split z l) as (l1 & l2 & -> & -> & _).
  apply before_insert. exact Hb.
Qed.

Lemma insert_puts_before (x y : A) (l : list A) :
  In y l -> leb x y = true -> before x y (insert_sorted leb x l).
Proof.
  intros Hin Hle. destruct (insert_sorted_split x l) as (l1 & l2 & -> & -> & Hall).
  apply before_in. apply in_app_or in Hin as [Hin|Hin]; [|exact Hin].
  rewrite Forall_forall in Hall. specialize (Hall y Hin). congruence.
Qed.

(** The sort never moves an element behind a later one unless its key is
    greater. *)
Lemma stable_sort_before (x y : A) (l : list A) :
  before x y l -> leb x y = true -> before x y (stable_sort leb l).
Proof.
  intros Hb Hle. induction Hb as [l Hin|z l Hb IH];
    cbn [stable_sort fold_right]; fold (stable_sort leb l).
  - apply insert_puts_before; [|exact Hle].
    apply (Permutation_in _ (Permutation_sym (stable_sort_perm _ leb l))).
    exact Hin.
  - apply insert_keeps_before. exact IH.
Qed.

End OrderKept.

(** X19: the sort of the events of a track keeps every event, puts them
    in non-decreasing order of the key (tick, is-note-off), and is
    stable in the strong sense: an event that stood before another one
    stays before it unless its key is greater. *)
Theorem sort_events_is_a_stable_sort {F : Type} `{PyFloat F}
  (evts : list (Daw.daw_event (F := F))) :
  Permutation (Daw.sort_events evts) evts /\
  StronglySorted (fun x y => Daw.key_leb x y = true) (Daw.sort_events evts) /\
  (forall x y : Daw.daw_event,
     Order.before x y evts -> Daw.key_leb x y = true ->
     Order.before x y (Daw.sort_events evts)).
Proof.
  split; [apply stable_sort_perm|]. split.
  - apply stable_sort_sorted; [apply key_leb_total|apply key_leb_trans].
  - intros x y. apply stable_sort_before.
Qed.

(** The two events of a note keep their order. *)
Lemma assemble_track_keeps_note_order {F : Type} `{PyFloat F}
  (evts : list (Daw.daw_event (F := F))) (on off : Daw.daw_event) :
  Order.before on off evts ->
  Daw.type_is_note_on on = true ->
  Daw.type_is_note_off off = true ->
  (Daw.absoluteTicks on <= Daw.absoluteTicks off)%Z ->
  Order.before on off (Daw.assemble_track evts).
Proof.
  intros Hb Hon Hoff Hticks. unfold Daw.assemble_track.
  destruct (match Daw.sort_events evts with
            | [] => _
            | e :: rest => _
            end) as [max_time max_ticks].
  apply before_app. apply stable_sort_before; [exact Hb|].
  unfold Daw.key_leb. rewrite Hoff.
  assert (Hnot : Daw.type_is_note_off on = false).
  { unfold Daw.type_is_note_on in Hon. unfold Daw.type_is_note_off.
    destruct (Daw.body on); try discriminate; reflexivity. }
  rewrite Hnot. cbn [implb]. rewrite andb_true_r.
  destruct (Z.ltb_spec (Daw.absoluteTicks on) (Daw.absoluteTicks off));
    [reflexivity|].
  cbn [orb]. apply Z.eqb_eq. lia.
Qed.

(** X20: a note on that was appended before a note off whose tick is not
    smaller (the two events of one note, the note on first) is before
    it in the assembled track, also when the two ticks are equal. *)
Theorem note_on_stays_before_its_note_off {F : Type} `{PyFloat F}
  (evts : list (Daw.daw_event (F := F))) (on off : Daw.daw_event) :
  Order.before on off evts ->
  Daw.type_is_note_on on = true ->
  Daw.type_is_note_off off = true ->
  (Daw.absoluteTicks on <= Daw.absoluteTicks off)%Z ->
  Order.before on off (Daw.assemble_track evts).
Proof. apply assemble_track_keeps_note_order. Qed.

Lemma note_on_stays_before_its_note_off_witness :
  Order.before
    (Daw.mk_daw_event 960 13 (Daw.NoteOn 62 63 0.5%float) 0.5%float)
    (Daw.mk_daw_event 960 13 (Daw.NoteOff 62 63 0.5%float) 0.5%float)
    (Daw.assemble_track
       [Daw.mk_daw_event 0 15 (Daw.TrackName "Viola") 0%float;
        Daw.mk_daw_event 960 13 (Daw.NoteOn 62 63 0.5%float) 0.5%float;
        Daw.mk_daw_event 960 13 (Daw.NoteOff 62 63 0.5%float) 0.5%float]).
Proof.
  apply note_on_stays_before_its_note_off.
  - apply Order.before_later. apply Order.before_here. left. reflexivity.
  - reflexivity.
  - reflexivity.
  - cbn. lia.
Defined.

Section EndOfTrack.
Local Open Scope R_scope.

Lemma max_by_time_spec (evts : list (Daw.daw_event (F := R))) :
  forall best : Daw.daw_event,
    (Daw.max_by_time best evts = best \/ In (Daw.max_by_time best evts) evts) /\
    Daw.time best <= Daw.time (Daw.max_by_time best evts) /\
    Forall (fun e => Daw.time e <= Daw.time (Daw.max_by_time best evts)) evts.
Proof.
  induction evts as [|e evts IH]; intros best; cbn [Daw.max_by_time].
  - split; [left; reflexivity|]. split; [lra|constructor].
  - cbn [fltb R_PyFloat].
    destruct (Rltb (Daw.time best) (Daw.time e)) eqn:Hlt.
    + apply Rltb_true_inv in Hlt.
      destruct (IH e) as ([Hm|Hm] & Hle & Hall).
      * rewrite Hm in *. split; [right; left; reflexivity|].
        split; [lra|]. constructor; [lra|exact Hall].
      * split; [right; right; exact Hm|]. split; [lra|].
        constructor; [exact Hle|exact Hall].
    + apply Rltb_false_inv in Hlt.
      destruct (IH best) as ([Hm|Hm] & Hle & Hall).
      * rewrite Hm in *. split; [left; reflexivity|].
        split; [lra|]. constructor; [lra|exact Hall].
      * split; [right; right; exact Hm|]. split; [exact Hle|].
        constructor; [lra|exact Hall].
Qed.

End EndOfTrack.

(** X21: over real-number times, the assembled track is the sorted
    events followed by one end-of-track event on channel 15; no event of
    the track is later than it; for a track without events it stands at
    tick 0 and time 0, otherwise it takes its time and its tick together
    from one event of the track. *)
Theorem end_of_track_is_at_the_latest_time
  (evts : list (Daw.daw_event (F := R))) :
  exists eot : Daw.daw_event,
    Daw.assemble_track evts = Daw.sort_events evts ++ [eot] /\
    Daw.body eot = Daw.EndOfTrack /\ Daw.channel eot = 15%Z /\
    Forall (fun e => (Daw.time e <= Daw.time eot)%R) evts /\
    (evts = [] -> Daw.absoluteTicks eot = 0%Z /\ Daw.time eot = 0%R) /\
    (evts <> [] ->
     exists e, In e evts /\ Daw.time eot = Daw.time e /\
               Daw.absoluteTicks eot = Daw.absoluteTicks e).
Proof.
  unfold Daw.assemble_track.
  pose proof (sort_events_perm evts) as Hp.
  destruct (Daw.sort_events evts) as [|e rest] eqn:Es.
  - apply Permutation_nil in Hp. subst evts.
    eexists. split; [reflexivity|]. cbn.
    split; [reflexivity|]. split; [reflexivity|]. split; [constructor|].
    split; [intros _; split; reflexivity|].
    intros Hne. exfalso. apply Hne. reflexivity.
  - destruct (max_by_time_spec rest e) as (Hm & Hle & Hall).
    eexists. split; [reflexivity|].
    cbn [Daw.body Daw.channel Daw.time Daw.absoluteTicks].
    split; [reflexivity|]. split; [reflexivity|]. split; [|split].
    + rewrite Forall_forall in *. intros x Hx.
      apply (Permutation_in _ (Permutation_sym Hp)) in Hx.
      destruct Hx as [<-|Hx]; [exact Hle|apply Hall; exact Hx].
    + intros ->. apply Permutation_sym, Permutation_nil in Hp. discriminate.
    + intros _. exists (Daw.max_by_time e rest). split; [|split; reflexivity].
      apply (Permutation_in _ Hp).
      destruct Hm as [->|Hm]; [left; reflexivity|right; exact Hm].
Qed.

Section TrackOrder.
Context {F : Type} `{PyFloat F}.

Local Abbreviation named :=
  (["Violin I"; "Violin II"; "Viola"; "Violoncello"; "Contrabass"]%string).

Lemma ordered_tracks_fold (track_events : Daw.track_dict (F := F)) :
  NoDup (map fst track_events) ->
  forall ordered : list string,
    fold_left
      (fun ordered kv =>
         if existsb (String.eqb (fst kv)) ordered then ordered
         else ordered ++ [fst kv])
      track_events ordered
    = ordered ++ filter (fun k => negb (existsb (String.eqb k) ordered))
                   (map fst track_events).
Proof.
  induction track_events as [|[k v] d IH]; intros Hnd ordered;
    cbn [fold_left map filter fst].
  - symmetry. apply app_nil_r.
  - apply NoDup_cons_iff in Hnd as [Hk Hnd].
    destruct (existsb (String.eqb k) ordered) eqn:E; cbn [negb].
    + apply IH. exact Hnd.
    + rewrite (IH Hnd), <- app_assoc. cbn [app]. do 2 f_equal.
      apply filter_ext_in. intros x Hx.
      rewrite existsb_app. cbn [existsb]. rewrite orb_false_r.
      destruct (String.eqb_spec x k) as [->|]; [contradiction|].
      rewrite orb_false_r. reflexivity.
Qed.

Lemma lookup_in (track_events : Daw.track_dict (F := F)) (k : string)
  (v : list Daw.daw_event) :
  NoDup (map fst track_events) -> In (k, v) track_events ->
  Daw.lookup k track_events = Some v.
Proof.
  unfold Daw.lookup.
  induction track_events as [|[k' v'] d IH]; intros Hnd Hin; [contradiction|].
  cbn [map fst] in Hnd. apply NoDup_cons_iff in Hnd as [Hk Hnd].
  cbn [find fst]. destruct Hin as [E|Hin].
  - injection E as -> ->. rewrite String.eqb_refl. reflexivity.
  - destruct (String.eqb_spec k' k) as [->|].
    + exfalso. apply Hk. apply (in_map fst) in Hin. exact Hin.
    + apply IH; assumption.
Qed.

Lemma flat_map_lookup (track_events : Daw.track_dict (F := F))
  (keep : string -> bool) :
  NoDup (map fst track_events) ->
  forall l : Daw.track_dict,
    incl l track_events ->
    flat_map
      (fun t_name =>
         match Daw.lookup t_name track_events with
         | Some evts => [Daw.assemble_track evts]
         | None => []
         end)
      (filter keep (map fst l))
    = map (fun kv => Daw.assemble_track (snd kv))
        (filter (fun kv => keep (fst kv)) l).
Proof.
  intros Hnd. induction l as [|[k v] l IH]; intros Hincl; [reflexivity|].
  cbn [map filter fst].
  assert (Hl : incl l track_events) by (intros x Hx; apply Hincl; right; exact Hx).
  destruct (keep k); [|apply IH; exact Hl].
  cbn [flat_map map snd].
  rewrite (lookup_in track_events k v Hnd) by (apply Hincl; left; reflexivity).
  cbn [app]. f_equal. apply IH. exact Hl.
Qed.

(** X22: for a dictionary of tracks (no name twice) the output holds
    first the tracks named Violin I, Violin II, Viola, Violoncello and
    Contrabass that the dictionary has, in this order, and then every
    other track once, in the order of insertion; each track is the
    assembled list of its events. *)
Theorem final_output_puts_the_strings_first
  (track_events : Daw.track_dict (F := F)) :
  NoDup (map fst track_events) ->
  Daw.final_output track_events
  = flat_map
      (fun t_name =>
         match Daw.lookup t_name track_events with
         | Some evts => [Daw.assemble_track evts]
         | None => []
         end)
      ["Violin I"; "Violin II"; "Viola"; "Violoncello"; "Contrabass"]%string
    ++ map (fun kv => Daw.assemble_track (snd kv))
         (filter
            (fun kv =>
               negb (existsb (String.eqb (fst kv))
                       ["Violin I"; "Violin II"; "Viola"; "Violoncello";
                        "Contrabass"]%string))
            track_events).
Proof.
  intros Hnd. unfold Daw.final_output, Daw.ordered_tracks.
  rewrite (ordered_tracks_fold track_events Hnd), flat_map_app. f_equal.
  apply (flat_map_lookup track_events
           (fun k => negb (existsb (String.eqb k) named)) Hnd).
  apply incl_refl.
Qed.

End TrackOrder.

Lemma final_output_puts_the_strings_first_witness :
  Daw.final_output (F := float)
    [("Celesta", []); ("Viola", []); ("Violin I", [])]%string
  = flat_map
      (fun t_name =>
         match Daw.lookup t_name
                 [("Celesta", []); ("Viola", []); ("Violin I", [])]%string with
         | Some evts => [Daw.assemble_track evts]
         | None => []
         end)
      ["Violin I"; "Violin II"; "Viola"; "Violoncello"; "Contrabass"]%string
    ++ map (fun kv => Daw.assemble_track (snd kv))
         (filter
            (fun kv =>
               negb (existsb (String.eqb (fst kv))
                       ["Violin I"; "Violin II"; "Viola"; "Violoncello";
                        "Contrabass"]%string))
            [("Celesta", []); ("Viola", []); ("Violin I", [])]%string).
Proof.
  apply final_output_puts_the_strings_first.
  cbn. repeat constructor; cbn; intuition discriminate.
Defined.

(** * get_tempo_map *)

Section TempoMapOfProject.
Import DawXml.
Local Open Scope R_scope.
Variable float_of_string : string -> option R.

Local Abbreviation time_leb :=
  (fun x y : R * R => Daw.Rleb (fst x) (fst y)).
Local Abbreviation time_le := (fun x y : R * R => fst x <= fst y).

Lemma time_leb_total (x y : R * R) :
  time_leb x y = true \/ time_leb y x = true.
Proof.
  cbv beta. destruct (Rle_dec (fst x) (fst y)).
  - left. apply Rleb_true. assumption.
  - right. apply Rleb_true. lra.
Qed.

Lemma time_leb_trans (x y z : R * R) :
  time_leb x y = true -> time_leb y z = true -> time_leb x z = true.
Proof.
  cbv beta. intros Hxy Hyz. apply Rleb_true_inv in Hxy, Hyz.
  apply Rleb_true. lra.
Qed.

Lemma sorted_points (l : list (R * R)) :
  StronglySorted time_le (stable_sort time_leb l).
Proof.
  pose proof (stable_sort_sorted _ time_leb time_leb_total time_leb_trans l) as Hs.
  induction Hs as [|x l' Hs IH Hx]; constructor; [exact IH|].
  eapply Forall_impl; [|exact Hx]. intros y Hy. apply Rleb_true_inv. exact Hy.
Qed.

Lemma sorted_points_of_sorted (initial_bpm : R) (points : list (R * R)) :
  StronglySorted time_le points ->
  StronglySorted time_le (Daw.sorted_points_of initial_bpm points) /\
  exists t v rest, Daw.sorted_points_of initial_bpm points = (t, v) :: rest
                   /\ t <= 0.
Proof.
  intros Hs. unfold Daw.sorted_points_of.
  destruct points as [|[t v] rest].
  - split; [repeat constructor|]. exists 0, initial_bpm, []. split; [reflexivity|lra].
  - destruct (Rltb 0 t) eqn:Ht.
    + apply Rltb_true_inv in Ht. split.
      * constructor; [exact Hs|]. constructor; [cbn; lra|].
        apply StronglySorted_inv in Hs as [_ Hall].
        eapply Forall_impl; [|exact Hall]. intros p Hp. cbn in *. lra.
      * exists 0, initial_bpm, ((t, v) :: rest). split; [reflexivity|lra].
    + apply Rltb_false_inv in Ht. split; [exact Hs|].
      exists t, v, rest. split; [reflexivity|lra].
Qed.

(** In a sorted list no element is behind the last one. *)
Lemma sorted_last (l : list (R * R)) (d : R * R) :
  StronglySorted time_le l ->
  Forall (fun p => fst p <= fst (last l d)) l.
Proof.
  induction 1 as [|x l Hs IH Hx]; [constructor|].
  destruct l as [|y l'].
  - constructor; [cbn; lra|constructor].
  - change (last (x :: y :: l') d) with (last (y :: l') d).
    constructor; [|exact IH].
    rewrite Forall_forall in Hx, IH.
    assert (Hy : In y (y :: l')) by (left; reflexivity).
    specialize (Hx y Hy). specialize (IH y Hy). cbn in Hx. lra.
Qed.

Lemma real_points_kept (elems : list element) :
  forall points r : list (R * R),
    real_points float_of_string elems points = Ok r ->
    exists new, r = points ++ new /\
      Forall2 (fun e p => point_of float_of_string e = Ok p)
        (filter (fun c => String.eqb (tag c) "RealPoint") elems) new.
Proof.
  induction elems as [|child rest IH]; intros points r; cbn [real_points filter].
  - intros E. injection E as <-. exists []. rewrite app_nil_r.
    split; [reflexivity|constructor].
  - destruct (String.eqb (tag child) "RealPoint").
    + destruct (point_of float_of_string child) as [p| |] eqn:Ep; cbn [bind];
        try discriminate.
      intros E. apply IH in E. destruct E as (new & -> & Hall).
      exists (p :: new). rewrite <- app_assoc. split; [reflexivity|].
      constructor; assumption.
    + apply IH.
Qed.

Lemma container_points_kept (elems : list element) :
  forall points r : list (R * R),
    container_points float_of_string elems points = Ok r ->
    exists new, r = points ++ new /\
      Forall2 (fun e p => point_of float_of_string e = Ok p) elems new.
Proof.
  induction elems as [|pt rest IH]; intros points r; cbn [container_points].
  - intros E. injection E as <-. exists []. rewrite app_nil_r.
    split; [reflexivity|constructor].
  - destruct (point_of float_of_string pt) as [p| |] eqn:Ep; cbn [bind];
      try discriminate.
    intros E. apply IH in E. destruct E as (new & -> & Hall).
    exists (p :: new). rewrite <- app_assoc. split; [reflexivity|].
    constructor; assumption.
Qed.

Lemma automation_points_kept (elem : element) (r : list (R * R)) :
  automation_points float_of_string elem = Ok r ->
  Forall2 (fun e p => point_of float_of_string e = Ok p)
    (filter (fun c => String.eqb (tag c) "RealPoint") (children elem)
     ++ match find elem "Points" with
        | Some pts_container => children pts_container
        | None => []
        end) r.
Proof.
  unfold automation_points.
  destruct (real_points float_of_string (children elem) []) as [points| |] eqn:E1;
    cbn [bind]; try discriminate.
  apply real_points_kept in E1. destruct E1 as (new1 & -> & H1). cbn [app].
  destruct (find elem "Points") as [c|].
  - intros E2. apply container_points_kept in E2.
    destruct E2 as (new2 & -> & H2). apply Forall2_app; assumption.
  - intros E. injection E as <-. rewrite app_nil_r. exact H1.
Qed.

Lemma get_tempo_map_inv (root : element) (initial_bpm : R)
  (points : list (R * R)) :
  get_tempo_map float_of_string root = Ok (initial_bpm, points) ->
  exists (tempo_id : option string) (raw : list (R * R)),
    transport_tempo float_of_string root = Ok (initial_bpm, tempo_id) /\
    points = stable_sort time_leb raw /\
    Forall2 (fun e p => point_of float_of_string e = Ok p)
      match List.find (is_tempo_automation tempo_id) (iter root) with
      | Some elem =>
          filter (fun c => String.eqb (tag c) "RealPoint") (children elem)
          ++ match find elem "Points" with
             | Some pts_container => children pts_container
             | None => []
             end
      | None => []
      end raw.
Proof.
  unfold get_tempo_map.
  destruct (transport_tempo float_of_string root) as [[bpm tempo_id]| |];
    cbn [bind]; try discriminate.
  destruct (List.find (is_tempo_automation tempo_id) (iter root)) as [elem|] eqn:Ef.
  - destruct (automation_points float_of_string elem) as [raw| |] eqn:Ea;
      cbn [bind]; try discriminate.
    intros E. injection E as <- <-. exists tempo_id, raw.
    rewrite Ef. split; [reflexivity|]. split; [reflexivity|].
    apply automation_points_kept. exact Ea.
  - cbn [bind]. intros E. injection E as <- <-. exists tempo_id, [].
    rewrite Ef. split; [reflexivity|]. split; [reflexivity|constructor].
Qed.

Lemma get_tempo_map_sorted (root : element) (initial_bpm : R)
  (points : list (R * R)) :
  get_tempo_map float_of_string root = Ok (initial_bpm, points) ->
  StronglySorted time_le points.
Proof.
  intros E. apply get_tempo_map_inv in E.
  destruct E as (tempo_id & raw & _ & -> & _). apply sorted_points.
Qed.

End TempoMapOfProject.

(** X23: the tempo points that [get_tempo_map] returns are in
    non-decreasing order of time, so the list that [beats_to_seconds]
    walks for them is in that order too, starts at a time of 0 or less,
    and has no point later than its last one. *)
Theorem tempo_points_reach_beats_to_seconds_sorted
  (float_of_string : string -> option R) (root : DawXml.element)
  (initial_bpm : R) (tempo_points : list (R * R)) :
  DawXml.get_tempo_map float_of_string root = Ok (initial_bpm, tempo_points) ->
  StronglySorted (fun p q => (fst p <= fst q)%R) tempo_points /\
  StronglySorted (fun p q => (fst p <= fst q)%R)
    (Daw.sorted_points_of initial_bpm tempo_points) /\
  (exists t v rest,
     Daw.sorted_points_of initial_bpm tempo_points = (t, v) :: rest
     /\ (t <= 0)%R) /\
  Forall
    (fun p =>
       (fst p
        <= fst (last (Daw.sorted_points_of initial_bpm tempo_points)
                  (0%R, initial_bpm)))%R)
    (Daw.sorted_points_of initial_bpm tempo_points).
Proof.
  intros E. apply get_tempo_map_sorted in E.
  destruct (sorted_points_of_sorted initial_bpm tempo_points E) as [Hs Hfirst].
  split; [exact E|]. split; [exact Hs|]. split; [exact Hfirst|].
  apply sorted_last. exact Hs.
Qed.

(** X24: [get_tempo_map] keeps every point of the tempo automation or
    fails: when it returns, its points are a rearrangement of the pairs
    read from all the [RealPoint] children of the first element (in
    document order) that passes the test of line 30, followed by all the
    children of its [Points] child, each of them with a [time] and a
    [value] attribute that [float] reads; they are none when no element
    passes the test. *)
Theorem tempo_points_are_all_kept
  (float_of_string : string -> option R) (root : DawXml.element)
  (initial_bpm : R) (tempo_points : list (R * R)) :
  DawXml.get_tempo_map float_of_string root = Ok (initial_bpm, tempo_points) ->
  exists (tempo_id : option string) (raw : list (R * R)),
    DawXml.transport_tempo float_of_string root = Ok (initial_bpm, tempo_id) /\
    Permutation tempo_points raw /\
    Forall2 (fun e p => DawXml.point_of float_of_string e = Ok p)
      match List.find (DawXml.is_tempo_automation tempo_id) (DawXml.iter root) with
      | Some elem =>
          filter (fun c => String.eqb (DawXml.tag c) "RealPoint")
            (DawXml.children elem)
          ++ match DawXml.find elem "Points" with
             | Some pts_container => DawXml.children pts_container
             | None => []
             end
      | None => []
      end raw.
Proof.
  intros E. apply get_tempo_map_inv in E.
  destruct E as (tempo_id & raw & Ht & -> & Hall).
  exists tempo_id, raw. split; [exact Ht|]. split; [|exact Hall].
  apply stable_sort_perm.
Qed.

Lemma tempo_points_reach_beats_to_seconds_sorted_witness :
  StronglySorted (fun p q => (fst p <= fst q)%R)
    (stable_sort (fun x y => Daw.Rleb (fst x) (fst y)) [(4, 60); (0, 120)]%R).
Proof.
  exact (proj1 (tempo_points_reach_beats_to_seconds_sorted
                  DawSamples.float_of_string DawSamples.project 120%R _ eq_refl)).
Defined.

Lemma tempo_points_are_all_kept_witness :
  exists (tempo_id : option string) (raw : list (R * R)),
    DawXml.transport_tempo DawSamples.float_of_string DawSamples.project
    = Ok (120%R, tempo_id) /\
    Permutation
      (stable_sort (fun x y => Daw.Rleb (fst x) (fst y)) [(4, 60); (0, 120)]%R)
      raw.
Proof.
  destruct (tempo_points_are_all_kept
              DawSamples.float_of_string DawSamples.project 120%R _ eq_refl)
    as (tempo_id & raw & Ht & Hp & _).
  exists tempo_id, raw. split; [exact Ht|exact Hp].
Defined.

(** * The events of a note *)

Section NoteEvents.
Import DawNotes.
Local Open Scope R_scope.

Lemma Int_part_mono (x y : R) : x <= y -> (Int_part x <= Int_part y)%Z.
Proof.
  intros Hxy.
  destruct (base_Int_part x) as [Hx _]. destruct (base_Int_part y) as [_ Hy].
  assert (Hlt : IZR (Int_part x) < IZR (Int_part y + 1)).
  { rewrite plus_IZR. lra. }
  apply lt_IZR in Hlt. lia.
Qed.

Lemma Int_part_nonneg (x : R) : 0 <= x -> (0 <= Int_part x)%Z.
Proof.
  intros Hx. destruct (base_Int_part x) as [_ Hlow].
  assert (Hlt : IZR (-1) < IZR (Int_part x)) by lra.
  apply lt_IZR in Hlt. lia.
Qed.

Lemma Int_part_le (x : R) (n : Z) : x <= IZR n -> (Int_part x <= n)%Z.
Proof.
  intros Hx. destruct (base_Int_part x) as [Hup _].
  apply le_IZR. lra.
Qed.

Lemma py_int_mono (x y : R) : x <= y -> (py_int x <= py_int y)%Z.
Proof.
  intros Hxy. unfold py_int.
  destruct (Rle_dec 0 x) as [Hx|Hx]; destruct (Rle_dec 0 y) as [Hy|Hy];
    try lra.
  - apply Int_part_mono. exact Hxy.
  - pose proof (Int_part_nonneg (- x) ltac:(lra)).
    pose proof (Int_part_nonneg y Hy). lia.
  - pose proof (Int_part_mono (- y) (- x) ltac:(lra)). lia.
Qed.

Lemma py_int_range (x : R) (n : Z) :
  0 <= x <= IZR n -> (0 <= py_int x <= n)%Z.
Proof.
  intros [Hlo Hhi]. unfold py_int. destruct (Rle_dec 0 x); [|lra].
  split; [apply Int_part_nonneg; exact Hlo|apply Int_part_le; exact Hhi].
Qed.

Lemma note_events_inv (initial_bpm : R) (tempo_points : list (R * R))
  (transpose : Z) (clip_start clip_play_start note_start note_dur : R)
  (note_key : Z) (vel rel : R) (evs : list Daw.daw_event) :
  note_events initial_bpm tempo_points transpose clip_start clip_play_start
    note_start note_dur note_key vel rel = Ok evs ->
  exists time_start time_end : R,
    evs = [Daw.mk_daw_event
             (py_int ((clip_start + (note_start - clip_play_start)) * 960)) 13
             (Daw.NoteOn (note_key + transpose) (py_int (vel * 127)) vel)
             time_start;
           Daw.mk_daw_event
             (py_int ((clip_start + (note_start - clip_play_start) + note_dur)
                      * 960)) 13
             (Daw.NoteOff (note_key + transpose) (py_int (rel * 127)) rel)
             time_end].
Proof.
  unfold note_events.
  destruct (Daw.beats_to_seconds _ _ _) as [ts| |]; cbn [bind]; try discriminate.
  destruct (Daw.beats_to_seconds _ _ _) as [te| |]; cbn [bind]; try discriminate.
  intros E. injection E as <-. exists ts, te. reflexivity.
Qed.

(** X25: for a note whose duration is not negative, the two events that
    are appended are a note on and a note off on the transposed key, the
    tick of the note on is not above that of the note off, and in the
    assembled track, whatever was appended before and after, the note on
    stands before the note off; velocities read from values between 0
    and 1 are between 0 and 127. *)
Theorem note_on_and_off_of_a_note (initial_bpm : R) (tempo_points : list (R * R))
  (transpose : Z) (clip_start clip_play_start note_start note_dur : R)
  (note_key : Z) (vel rel : R) (evs : list Daw.daw_event) :
  0 <= note_dur ->
  note_events initial_bpm tempo_points transpose clip_start clip_play_start
    note_start note_dur note_key vel rel = Ok evs ->
  exists on off : Daw.daw_event,
    evs = [on; off] /\
    Daw.type_is_note_on on = true /\ Daw.type_is_note_off off = true /\
    (Daw.absoluteTicks on <= Daw.absoluteTicks off)%Z /\
    (0 <= vel <= 1 -> 0 <= rel <= 1 ->
     exists v r, Daw.body on = Daw.NoteOn (note_key + transpose) v vel /\
                 Daw.body off = Daw.NoteOff (note_key + transpose) r rel /\
                 (0 <= v <= 127)%Z /\ (0 <= r <= 127)%Z) /\
    forall earlier later : list Daw.daw_event,
      Order.before on off (Daw.assemble_track (earlier ++ evs ++ later)).
Proof.
  intros Hdur E. apply note_events_inv in E. destruct E as (ts & te & ->).
  eexists. eexists. split; [reflexivity|].
  split; [reflexivity|]. split; [reflexivity|].
  cbn [Daw.absoluteTicks Daw.body].
  assert (Hticks : (py_int ((clip_start + (note_start - clip_play_start)) * 960)
                    <= py_int ((clip_start + (note_start - clip_play_start)
                                + note_dur) * 960))%Z)
    by (apply py_int_mono; lra).
  split; [exact Hticks|]. split.
  - intros Hvel Hrel. eexists. eexists.
    split; [reflexivity|]. split; [reflexivity|].
    split; apply py_int_range; lra.
  - intros earlier later. apply assemble_track_keeps_note_order.
    + apply before_in. left. reflexivity.
    + reflexivity.
    + reflexivity.
    + exact Hticks.
Qed.

End NoteEvents.

Lemma note_on_and_off_of_a_note_witness :
  exists (evs : list Daw.daw_event) (on off : Daw.daw_event),
    DawNotes.note_events 120 [] 0 0 0 0 1 60 (1 / 2) (1 / 2) = Ok evs /\
    evs = [on; off] /\
    (Daw.absoluteTicks on <= Daw.absoluteTicks off)%Z.
Proof.
  assert (E : DawNotes.note_events 120 [] 0 0 0 0 1 60 (1 / 2) (1 / 2)
              = Ok [Daw.mk_daw_event (F := R)
                      (DawNotes.py_int ((0 + (0 - 0)) * 960)) 13
                      (Daw.NoteOn (60 + 0) (DawNotes.py_int (1 / 2 * 127))
                         (1 / 2)%R)
                      0%R;
                    Daw.mk_daw_event (F := R)
                      (DawNotes.py_int ((0 + (0 - 0) + 1) * 960)) 13
                      (Daw.NoteOff (60 + 0) (DawNotes.py_int (1 / 2 * 127))
                         (1 / 2)%R)
                      ((0 + (0 - 0) + 1) * 60 / 120)%R]).
  { unfold DawNotes.note_events.
    rewrite (proj1 (beats_to_seconds_constant (0 + (0 - 0)) 120)) by lra.
    cbn [bind].
    rewrite (proj1 (proj2 (beats_to_seconds_constant (0 + (0 - 0) + 1) 120)))
      by lra.
    reflexivity. }
  destruct (note_on_and_off_of_a_note 120 [] 0 0 0 0 1 60 (1 / 2) (1 / 2) _
              ltac:(lra) E) as (on & off & Hevs & _ & _ & Hticks & _).
  eexists. exists on, off. split; [exact E|]. split; [exact Hevs|exact Hticks].
Defined.

Section TrackNameFirst.
Context {F : Type} `{PyFloat F}.

(** X26: the event that was appended first (the track name, at tick 0)
    is the first event of the assembled track, provided that it is not a
    note off and that no event of the track has a smaller tick. *)
Theorem track_name_stays_first (first : Daw.daw_event (F := F))
  (rest : list Daw.daw_event) :
  Daw.type_is_note_off first = false ->
  Forall (fun e => (Daw.absoluteTicks first <= Daw.absoluteTicks e)%Z) rest ->
  exists tail, Daw.assemble_track (first :: rest) = first :: tail.
Proof.
  intros Hoff Hall. unfold Daw.assemble_track.
  assert (Hs : exists tail, Daw.sort_events (first :: rest) = first :: tail).
  { unfold Daw.sort_events. cbn [stable_sort fold_right].
    fold (stable_sort Daw.key_leb rest).
    pose proof (stable_sort_perm _ Daw.key_leb rest) as Hp.
    destruct (stable_sort Daw.key_leb rest) as [|y l]; cbn [insert_sorted];
      [eexists; reflexivity|].
    assert (Hy : In y rest) by (apply (Permutation_in _ Hp); left; reflexivity).
    rewrite Forall_forall in Hall. specialize (Hall y Hy).
    assert (Hle : Daw.key_leb first y = true).
    { unfold Daw.key_leb. rewrite Hoff. cbn [implb]. rewrite andb_true_r.
      destruct (Z.ltb_spec (Daw.absoluteTicks first) (Daw.absoluteTicks y));
        [reflexivity|].
      cbn [orb]. apply Z.eqb_eq. lia. }
    rewrite Hle. eexists. reflexivity. }
  destruct Hs as (tail & ->). cbn [app]. eexists. reflexivity.
Qed.

End TrackNameFirst.

Lemma track_name_stays_first_witness :
  exists tail,
    Daw.assemble_track
      (Daw.mk_daw_event 0 15 (Daw.TrackName "Viola") 0%float
       :: [Daw.mk_daw_event 960 13 (Daw.NoteOff 62 63 0.5%float) 1%float;
           Daw.mk_daw_event 0 13 (Daw.NoteOn 62 63 0.5%float) 0%float])
    = Daw.mk_daw_event 0 15 (Daw.TrackName "Viola") 0%float :: tail.
Proof.
  apply track_name_stays_first.
  - reflexivity.
  - repeat constructor; cbn; lia.
Defined.

(** * Whole streams and the origin of time *)

(** X27: the event loop decodes a well-formed track stream completely,
    wherever it stands in the data and in either form (every status byte
    written, or running status): it ends without error at the end of the
    stream, with the events of the stream appended in order, their
    set-tempo events appended to the tempo list in order, the ticks
    advanced by the sum of the delta times, and the last channel status
    stored. *)
Theorem well_formed_stream_is_decoded_completely (running : bool)
  (items : list item) (last : Z) (pre post : list byte) (ticks : Z)
  (evs all : list event) :
  wf_items last items = true ->
  parse_events (length (stream_bytes running items))
    (pre ++ stream_bytes running items ++ post)
    (length pre + length (stream_bytes running items))
    (mk_state (length pre) ticks last evs all false)
  = Ok (mk_state (length pre + length (stream_bytes running items))
          (ticks_after ticks items)
          (last_voice_status last items)
          (evs ++ events_of ticks items)
          (all ++ filter is_set_tempo (events_of ticks items))
          false).
Proof. apply decode_stream_at. Qed.

Lemma well_formed_stream_is_decoded_completely_witness :
  parse_events
    (length (stream_bytes true
               [Voice [x00] x90 false [x3c; x40];
                MetaItem [x00] x51 [x03] [x07; xa1; x20];
                Voice [x83; x60] x90 true [x3c; x00]]))
    ([x4d; x54] ++
     stream_bytes true
       [Voice [x00] x90 false [x3c; x40];
        MetaItem [x00] x51 [x03] [x07; xa1; x20];
        Voice [x83; x60] x90 true [x3c; x00]] ++ [xff])
    (length [x4d; x54] +
     length (stream_bytes true
               [Voice [x00] x90 false [x3c; x40];
                MetaItem [x00] x51 [x03] [x07; xa1; x20];
                Voice [x83; x60] x90 true [x3c; x00]]))
    (mk_state (length [x4d; x54]) 0 0 [] [] false)
  = Ok (mk_state
          (length [x4d; x54] +
           length (stream_bytes true
                     [Voice [x00] x90 false [x3c; x40];
                      MetaItem [x00] x51 [x03] [x07; xa1; x20];
                      Voice [x83; x60] x90 true [x3c; x00]]))
          (ticks_after 0
             [Voice [x00] x90 false [x3c; x40];
              MetaItem [x00] x51 [x03] [x07; xa1; x20];
              Voice [x83; x60] x90 true [x3c; x00]])
          (last_voice_status 0
             [Voice [x00] x90 false [x3c; x40];
              MetaItem [x00] x51 [x03] [x07; xa1; x20];
              Voice [x83; x60] x90 true [x3c; x00]])
          ([] ++ events_of 0
                   [Voice [x00] x90 false [x3c; x40];
                    MetaItem [x00] x51 [x03] [x07; xa1; x20];
                    Voice [x83; x60] x90 true [x3c; x00]])
          ([] ++ filter is_set_tempo
                   (events_of 0
                      [Voice [x00] x90 false [x3c; x40];
                       MetaItem [x00] x51 [x03] [x07; xa1; x20];
                       Voice [x83; x60] x90 true [x3c; x00]]))
          false).
Proof.
  apply well_formed_stream_is_decoded_completely. reflexivity.
Defined.

Section Origin.
Local Open Scope R_scope.

Lemma segment_loop_origin (beats : R) (points : list (R * R)) :
  Forall (fun p => beats <= fst p) points ->
  forall total : R,
    exists t, (Daw.segment_loop beats points total = Ok (Daw.Returned t) \/
               Daw.segment_loop beats points total = Ok (Daw.Finished t)) /\
              t = total.
Proof.
  induction points as [|[t1 v1] rest IH]; intros Hall total.
  - exists total. split; [right; reflexivity|reflexivity].
  - apply Forall_cons_iff in Hall as [H1 Hall]. cbn [fst] in H1.
    destruct rest as [|[t2 v2] rest'].
    + exists total. split; [right; reflexivity|reflexivity].
    + cbn [Daw.segment_loop].
      pose proof Hall as Hall'. apply Forall_cons_iff in Hall' as [H2 _].
      cbn [fst] in H2.
      destruct (Rltb beats t1);
        [exists total; split; [right; reflexivity|reflexivity]|].
      destruct (Daw.Rleb t2 beats) eqn:Hle.
      * apply Rleb_true_inv in Hle. unfold Daw.full_segment.
        rewrite Rltb_false by lra. cbn [bind].
        destruct (IH Hall (total + 0)) as (t & Ht & ->).
        exists (total + 0). split; [exact Ht|lra].
      * apply Rleb_false_inv in Hle.
        destruct (Rlt_dec t1 beats) as [Hlt|Hge]; [lra|].
        unfold Daw.partial_segment. rewrite Rltb_false by lra. cbn [bind].
        exists (total + 0). split; [left; reflexivity|lra].
Qed.

(** X28: a position that is not above 0 and not above the time of any
    tempo point is at 0 seconds, whatever the tempos (no division is
    made, so none can fail): the time before the first point is not
    counted, and negative positions are not negative times. *)
Theorem beats_to_seconds_starts_at_zero (beats initial_bpm : R)
  (tempo_points : list (R * R)) :
  beats <= 0 -> Forall (fun p => beats <= fst p) tempo_points ->
  Daw.beats_to_seconds beats initial_bpm tempo_points = Ok 0.
Proof.
  intros Hb Hall. unfold Daw.beats_to_seconds.
  assert (Hsp : Forall (fun p => beats <= fst p)
                  (Daw.sorted_points_of initial_bpm tempo_points))
    by (apply sorted_points_of_Forall; [exact Hb|exact Hall]).
  destruct (segment_loop_origin beats _ Hsp 0) as (t & [E|E] & ->);
    rewrite E; cbn [bind]; [reflexivity|].
  pose proof (last_Forall _ _ (0, initial_bpm) Hsp Hb) as Hlast.
  destruct (last _ _) as [last_t last_v]. cbn [fst] in Hlast.
  rewrite Rltb_false by lra. reflexivity.
Qed.

End Origin.

Lemma beats_to_seconds_starts_at_zero_witness :
  Daw.beats_to_seconds (-2) 0 [(0, 0); (4, 120)]%R = Ok 0%R.
Proof.
  apply beats_to_seconds_starts_at_zero.
  - lra.
  - repeat constructor; cbn; lra.
Defined.

(** * The summary that parse_midi prints *)

Section Summary.
Local Open Scope R_scope.

(** What the conversion loop leaves in [max_time]: it never decreases,
    no event of the track is later, it is not below [last_note_off], and
    it is the value it had before or the time of an event of the
    track. *)
Lemma process_track_max (tempo_events : list tempo_event) (tpq : Z)
  (track : list event) :
  forall (acc pt : list (timed_event (F := R))) (mt lno mt' lno' : R),
    process_track tempo_events tpq track acc mt lno = Ok (pt, mt', lno') ->
    lno <= mt ->
    exists new : list timed_event,
      pt = acc ++ new /\ mt <= mt' /\ lno' <= mt' /\
      (forall e, In e new -> time e <= mt') /\
      (mt' = mt \/ exists e, In e new /\ time e = mt').
Proof.
  induction track as [|e track IH]; intros acc pt mt lno mt' lno' E Hle;
    cbn [process_track] in E.
  - injection E as <- <- <-. exists []. rewrite app_nil_r.
    repeat split; [lra|exact Hle|contradiction|left; reflexivity].
  - destruct (ticks_to_seconds tempo_events tpq (absoluteTicks e)) as [t| |];
      cbn [bind] in E; try discriminate.
    cbn [fltb R_PyFloat] in E.
    set (mt1 := if Rltb mt t then t else mt) in *.
    set (lno1 := if is_note_off e && Rltb lno t then t else lno) in *.
    assert (H1 : mt <= mt1 /\ t <= mt1 /\ lno1 <= mt1 /\ (mt1 = mt \/ mt1 = t)).
    { unfold mt1, lno1, Rltb.
      destruct (Rlt_dec mt t); destruct (is_note_off e); cbn [andb];
        destruct (Rlt_dec lno t); repeat split; try lra; auto. }
    destruct H1 as (Hmt & Ht & Hlno & Hcase).
    apply IH in E; [|exact Hlno].
    destruct E as (new & -> & Hmt' & Hlno' & Hall & Hlast).
    exists (mk_timed e t :: new). rewrite <- app_assoc. cbn [app].
    repeat split; [lra|exact Hlno'| |].
    + intros e' [<-|Hin]; cbn [time]; [lra|apply Hall; exact Hin].
    + destruct Hlast as [->|(e' & Hin & He')].
      * destruct Hcase as [-> | ->]; [left; reflexivity|].
        right. exists (mk_timed e t). split; [left; reflexivity|reflexivity].
      * right. exists e'. split; [right; exact Hin|exact He'].
Qed.

Lemma process_tracks_max (tempo_events : list tempo_event) (tpq : Z)
  (tracks : list (list event)) :
  forall (acc pts : list (list (timed_event (F := R)))) (mt lno mt' lno' : R),
    process_tracks tempo_events tpq tracks acc mt lno = Ok (pts, mt', lno') ->
    lno <= mt ->
    exists news : list (list timed_event),
      pts = acc ++ news /\ mt <= mt' /\ lno' <= mt' /\
      (forall e, In e (concat news) -> time e <= mt') /\
      (mt' = mt \/ exists e, In e (concat news) /\ time e = mt').
Proof.
  induction tracks as [|track tracks IH]; intros acc pts mt lno mt' lno' E Hle;
    cbn [process_tracks] in E.
  - injection E as <- <- <-. exists []. rewrite app_nil_r.
    repeat split; [lra|exact Hle|contradiction|left; reflexivity].
  - destruct (process_track tempo_events tpq track [] mt lno)
      as [[[pt mt1] lno1]| |] eqn:Et; cbn [bind] in E; try discriminate.
    apply process_track_max in Et; [|exact Hle].
    destruct Et as (new & -> & Hmt1 & Hlno1 & Hall1 & Hlast1). cbn [app] in *.
    apply IH in E; [|exact Hlno1].
    destruct E as (news & -> & Hmt' & Hlno' & Hall & Hlast).
    exists (new :: news). rewrite <- app_assoc. cbn [app concat].
    repeat split; [lra|exact Hlno'| |].
    + intros e Hin. apply in_app_or in Hin as [Hin|Hin].
      * specialize (Hall1 e Hin). lra.
      * apply Hall; exact Hin.
    + destruct Hlast as [->|(e & Hin & He)].
      * destruct Hlast1 as [->|(e & Hin & He)]; [left; reflexivity|].
        right. exists e. split; [apply in_or_app; left; exact Hin|exact He].
      * right. exists e. split; [apply in_or_app; right; exact Hin|exact He].
Qed.

End Summary.

(** X29: over real arithmetic, the last three lines that [parse_midi]
    prints agree with the timeline it returns: the number of tracks is
    the number of returned tracks, the last note-off time is the second
    component of the result, and the total duration is the greatest time
    of the returned events (0 when there is none, or none above 0); the
    last note-off time is never above the total duration. *)
Theorem printed_summary_matches_the_timeline (data : list byte)
  (json_data : list (list (timed_event (F := R)))) (last_note_off : R)
  (out : list (message R)) :
  parse_midi data = Ok (Some (json_data, last_note_off), out) ->
  exists (out0 : list (message R)) (max_time : R),
    out = out0 ++ [ParsedTracks (length json_data); LastNoteOffRaw last_note_off;
                   TotalDurationRaw max_time] /\
    (last_note_off <= max_time)%R /\
    (forall e, In e (concat json_data) -> (time e <= max_time)%R) /\
    (max_time = 0%R \/ exists e, In e (concat json_data) /\ time e = max_time).
Proof.
  intros E. apply parse_midi_returned in E.
  destruct E as (tracks & out0 & mt & _ & _ & Hev & Hp & Hout).
  subst out. apply process_tracks_max in Hp; [|cbn; lra].
  destruct Hp as (news & -> & _ & Hlno & Hall & Hlast). cbn [app] in *.
  exists out0, mt. subst tracks. rewrite length_map.
  split; [reflexivity|]. split; [exact Hlno|]. split; [exact Hall|exact Hlast].
Qed.

Lemma printed_summary_matches_the_timeline_witness :
  exists (out0 : list (message R)) (max_time : R),
    [ParsedTracks 1; LastNoteOffRaw (1 / 2)%R; TotalDurationRaw (1 / 2)%R]
    = out0 ++ [ParsedTracks
                 (length [[mk_timed (mk_event 0 0 (NoteOn 60 64)) 0%R;
                           mk_timed (mk_event 480 0 (NoteOff 60 0)) (1 / 2)%R]]);
               LastNoteOffRaw (1 / 2)%R; TotalDurationRaw max_time] /\
    (1 / 2 <= max_time)%R.
Proof.
  destruct (printed_summary_matches_the_timeline one_note_file _ _ _
              one_note_file_parsed) as (out0 & mt & Hout & Hle & _).
  exists out0, mt. split; [exact Hout|exact Hle].
Defined.
